(** * types-echo: the type aliases of [declare module 'types-echo']

    The library is a list of TypeScript type aliases.  An alias is a function
    from types to types that the type checker evaluates, so each alias is
    embedded here as a Rocq function over a universe [ty] of types, built
    from combinators that stand for the type-level operators the aliases are
    written with: union, [keyof], indexed access [T[K]], conditional types
    [A extends B ? X : Y] (distributive over a naked type parameter), mapped
    types [{ [P in keyof T]: ... }] with their [readonly] and [?] modifiers.

    The operators follow the checker under [strict] (strictNullChecks and
    strictFunctionTypes on, exactOptionalPropertyTypes off).  The universe
    holds the types with a finite structural description: primitives,
    literal types, object types given by their property list, arrays,
    function types and unions.  Members of the built-in interfaces (String,
    Array, Function, ...), index signatures, symbols, intersections and
    tuples are outside it; a tuple type argument ([Counter] of
    [_NumbersFrom0ToNRec]) is the list of its element types. *)

From Stdlib Require Import List String ZArith Bool Arith Lia.
Import ListNotations.

Set Warnings "-register-all".

Open Scope string_scope.

(** ** The universe of types *)

(** A property of an object type: its modifiers and the type read from it.
    As in the checker, the type of an optional property includes
    [undefined]. *)
Record property (A : Type) : Type := mkProp {
  p_readonly : bool;
  p_optional : bool;
  p_type : A
}.
Arguments mkProp {A} _ _ _.
Arguments p_readonly {A} _.
Arguments p_optional {A} _.
Arguments p_type {A} _.

Inductive ty : Type :=
| TAny
| TUnknown
| TNever
| TNull
| TUndefined
| TVoid
| TString
| TNumber
| TObjectKw                                      (* the [object] keyword *)
| TStrLit (s : string)
| TNumLit (n : Z)
| TBoolLit (b : bool)
| TObject (props : list (string * property ty))  (* { k: T; ... } *)
| TArray (ro : bool) (elem : ty)                 (* T[] and readonly T[] *)
| TFun (params : list ty) (ret : ty)             (* (a: A, ...) => R *)
| TUnion (ms : list ty).

(** [boolean] is the union of its two literal types. *)
Definition TBoolean : ty := TUnion [TBoolLit false; TBoolLit true].

(** Required, writable property. *)
Definition prop (T : ty) : property ty := mkProp false false T.

Section ty_induction.
Variable P : ty -> Prop.
Hypothesis HAny : P TAny.
Hypothesis HUnknown : P TUnknown.
Hypothesis HNever : P TNever.
Hypothesis HNull : P TNull.
Hypothesis HUndefined : P TUndefined.
Hypothesis HVoid : P TVoid.
Hypothesis HString : P TString.
Hypothesis HNumber : P TNumber.
Hypothesis HObjectKw : P TObjectKw.
Hypothesis HStrLit : forall s, P (TStrLit s).
Hypothesis HNumLit : forall n, P (TNumLit n).
Hypothesis HBoolLit : forall b, P (TBoolLit b).
Hypothesis HObject :
  forall ps, Forall (fun kp => P (p_type (snd kp))) ps -> P (TObject ps).
Hypothesis HArray : forall ro e, P e -> P (TArray ro e).
Hypothesis HFun : forall ps r, Forall P ps -> P r -> P (TFun ps r).
Hypothesis HUnion : forall ms, Forall P ms -> P (TUnion ms).

Fixpoint ty_nested_ind (t : ty) : P t :=
  match t with
  | TAny => HAny
  | TUnknown => HUnknown
  | TNever => HNever
  | TNull => HNull
  | TUndefined => HUndefined
  | TVoid => HVoid
  | TString => HString
  | TNumber => HNumber
  | TObjectKw => HObjectKw
  | TStrLit s => HStrLit s
  | TNumLit n => HNumLit n
  | TBoolLit b => HBoolLit b
  | TObject ps =>
      HObject ps
        ((fix go (l : list (string * property ty)) :
            Forall (fun kp => P (p_type (snd kp))) l :=
            match l with
            | [] => Forall_nil _
            | kp :: l' =>
                Forall_cons kp (ty_nested_ind (p_type (snd kp))) (go l')
            end) ps)
  | TArray ro e => HArray ro e (ty_nested_ind e)
  | TFun ps r =>
      HFun ps r
        ((fix go (l : list ty) : Forall P l :=
            match l with
            | [] => Forall_nil _
            | x :: l' => Forall_cons x (ty_nested_ind x) (go l')
            end) ps)
        (ty_nested_ind r)
  | TUnion ms =>
      HUnion ms
        ((fix go (l : list ty) : Forall P l :=
            match l with
            | [] => Forall_nil _
            | x :: l' => Forall_cons x (ty_nested_ind x) (go l')
            end) ms)
  end.
End ty_induction.

(** ** Equality of types *)

Fixpoint ty_eqb (a b : ty) {struct a} : bool :=
  match a, b with
  | TAny, TAny | TUnknown, TUnknown | TNever, TNever | TNull, TNull
  | TUndefined, TUndefined | TVoid, TVoid | TString, TString
  | TNumber, TNumber | TObjectKw, TObjectKw => true
  | TStrLit s, TStrLit s' => String.eqb s s'
  | TNumLit n, TNumLit n' => Z.eqb n n'
  | TBoolLit x, TBoolLit x' => Bool.eqb x x'
  | TObject ps, TObject qs =>
      (fix go (l1 l2 : list (string * property ty)) {struct l1} : bool :=
         match l1, l2 with
         | [], [] => true
         | (k, p) :: r1, (k', p') :: r2 =>
             String.eqb k k'
             && Bool.eqb (p_readonly p) (p_readonly p')
             && Bool.eqb (p_optional p) (p_optional p')
             && ty_eqb (p_type p) (p_type p')
             && go r1 r2
         | _, _ => false
         end) ps qs
  | TArray ro e, TArray ro' e' => Bool.eqb ro ro' && ty_eqb e e'
  | TFun ps r, TFun ps' r' =>
      (fix go (l1 l2 : list ty) {struct l1} : bool :=
         match l1, l2 with
         | [], [] => true
         | x :: r1, y :: r2 => ty_eqb x y && go r1 r2
         | _, _ => false
         end) ps ps'
      && ty_eqb r r'
  | TUnion ms, TUnion ms' =>
      (fix go (l1 l2 : list ty) {struct l1} : bool :=
         match l1, l2 with
         | [], [] => true
         | x :: r1, y :: r2 => ty_eqb x y && go r1 r2
         | _, _ => false
         end) ms ms'
  | _, _ => false
  end.

(** ** Shape tests *)

Definition is_any (t : ty) : bool := match t with TAny => true | _ => false end.
Definition is_unknown (t : ty) : bool :=
  match t with TUnknown => true | _ => false end.
Definition is_never (t : ty) : bool :=
  match t with TNever => true | _ => false end.
Definition is_null (t : ty) : bool :=
  match t with TNull => true | _ => false end.
Definition is_undefined (t : ty) : bool :=
  match t with TUndefined => true | _ => false end.
Definition is_void (t : ty) : bool :=
  match t with TVoid => true | _ => false end.
Definition is_string (t : ty) : bool :=
  match t with TString => true | _ => false end.
Definition is_number (t : ty) : bool :=
  match t with TNumber => true | _ => false end.
Definition is_array (t : ty) : bool :=
  match t with TArray _ _ => true | _ => false end.
Definition is_union (t : ty) : bool :=
  match t with TUnion _ => true | _ => false end.
(** [any] and [unknown], the two top types. *)
Definition is_top (t : ty) : bool := is_any t || is_unknown t.

(** ** Unions *)

(** The constituents of a type seen as a union: [never] is the empty union,
    nested unions are flattened, any other type is its own single member. *)
Fixpoint members (t : ty) : list ty :=
  match t with
  | TNever => []
  | TUnion ms => flat_map members ms
  | _ => [t]
  end.

(** Keeps the first occurrence of every type. *)
Fixpoint dedupe (l : list ty) : list ty :=
  match l with
  | [] => []
  | x :: r => x :: filter (fun y => negb (ty_eqb x y)) (dedupe r)
  end.

(** Literal reduction: a literal type is dropped from a union that holds its
    primitive type. *)
Definition reduce_literals (l : list ty) : list ty :=
  filter (fun t =>
            match t with
            | TStrLit _ => negb (existsb is_string l)
            | TNumLit _ => negb (existsb is_number l)
            | _ => true
            end) l.

Definition of_members (ms : list ty) : ty :=
  if existsb is_any ms then TAny
  else if existsb is_unknown ms then TUnknown
  else match dedupe (reduce_literals ms) with
       | [] => TNever
       | [t] => t
       | ms' => TUnion ms'
       end.

(** [A | B | ...] as the checker builds it: flattened, [any] and [unknown]
    absorbing, literals reduced, duplicates removed, the empty union [never]
    and the one-member union that member. *)
Definition mk_union (l : list ty) : ty := of_members (flat_map members l).

(** [maybeTypeOfKind(t, Undefined | Void)] *)
Definition maybe_undefined_or_void (t : ty) : bool :=
  existsb (fun m => is_undefined m || is_void m) (members t).

(** [getTypeWithFacts(t, NEUndefined)]: the members that are not
    [undefined] (nor [void]). *)
Definition remove_undefined (t : ty) : ty :=
  of_members (filter (fun m => negb (is_undefined m || is_void m)) (members t)).

(** ** Assignability: the relation behind [extends] *)

Fixpoint ty_size (t : ty) : nat :=
  match t with
  | TObject ps => S (list_sum (map (fun kp => ty_size (p_type (snd kp))) ps))
  | TArray _ e => S (ty_size e)
  | TFun ps r => S (list_sum (map ty_size ps) + ty_size r)
  | TUnion ms => S (list_sum (map ty_size ms))
  | _ => 1
  end.

(** The declaration of property [k]: the first one of that name. *)
Fixpoint lookup (k : string) (ps : list (string * property ty))
  : option (property ty) :=
  match ps with
  | [] => None
  | (k', p) :: r => if String.eqb k k' then Some p else lookup k r
  end.

Definition has_key (k : string) (ps : list (string * property ty)) : bool :=
  match lookup k ps with Some _ => true | None => false end.

(** Pairs of types that are compared without looking inside them.  A
    primitive, an array or a function is assignable to the empty object type
    [{}], and to no object type that declares properties (the members such a
    source inherits from its built-in interface are not modelled). *)
Definition base_assignable (S T : ty) : bool :=
  match S, T with
  | TNull, TNull | TUndefined, TUndefined | TUndefined, TVoid | TVoid, TVoid
  | TString, TString | TNumber, TNumber | TObjectKw, TObjectKw => true
  | TStrLit a, TStrLit b => String.eqb a b
  | TStrLit _, TString => true
  | TNumLit a, TNumLit b => Z.eqb a b
  | TNumLit _, TNumber => true
  | TBoolLit a, TBoolLit b => Bool.eqb a b
  | TObject _, TObjectKw | TArray _ _, TObjectKw | TFun _ _, TObjectKw => true
  | TString, TObject [] | TNumber, TObject [] | TStrLit _, TObject []
  | TNumLit _, TObject [] | TBoolLit _, TObject [] | TArray _ _, TObject []
  | TFun _ _, TObject [] => true
  | TObjectKw, TObject tp => forallb (fun kp => p_optional (snd kp)) tp
  | _, _ => false
  end.

(** Every property of the target is present in the source with an
    assignable type, or is optional in the target; an optional source
    property does not fill a required one. *)
Definition props_assignable (rec : ty -> ty -> bool)
    (sp tp : list (string * property ty)) : bool :=
  forallb (fun kp =>
             match lookup (fst kp) sp with
             | Some s =>
                 (negb (p_optional s) || p_optional (snd kp))
                 && rec (p_type s) (p_type (snd kp))
             | None => p_optional (snd kp)
             end) tp.

(** Weak type detection: a target whose properties are all optional rejects
    a source that has properties and shares none with it. *)
Definition weak_mismatch (sp tp : list (string * property ty)) : bool :=
  match sp, tp with
  | _ :: _, _ :: _ =>
      forallb (fun kp => p_optional (snd kp)) tp
      && negb (existsb (fun kp => has_key (fst kp) sp) tp)
  | _, _ => false
  end.

(** Parameters are compared contravariantly, and the source may declare
    fewer of them. *)
Fixpoint params_assignable (rec : ty -> ty -> bool) (sps tps : list ty)
  : bool :=
  match sps, tps with
  | [], _ => true
  | s :: sr, t :: tr => rec t s && params_assignable rec sr tr
  | _ :: _, [] => false
  end.

Definition structural_assignable (rec : ty -> ty -> bool) (S T : ty) : bool :=
  match S, T with
  | TObject sp, TObject tp =>
      props_assignable rec sp tp && negb (weak_mismatch sp tp)
  | TArray sro se, TArray tro te => (negb sro || tro) && rec se te
  | TFun sps sr, TFun tps tr =>
      params_assignable rec sps tps && (is_void tr || rec sr tr)
  | _, _ => base_assignable S T
  end.

Definition assignable_step (rec : ty -> ty -> bool) (S T : ty) : bool :=
  if is_top T then true
  else match S with
       | TNever => true
       | TAny => negb (is_never T)
       | TUnion ss => forallb (fun s => rec s T) ss
       | _ =>
           match T with
           | TUnion ts => existsb (fun t => rec S t) ts
           | _ => structural_assignable rec S T
           end
       end.

Fixpoint assignable_fuel (n : nat) (S T : ty) : bool :=
  match n with
  | O => false
  | Datatypes.S n' => assignable_step (assignable_fuel n') S T
  end.

(** [S] is assignable to [T].  Every comparison of components is on a pair
    of smaller total size, so the sizes of the two types are fuel enough. *)
Definition assignable (S T : ty) : bool :=
  assignable_fuel (ty_size S + ty_size T) S T.

(** ** Conditional types *)

(** [check extends ext ? tt : ff] once [check] and [ext] are known.  With
    [ext] a top type the true branch is taken; otherwise a [check] of [any]
    yields both branches. *)
Definition conditional {R : Type} (both : R -> R -> R)
    (check ext : ty) (tt ff : R) : R :=
  if is_top ext then tt
  else if is_any check then both tt ff
  else if assignable check ext then tt else ff.

Definition cond : ty -> ty -> ty -> ty -> ty :=
  conditional (fun a b => mk_union [a; b]).

(** A conditional type over a naked type parameter is evaluated for each
    member of the argument and the results are united. *)
Definition distribute (T : ty) (f : ty -> ty) : ty :=
  mk_union (map f (members T)).

(** ** [keyof] and indexed access *)

(** The property names a key type stands for: those of its string literal
    members.  (Number literal keys, and the index signatures that [string]
    and [number] stand for, are not modelled; the theorems take string
    literal keys.) *)
Definition key_names (K : ty) : list string :=
  flat_map (fun k => match k with TStrLit s => [s] | _ => [] end) (members K).

Definition keys_of_props (ps : list (string * property ty)) : ty :=
  mk_union (map (fun kp => TStrLit (fst kp)) ps).

(** [keyof T].  The keys of an object type are its property names, those of
    a union the keys common to its members; [any] and [never] have every
    key ([symbol] is not modelled), the other types none that is modelled. *)
Fixpoint keyof (T : ty) : ty :=
  match T with
  | TObject ps => keys_of_props ps
  | TUnion ms =>
      match map keyof ms with
      | [] => mk_union [TString; TNumber]
      | k :: ks =>
          fold_left
            (fun a b =>
               of_members
                 (filter (fun x => existsb (ty_eqb x) (members b)) (members a)))
            ks k
      end
  | TAny | TNever => mk_union [TString; TNumber]
  | _ => TNever
  end.

(** [T[k]] for one property name.  A name that [T] does not declare gives
    [unknown], as the checker does when it instantiates an alias. *)
Fixpoint index_name (T : ty) (k : string) : ty :=
  match T with
  | TAny => TAny
  | TNever => TNever
  | TObject ps =>
      match lookup k ps with Some p => p_type p | None => TUnknown end
  | TUnion ms => mk_union (map (fun m => index_name m k) ms)
  | _ => TUnknown
  end.

(** [T[k]] for a key [k] that is no string literal type: [any] and [never]
    are indexed by every key, with themselves as the result; for the other
    types such a key (a number literal, [string], [number]) is not
    modelled. *)
Definition index_other (T : ty) : ty :=
  match T with
  | TAny => TAny
  | TNever => TNever
  | _ => TUnknown
  end.

(** [T[K]]: the union over the members of [K]. *)
Definition index (T K : ty) : ty :=
  mk_union
    (map (fun k => match k with TStrLit s => index_name T s | _ => index_other T end)
         (members K)).

(** ** Mapped types *)

(** [{ [K in Keys]: template }] where [Keys] is not [keyof] of a type
    parameter: one required, writable property per literal key. *)
Definition mapped (Keys : ty) (template : ty -> ty) : ty :=
  TObject (map (fun k => (k, prop (template (TStrLit k)))) (key_names Keys)).

(** A mapping modifier: absent, [+] ([readonly], [?]) or [-] ([-readonly],
    [-?]). *)
Inductive modifier : Type := Keep | Add | Remove.

Definition apply_modifier (m : modifier) (b : bool) : bool :=
  match m with Keep => b | Add => true | Remove => false end.

Definition is_remove (m : modifier) : bool :=
  match m with Remove => true | _ => false end.
Definition is_add (m : modifier) : bool :=
  match m with Add => true | _ => false end.

(** One property of a homomorphic mapped type.  [template] is the template
    as a function of [T[P]].  With the [?] modifier the checker unites the
    declared template with [undefined] before it instantiates it.  A
    property that ends up optional gets [undefined] in its type; one that
    [-?] makes required loses it, with [void]. *)
Definition map_property (ro opt : modifier) (template : ty -> ty)
    (p : property ty) : property ty :=
  let optional := apply_modifier opt (p_optional p) in
  let propType :=
    if is_add opt then mk_union [template (p_type p); TUndefined]
    else template (p_type p) in
  mkProp (apply_modifier ro (p_readonly p)) optional
    (if optional && negb (maybe_undefined_or_void propType)
     then mk_union [propType; TUndefined]
     else if is_remove opt && p_optional p then remove_undefined propType
     else propType).

(** The element type of a mapped array.  The checker maps an element as it
    maps an optional property: [?] adds [undefined] to its type and [-?]
    removes [undefined] and [void] from it. *)
Definition map_element (opt : modifier) (template : ty -> ty) (e : ty) : ty :=
  let propType :=
    if is_add opt then mk_union [template e; TUndefined] else template e in
  if is_add opt && negb (maybe_undefined_or_void propType)
  then mk_union [propType; TUndefined]
  else if is_remove opt then remove_undefined propType
  else propType.

(** [{ ro [P in keyof T] opt: template }], homomorphic in the type parameter
    [T].  It distributes over a union, maps the properties of an object type
    and the element of an array, leaves a primitive unchanged, and has no
    property for a function type or [unknown].

    Every such template of the library mentions [P] only as [T[P]], so the
    template is taken as a function of [T[P]].

    For [any] the checker yields the index-signature type
    [{ [x: string]: template }], which for the recursive aliases has no
    finite description; [any] is returned unchanged here and the theorems
    that depend on it assume [any]-free arguments. *)
Fixpoint homomorphic (ro opt : modifier) (template : ty -> ty) (T : ty) : ty :=
  match T with
  | TUnion ms => mk_union (map (homomorphic ro opt template) ms)
  | TObject ps =>
      TObject (map (fun kp => (fst kp, map_property ro opt template (snd kp))) ps)
  | TArray r e => TArray (apply_modifier ro r) (map_element opt template e)
  | TFun _ _ | TUnknown => TObject []
  | _ => T
  end.

(** [{ readonly [P in Keys]: template }] where [Keys] is not [keyof] of a
    type parameter: one required, read-only property per literal key. *)
Definition mapped_readonly (Keys : ty) (template : ty -> ty) : ty :=
  TObject
    (map (fun k => (k, mkProp true false (template (TStrLit k)))) (key_names Keys)).

(** [{ ro [K in keyof T] opt: template }], homomorphic in [T], for a
    template that mentions the key [K] and [T] themselves.  The template is
    a function of the type being mapped and of the key; the key of the
    elements of an array is [number]. *)
Fixpoint homomorphic_keyed (ro opt : modifier) (template : ty -> ty -> ty)
    (T : ty) : ty :=
  match T with
  | TUnion ms => mk_union (map (homomorphic_keyed ro opt template) ms)
  | TObject ps =>
      TObject
        (map (fun kp =>
                (fst kp,
                 map_property ro opt
                   (fun _ => template (TObject ps) (TStrLit (fst kp))) (snd kp)))
             ps)
  | TArray r e =>
      TArray (apply_modifier ro r)
             (map_element opt (fun _ => template (TArray r e) TNumber) e)
  | TFun _ _ | TUnknown => TObject []
  | _ => T
  end.

(** [{ [K in keyof T as name]: template }], homomorphic in [T] with the
    keys renamed: the property [K] appears under each literal name that
    [name] yields for it, with the modifiers it has in [T], and not at all
    when [name] is [never].  [name] is a function of the type being mapped
    and of the key, [template] of [T[K]].  With [as] an array is mapped as
    an object, through the members of its built-in interface, which are
    not modelled; and the aliases modelled with it give different keys
    different names. *)
Fixpoint homomorphic_as (name : ty -> ty -> ty) (template : ty -> ty)
    (T : ty) : ty :=
  match T with
  | TUnion ms => mk_union (map (homomorphic_as name template) ms)
  | TObject ps =>
      TObject
        (flat_map (fun kp =>
                     map (fun n => (n, map_property Keep Keep template (snd kp)))
                         (key_names (name (TObject ps) (TStrLit (fst kp)))))
                  ps)
  | TArray _ _ | TFun _ _ | TUnknown => TObject []
  | _ => T
  end.

(** The property [k] as a mapped type over [K extends keyof T] takes it
    from [T]: the declaration in an object type, with its modifiers, and
    otherwise a required, writable property of type [T[k]] (the modifiers
    of the properties of a union are not modelled). *)
Definition property_of (T : ty) (k : string) : property ty :=
  match T with
  | TObject ps =>
      match lookup k ps with Some p => p | None => prop (index_name T k) end
  | _ => prop (index_name T k)
  end.

(** ** The aliases of the library *)

Module TypesEcho.

(** [export type NonNullable<T> = T extends null | undefined ? never : T;] *)
Definition NonNullable (T : ty) : ty :=
  distribute T (fun T => cond T (mk_union [TNull; TUndefined]) TNever T).

(** [export type DeepPartial<T> = { [P in keyof T]?: DeepPartial<T[P]> };] *)
Fixpoint DeepPartial (T : ty) : ty :=
  homomorphic Keep Add DeepPartial T.

(** [export type DeepReadonly<T> =
      { readonly [P in keyof T]: DeepReadonly<T[P]> };] *)
Fixpoint DeepReadonly (T : ty) : ty :=
  homomorphic Add Keep DeepReadonly T.

(** [export type DeepRequired<T> = { [P in keyof T]-?: DeepRequired<T[P]> };] *)
Fixpoint DeepRequired (T : ty) : ty :=
  homomorphic Keep Remove DeepRequired T.

(** [export type DeepMutable<T> =
      { -readonly [P in keyof T]: DeepMutable<T[P]> };] *)
Fixpoint DeepMutable (T : ty) : ty :=
  homomorphic Remove Keep DeepMutable T.

(** [export type DeepNonNullable<T> =
      { [P in keyof T]-?: DeepNonNullable<T[P]> };] *)
Fixpoint DeepNonNullable (T : ty) : ty :=
  homomorphic Keep Remove DeepNonNullable T.

(** [export type DeepNullable<T> =
      { [P in keyof T]: DeepNullable<T[P]> | null };] *)
Fixpoint DeepNullable (T : ty) : ty :=
  homomorphic Keep Keep (fun TP => mk_union [DeepNullable TP; TNull]) T.

(** [export type DeepMaybe<T> =
      { [P in keyof T]: DeepMaybe<T[P]> | undefined };] *)
Fixpoint DeepMaybe (T : ty) : ty :=
  homomorphic Keep Keep (fun TP => mk_union [DeepMaybe TP; TUndefined]) T.

(** [export type DeepVoidable<T> =
      { [P in keyof T]: DeepVoidable<T[P]> | void };] *)
Fixpoint DeepVoidable (T : ty) : ty :=
  homomorphic Keep Keep (fun TP => mk_union [DeepVoidable TP; TVoid]) T.

(** The built-in [type Exclude<T, U> = T extends U ? never : T;] that
    [NumbersRange] is written with. *)
Definition Exclude (T U : ty) : ty :=
  distribute T (fun T => cond T U TNever T).

(** Evaluation of the recursive alias below is counted: [None] is a
    recursion that the given number of instantiations did not finish. *)
Definition both_opt (a b : option ty) : option ty :=
  match a, b with
  | Some x, Some y => Some (mk_union [x; y])
  | _, _ => None
  end.

Definition cond_opt : ty -> ty -> option ty -> option ty -> option ty :=
  conditional both_opt.

Fixpoint sequence (l : list (option ty)) : option (list ty) :=
  match l with
  | [] => Some []
  | None :: _ => None
  | Some x :: r =>
      match sequence r with Some xs => Some (x :: xs) | None => None end
  end.

Definition distribute_opt (T : ty) (f : ty -> option ty) : option ty :=
  option_map mk_union (sequence (map f (members T))).

(** [Counter['length']] for the tuple [Counter]. *)
Definition tuple_length (Counter : list ty) : ty :=
  TNumLit (Z.of_nat (List.length Counter)).

(** [type _NumbersFrom0ToNRec<
       Nr extends number, Counter extends unknown[], Accumulator extends number
     > = Counter['length'] extends Nr
       ? Accumulator
       : _NumbersFrom0ToNRec<Nr, [unknown, ...Counter],
                             Accumulator | Counter['length']>;] *)
Fixpoint _NumbersFrom0ToNRec (fuel : nat) (Nr : ty) (Counter : list ty)
    (Accumulator : ty) : option ty :=
  match fuel with
  | O => None
  | S fuel' =>
      cond_opt (tuple_length Counter) Nr
        (Some Accumulator)
        (_NumbersFrom0ToNRec fuel' Nr (TUnknown :: Counter)
           (mk_union [Accumulator; tuple_length Counter]))
  end.

(** [type _NumbersFrom0ToN<From extends number> = From extends From
       ? number extends From
         ? number
         : From extends 0
         ? never
         : _NumbersFrom0ToNRec<From, [], 0>
       : never;] *)
Definition _NumbersFrom0ToN (fuel : nat) (From : ty) : option ty :=
  distribute_opt From (fun From =>
    cond_opt From From
      (cond_opt TNumber From
         (Some TNumber)
         (cond_opt From (TNumLit 0)
            (Some TNever)
            (_NumbersFrom0ToNRec fuel From [] (TNumLit 0))))
      (Some TNever)).

(** [export type NumbersRange<From extends number, To extends number> =
      Exclude<_NumbersFrom0ToN<To>, _NumbersFrom0ToN<From>>;] *)
Definition NumbersRange (fuel : nat) (From To : ty) : option ty :=
  match _NumbersFrom0ToN fuel To, _NumbersFrom0ToN fuel From with
  | Some to, Some from => Some (Exclude to from)
  | _, _ => None
  end.

(** The type-parameter constraint [extends number] of the three aliases. *)
Definition extends_number (T : ty) : bool := assignable T TNumber.

(** The false branch of [UnionToArray]:
    [never extends (u: infer I) => void ? I[] : never].  [never] gives no
    inference for [I], which is then [unknown]. *)
Definition UnionToArray_else : ty :=
  cond TNever (TFun [TUnknown] TVoid) (TArray false TUnknown) TNever.

(** [export type UnionToArray<U> =
      U extends any ? (u: U) => void
                    : never extends (u: infer I) => void ? I[] : never;]
    A conditional type extends to the right as far as it can, so everything
    after the first [:] is the false branch of [U extends any]. *)
Definition UnionToArray (U : ty) : ty :=
  distribute U (fun U => cond U TAny (TFun [U] TVoid) UnionToArray_else).

(** [export type DeepMerge<T, U> = {
       [K in keyof T | keyof U]: K extends keyof U
         ? U[K]
         : K extends keyof T
         ? T[K] extends object
           ? U[K] extends object
             ? DeepMerge<T[K], U[K]>
             : T[K]
           : T[K]
         : never;
     };]
    [depth] bounds the nesting of the recursive instantiations. *)
Fixpoint DeepMerge_at (depth : nat) (T U : ty) : ty :=
  match depth with
  | O => TNever
  | S depth' =>
      mapped (mk_union [keyof T; keyof U]) (fun K =>
        cond K (keyof U)
          (index U K)
          (cond K (keyof T)
             (cond (index T K) TObjectKw
                (cond (index U K) TObjectKw
                   (DeepMerge_at depth' (index T K) (index U K))
                   (index T K))
                (index T K))
             TNever))
  end.

(** Each recursive instantiation is at a property of [T], so the size of
    [T] bounds the nesting. *)
Definition DeepMerge (T U : ty) : ty := DeepMerge_at (ty_size T) T U.

(** [export type Maybe<T> = T | null | undefined;] *)
Definition Maybe (T : ty) : ty := mk_union [T; TNull; TUndefined].

(** [export type Nullable<T> = T | null;] *)
Definition Nullable (T : ty) : ty := mk_union [T; TNull].

(** [export type Undefinedable<T> = T | undefined;] *)
Definition Undefinedable (T : ty) : ty := mk_union [T; TUndefined].

(** [export type NullableOrUndefined<T> = T | null | undefined;] *)
Definition NullableOrUndefined (T : ty) : ty := mk_union [T; TNull; TUndefined].

(** [export type Voidable<T> = T | void;] *)
Definition Voidable (T : ty) : ty := mk_union [T; TVoid].

(** [export type ReadonlyRecord<K extends keyof any, T> = {
       readonly [P in K]: T;
     };] *)
Definition ReadonlyRecord (K T : ty) : ty := mapped_readonly K (fun _ => T).

(** [export type DeepWritable<T> =
      { -readonly [P in keyof T]: DeepWritable<T[P]> };] *)
Fixpoint DeepWritable (T : ty) : ty :=
  homomorphic Remove Keep DeepWritable T.

(** [export type DeepNonNullableOrUndefined<T> = {
       [P in keyof T]-?: DeepNonNullableOrUndefined<NonNullable<T[P]>>;
     };]
    [depth] bounds the nesting of the recursive instantiations. *)
Fixpoint DeepNonNullableOrUndefined_at (depth : nat) (T : ty) : ty :=
  match depth with
  | O => TNever
  | S depth' =>
      homomorphic Keep Remove
        (fun TP => DeepNonNullableOrUndefined_at depth' (NonNullable TP)) T
  end.

(** Each recursive instantiation is at [NonNullable] of a property of [T],
    which is no larger than the property, so the size of [T] bounds the
    nesting. *)
Definition DeepNonNullableOrUndefined (T : ty) : ty :=
  DeepNonNullableOrUndefined_at (ty_size T) T.

(** [export type ConditionalPick<T, Condition> = {
       [K in keyof T as T[K] extends Condition ? K : never]: T[K]
     };] *)
Definition ConditionalPick (T Condition : ty) : ty :=
  homomorphic_as (fun T K => cond (index T K) Condition K TNever)
                 (fun TK => TK) T.

(** [export type DeepOptionalNullable<T> = {
       [P in keyof T]?: DeepOptionalNullable<T[P]> | null;
     };] *)
Fixpoint DeepOptionalNullable (T : ty) : ty :=
  homomorphic Keep Add (fun TP => mk_union [DeepOptionalNullable TP; TNull]) T.

(** [export type ExcludeFromUnion<U, Excluded> =
      U extends Excluded ? never : U;] *)
Definition ExcludeFromUnion (U Excluded : ty) : ty :=
  distribute U (fun U => cond U Excluded TNever U).

(** [export type ValueOf<T> = T[keyof T];] *)
Definition ValueOf (T : ty) : ty := index T (keyof T).

(** [export type DeepRequiredNonNullable<T> = {
       [P in keyof T]-?: DeepRequiredNonNullable<NonNullable<T[P]>>;
     };] *)
Fixpoint DeepRequiredNonNullable_at (depth : nat) (T : ty) : ty :=
  match depth with
  | O => TNever
  | S depth' =>
      homomorphic Keep Remove
        (fun TP => DeepRequiredNonNullable_at depth' (NonNullable TP)) T
  end.

Definition DeepRequiredNonNullable (T : ty) : ty :=
  DeepRequiredNonNullable_at (ty_size T) T.

(** The built-in [type Pick<T, K extends keyof T> = { [P in K]: T[P] };]
    that the next aliases are written with. *)
Definition Pick (T K : ty) : ty :=
  TObject (map (fun k => (k, property_of T k)) (key_names K)).

(** [export type OptionalKeys<T> = {
       [K in keyof T]-?: {} extends Pick<T, K> ? K : never
     }[keyof T];] *)
Definition OptionalKeys (T : ty) : ty :=
  index
    (homomorphic_keyed Keep Remove
       (fun T K => cond (TObject []) (Pick T K) K TNever) T)
    (keyof T).

(** [export type RequiredKeys<T> = {
       [K in keyof T]-?: {} extends Pick<T, K> ? never : K
     }[keyof T];] *)
Definition RequiredKeys (T : ty) : ty :=
  index
    (homomorphic_keyed Keep Remove
       (fun T K => cond (TObject []) (Pick T K) TNever K) T)
    (keyof T).

(** [export type OptionalProperties<T> = Pick<T, OptionalKeys<T>>;] *)
Definition OptionalProperties (T : ty) : ty := Pick T (OptionalKeys T).

(** [export type RequiredProperties<T> = Pick<T, RequiredKeys<T>>;] *)
Definition RequiredProperties (T : ty) : ty := Pick T (RequiredKeys T).

(** [export type MapValues<T, U> = { [K in keyof T]: U };] *)
Definition MapValues (T U : ty) : ty := homomorphic Keep Keep (fun _ => U) T.

(** [export type UnionToObject<U> = U extends any ? { [K in U]: K } : never;] *)
Definition UnionToObject (U : ty) : ty :=
  distribute U (fun U => cond U TAny (mapped U (fun K => K)) TNever).

End TypesEcho.

Import TypesEcho.

(** ** Predicates the theorems are stated with *)

(** No property, array element or union member reachable in [T] is [any]. *)
Fixpoint any_free (T : ty) : bool :=
  match T with
  | TAny => false
  | TObject ps => forallb (fun kp => any_free (p_type (snd kp))) ps
  | TArray _ e => any_free e
  | TUnion ms => forallb any_free ms
  | _ => true
  end.

(** Every property reachable in [T] is marked [readonly]: those of an
    object type and of the types of its properties, the elements of an
    array, and so in every member of a union.  [any] lets every property be
    written. *)
Fixpoint deeply_readonly (T : ty) : bool :=
  match T with
  | TAny => false
  | TObject ps =>
      forallb (fun kp => p_readonly (snd kp) && deeply_readonly (p_type (snd kp)))
              ps
  | TArray ro e => ro && deeply_readonly e
  | TUnion ms => forallb deeply_readonly ms
  | _ => true
  end.

(** The properties of an object type. *)
Definition props_of (T : ty) : list (string * property ty) :=
  match T with TObject ps => ps | _ => [] end.

(** A type that is its own single union member. *)
Definition is_atom (t : ty) : bool := negb (is_never t) && negb (is_union t).

(** The members of [T] that are neither [null] nor [undefined]. *)
Definition non_nullish_members (T : ty) : list ty :=
  filter (fun t => negb (is_null t || is_undefined t)) (members T).

(** [F] applied to [T] has the keys of [T]: the same [keyof], and the same
    property names in the same order. *)
Definition preserves_keys (F : ty -> ty) (T : ty) : Prop :=
  keyof (F T) = keyof T /\ map fst (props_of (F T)) = map fst (props_of T).

(** What [DeepNonNullable] keeps of the members of its argument. *)
Definition keeps_nullish (T T' : ty) : Prop :=
  Forall (fun m => is_atom m = true /\ is_top m = false) (members T')
  /\ (In TNull (members T) -> In TNull (members T'))
  /\ (In TUndefined (members T) -> In TUndefined (members T')).

Definition is_strlit (t : ty) : bool :=
  match t with TStrLit _ => true | _ => false end.

(** The members the constraint [extends number] admits. *)
Definition numeric_atom (m : ty) : bool :=
  match m with TAny | TNumber | TNumLit _ => true | _ => false end.

(** Some member of [T] is the literal type of a negative integer. *)
Definition has_negative_literal (T : ty) : bool :=
  existsb (fun m => match m with TNumLit n => (n <? 0)%Z | _ => false end)
          (members T).

(** [_NumbersFrom0ToN] on one member of its argument. *)
Definition _NumbersFrom0ToN_member (fuel : nat) (From : ty) : option ty :=
  cond_opt From From
    (cond_opt TNumber From
       (Some TNumber)
       (cond_opt From (TNumLit 0)
          (Some TNever)
          (_NumbersFrom0ToNRec fuel From [] (TNumLit 0))))
    (Some TNever).

(** An evaluation that finishes within some number of instantiations, and
    then within any larger number. *)
Definition converges (f : nat -> option ty) : Prop :=
  exists fuel0, forall fuel, fuel0 <= fuel -> exists r, f fuel = Some r.

(** ** The declarations and what they refer to *)

(** A type alias declaration of the module: its name, whether it is written
    with the keyword [export], and the named types its body refers to (type
    parameters and keyword types apart). *)
Record declaration : Type := mkDecl {
  d_name : string;
  d_export_keyword : bool;
  d_references : list string
}.

(** The body of [declare module 'types-echo'] holds no export declaration
    and no export assignment ([export { ... }], [export * from], [export =],
    [export default]): its only statements are type alias declarations. *)
Definition has_export_declaration : bool := false.

(** What the module exports.  An ambient module without an export
    declaration or assignment exports every one of its declarations, written
    with the keyword [export] or without it; with one, only those written
    with the keyword. *)
Definition d_exported (d : declaration) : bool :=
  d_export_keyword d || negb has_export_declaration.

(** The declarations of [declare module 'types-echo'], in the order of the
    file, each with the type names of its body.  (The shorter of the two
    declaration files holds the first twenty-five of them, with the same
    bodies.) *)
Definition declarations : list declaration := [
  mkDecl "Maybe" true [];
  mkDecl "NonNullable" true [];
  mkDecl "Nullable" true [];
  mkDecl "Undefinedable" true [];
  mkDecl "NullableOrUndefined" true [];
  mkDecl "Voidable" true [];
  mkDecl "ReadonlyRecord" true [];
  mkDecl "ModifyField" true ["Omit"; "Record"];
  mkDecl "Fn" true [];
  mkDecl "VoidFn" true ["Fn"];
  mkDecl "PromiseFn" true ["Promise"];
  mkDecl "MaybePromise" true ["Promise"];
  mkDecl "MaybePromiseFn" true ["MaybePromise"];
  mkDecl "DeepPartial" true ["DeepPartial"];
  mkDecl "DeepReadonly" true ["DeepReadonly"];
  mkDecl "DeepRequired" true ["DeepRequired"];
  mkDecl "DeepMutable" true ["DeepMutable"];
  mkDecl "DeepWritable" true ["DeepWritable"];
  mkDecl "DeepNonNullable" true ["DeepNonNullable"];
  mkDecl "DeepNullable" true ["DeepNullable"];
  mkDecl "DeepMaybe" true ["DeepMaybe"];
  mkDecl "DeepVoidable" true ["DeepVoidable"];
  mkDecl "NumbersRange" true ["Exclude"; "_NumbersFrom0ToN"];
  mkDecl "_NumbersFrom0ToNRec" false ["_NumbersFrom0ToNRec"];
  mkDecl "_NumbersFrom0ToN" false ["_NumbersFrom0ToNRec"];
  mkDecl "DeepNonNullableOrUndefined" true
    ["DeepNonNullableOrUndefined"; "NonNullable"];
  mkDecl "UnionToIntersection" true [];
  mkDecl "KeysUnion" true [];
  mkDecl "ConditionalPick" true [];
  mkDecl "UnionToArray" true [];
  mkDecl "DeepOptionalNullable" true ["DeepOptionalNullable"];
  mkDecl "ExcludeFromUnion" true [];
  mkDecl "FirstElement" true [];
  mkDecl "LastElement" true [];
  mkDecl "FunctionProperties" true ["Function"];
  mkDecl "ValueOf" true [];
  mkDecl "DeepRequiredNonNullable" true
    ["DeepRequiredNonNullable"; "NonNullable"];
  mkDecl "TupleToUnion" true [];
  mkDecl "OptionalKeys" true ["Pick"];
  mkDecl "RequiredKeys" true ["Pick"];
  mkDecl "NonFunctionProperties" true ["Function"];
  mkDecl "OptionalProperties" true ["Pick"; "OptionalKeys"];
  mkDecl "RequiredProperties" true ["Pick"; "RequiredKeys"];
  mkDecl "DeepMerge" true ["DeepMerge"];
  mkDecl "UnionToIntersection" true [];
  mkDecl "Invert" true [];
  mkDecl "PartialWithUndefined" true [];
  mkDecl "MapValues" true [];
  mkDecl "MapKeys" true [];
  mkDecl "UnionToObject" true []
].

(** The names the library defines. *)
Definition library_names : list string := map d_name declarations.

Definition defined_by_library (name : string) : bool :=
  existsb (String.eqb name) library_names.

(** The types defined by the library, other than [d] itself, that the body
    of [d] refers to. *)
Definition other_library_references (d : declaration) : list string :=
  filter (fun r => defined_by_library r && negb (String.eqb r (d_name d)))
         (d_references d).

(** The exported aliases that are written with another alias of the
    library, each with the aliases it uses. *)
Definition cross_references : list (string * list string) := [
  ("VoidFn", ["Fn"]);
  ("MaybePromiseFn", ["MaybePromise"]);
  ("NumbersRange", ["_NumbersFrom0ToN"]);
  ("_NumbersFrom0ToN", ["_NumbersFrom0ToNRec"]);
  ("DeepNonNullableOrUndefined", ["NonNullable"]);
  ("DeepRequiredNonNullable", ["NonNullable"]);
  ("OptionalProperties", ["OptionalKeys"]);
  ("RequiredProperties", ["RequiredKeys"])
].

Fixpoint assoc (k : string) (l : list (string * list string)) : list string :=
  match l with
  | [] => []
  | (k', v) :: r => if String.eqb k k' then v else assoc k r
  end.

Fixpoint strings_eqb (a b : list string) : bool :=
  match a, b with
  | [], [] => true
  | x :: r, y :: s => String.eqb x y && strings_eqb r s
  | _, _ => false
  end.

(** ** Predicates of the further properties *)

(** The union [a | a+1 | ... | b-1] of number literal types. *)
Definition literal_range (a b : nat) : ty :=
  mk_union (map (fun i => TNumLit (Z.of_nat i)) (seq a (b - a))).

Definition numlits (l : list nat) : list ty :=
  map (fun i => TNumLit (Z.of_nat i)) l.

Definition non_nullish (t : ty) : bool := negb (is_null t || is_undefined t).

Definition is_nullish (m : ty) : bool := is_null m || is_undefined m.

(** The types with one value: [null], [undefined] and [void]. *)
Definition is_unit_type (a : ty) : bool := is_null a || is_undefined a || is_void a.

(** The members [ExcludeFromUnion<U, Excluded>] keeps: none when
    [Excluded] is a top type; otherwise [any], and every member that does
    not extend [Excluded]. *)
Definition not_excluded (Excluded : ty) (m : ty) : bool :=
  negb (is_top Excluded) && (is_any m || negb (assignable m Excluded)).

(** [S extends T ? K : never] is [K]. *)
Definition extends (S T : ty) : bool := is_top T || is_any S || assignable S T.

(** A type no member of which is an object type, an array or a function
    type: a union of primitive and literal types, [null], [undefined],
    [void], [object], [any] and [unknown].  Whether a type extends such a
    target depends neither on the members that primitives, arrays and
    functions take from their built-in interfaces ([String], [Number],
    [Array], [Function], ...), which the universe does not hold, nor on the
    checker's rule that [unknown] is assignable to [{} | null | undefined],
    which [assignable] does not have. *)
Definition flat_target (T : ty) : bool :=
  forallb (fun m => match m with
                    | TObject _ | TArray _ _ | TFun _ _ => false
                    | _ => true
                    end)
          (members T).

(** The common shape of the recursive mapped aliases:
    [{ ro [P in keyof T] opt: wrap (Self<T[P]>) }]. *)
Section deep_mapped.
Variables (ro opt : modifier) (wrap : ty -> ty).
Fixpoint deep_mapped (T : ty) : ty :=
  homomorphic ro opt (fun TP => wrap (deep_mapped TP)) T.
End deep_mapped.

(** The modifier that applying [m1] and then [m2] amounts to. *)
Definition after (m2 m1 : modifier) : modifier :=
  match m2 with Keep => m1 | _ => m2 end.

(** Every property reachable in [T] satisfies [okp] and every array
    reachable in [T], with its element type, satisfies [oka]; no [any] is
    reachable. *)
Fixpoint everywhere (okp : property ty -> bool) (oka : bool -> ty -> bool)
    (T : ty) : bool :=
  match T with
  | TAny => false
  | TObject ps =>
      forallb (fun kp => okp (snd kp) && everywhere okp oka (p_type (snd kp))) ps
  | TArray ro e => oka ro e && everywhere okp oka e
  | TUnion ms => forallb (everywhere okp oka) ms
  | _ => true
  end.

(** No member of [T] is [any] or [unknown]. *)
Definition no_top_member (T : ty) : bool :=
  forallb (fun m => negb (is_top m)) (members T).

(** Some member of [T] satisfies [q]. *)
Definition has_member (q : ty -> bool) (T : ty) : bool := existsb q (members T).

(** No property is [readonly] and no array is a [readonly] array. *)
Definition deeply_mutable : ty -> bool :=
  everywhere (fun p => negb (p_readonly p)) (fun ro _ => negb ro).

(** Every property is optional and its type has the member [undefined],
    and so has the element type of every array. *)
Definition deeply_optional : ty -> bool :=
  everywhere (fun p => p_optional p && has_member is_undefined (p_type p))
             (fun _ e => has_member is_undefined e).

(** No property is optional, and the element type of no array has the
    member [undefined] or [void]. *)
Definition deeply_required : ty -> bool :=
  everywhere (fun p => negb (p_optional p))
             (fun _ e => negb (maybe_undefined_or_void e)).

(** The type of every property and of every array element has a member
    that satisfies [q]. *)
Definition deeply_admits (q : ty -> bool) : ty -> bool :=
  everywhere (fun p => has_member q (p_type p)) (fun _ e => has_member q e).

(** Every property reachable in [T] is required and its type has neither
    [null] nor [undefined] as a member, and so for the elements of the
    arrays. *)
Definition deeply_non_nullish : ty -> bool :=
  everywhere (fun p => negb (p_optional p) && negb (has_member is_nullish (p_type p)))
             (fun _ e => negb (has_member is_nullish e)).

(** Whether a literal type stays in a union that has [string] ([hs]) or
    [number] ([hn]) among its members. *)
Definition literal_kept (hs hn : bool) (t : ty) : bool :=
  match t with TStrLit _ => negb hs | TNumLit _ => negb hn | _ => true end.

(** The optional and the required properties of an object type. *)
Definition optional_props (ps : list (string * property ty))
  : list (string * property ty) :=
  filter (fun kp => p_optional (snd kp)) ps.

Definition required_props (ps : list (string * property ty))
  : list (string * property ty) :=
  filter (fun kp => negb (p_optional (snd kp))) ps.

(** * Properties of the operators *)

(** ** Lists *)

Lemma in_list_sum :
  forall (A : Type) (f : A -> nat) x l, In x l -> f x <= list_sum (map f l).
Proof.
  intros A f x l. induction l as [|y r IH]; simpl; [tauto|].
  intros [<-|H]; [lia | specialize (IH H); lia].
Qed.

Lemma existsb_same :
  forall (A : Type) (f g : A -> bool) l,
    (forall x, In x l -> f x = g x) -> existsb f l = existsb g l.
Proof.
  intros A f g l H. induction l as [|x r IH]; simpl; [reflexivity|].
  rewrite (H x (or_introl eq_refl)), IH; [reflexivity|].
  intros y Hy. apply H. now right.
Qed.

Lemma filter_comm :
  forall (p q : ty -> bool) l, filter p (filter q l) = filter q (filter p l).
Proof.
  intros p q l. induction l as [|x r IH]; simpl; [reflexivity|].
  destruct (q x) eqn:Eq, (p x) eqn:Ep; simpl; rewrite ?Eq, ?Ep, IH; reflexivity.
Qed.

Lemma filter_absorb :
  forall (p q : ty -> bool) l,
    (forall y, In y l -> p y = true -> q y = true) ->
    filter p (filter q l) = filter p l.
Proof.
  intros p q l H. induction l as [|x r IH]; simpl; [reflexivity|].
  assert (IH' : filter p (filter q r) = filter p r).
  { apply IH. intros y Hy. apply H. now right. }
  destruct (p x) eqn:Ep.
  - rewrite (H x (or_introl eq_refl) Ep). simpl. now rewrite Ep, IH'.
  - destruct (q x); simpl; rewrite ?Ep; exact IH'.
Qed.

Lemma filter_all :
  forall (p : ty -> bool) l, (forall y, In y l -> p y = true) -> filter p l = l.
Proof.
  intros p l H. induction l as [|x r IH]; simpl; [reflexivity|].
  rewrite (H x (or_introl eq_refl)), IH; [reflexivity|].
  intros y Hy. apply H. now right.
Qed.

Lemma forallb_flat_map :
  forall (f : ty -> bool) (g : ty -> list ty) l,
    forallb f (flat_map g l) = forallb (fun x => forallb f (g x)) l.
Proof.
  intros f g l. induction l as [|x r IH]; simpl; [reflexivity|].
  now rewrite forallb_app, IH.
Qed.

Lemma forallb_same :
  forall (A : Type) (f g : A -> bool) l,
    (forall x, In x l -> f x = g x) -> forallb f l = forallb g l.
Proof.
  intros A f g l H. induction l as [|x r IH]; simpl; [reflexivity|].
  rewrite (H x (or_introl eq_refl)), IH; [reflexivity|].
  intros y Hy. apply H. now right.
Qed.

Lemma lookup_In : forall k ps p, lookup k ps = Some p -> In (k, p) ps.
Proof.
  intros k ps p. induction ps as [|[k' p'] r IH]; simpl; [discriminate|].
  destruct (String.eqb k k') eqn:E.
  - apply String.eqb_eq in E. intros [= ->]. subst. now left.
  - intros H. right. auto.
Qed.

Lemma lookup_map_property :
  forall (g : property ty -> property ty) k ps,
    lookup k (map (fun kp => (fst kp, g (snd kp))) ps)
    = option_map g (lookup k ps).
Proof.
  intros g k ps. induction ps as [|[k' p] r IH]; simpl; [reflexivity|].
  destruct (String.eqb k k'); [reflexivity | exact IH].
Qed.

Lemma lookup_mapped :
  forall (f : string -> property ty) k names,
    In k names -> lookup k (map (fun k => (k, f k)) names) = Some (f k).
Proof.
  intros f k names. induction names as [|k' r IH]; simpl; [tauto|].
  destruct (String.eqb k k') eqn:E.
  - apply String.eqb_eq in E. now subst.
  - apply String.eqb_neq in E. intros [E'|H]; [congruence | auto].
Qed.

(** ** Equality *)

Lemma ty_eqb_refl : forall t, ty_eqb t t = true.
Proof.
  induction t using ty_nested_ind; simpl; auto.
  - apply String.eqb_refl.
  - apply Z.eqb_refl.
  - destruct b; reflexivity.
  - induction H as [|[k p] l Hp _ IH]; [reflexivity|].
    simpl in Hp. rewrite String.eqb_refl, !Bool.eqb_reflx, Hp, IH. reflexivity.
  - rewrite Bool.eqb_reflx, IHt. reflexivity.
  - rewrite IHt, andb_true_r.
    induction H as [|x l Hx _ IH]; [reflexivity|]. now rewrite Hx, IH.
  - induction H as [|x l Hx _ IH]; [reflexivity|]. now rewrite Hx, IH.
Qed.

Lemma ty_eqb_sound : forall a b, ty_eqb a b = true -> a = b.
Proof.
  induction a using ty_nested_ind; intros c E;
    destruct c as [| | | | | | | | |s'|n'|b'|qs|ro' e'|qs r'|ms']; simpl in E;
    try discriminate; try reflexivity.
  - apply String.eqb_eq in E. now subst.
  - apply Z.eqb_eq in E. now subst.
  - apply Bool.eqb_prop in E. now subst.
  - f_equal. revert qs E.
    induction H as [|[k p] l Hp _ IH]; intros [|[k' p'] r] E;
      try discriminate; [reflexivity|].
    simpl in Hp.
    apply andb_true_iff in E as [E E5].
    apply andb_true_iff in E as [E E4].
    apply andb_true_iff in E as [E E3].
    apply andb_true_iff in E as [E1 E2].
    apply String.eqb_eq in E1. apply Bool.eqb_prop in E2, E3.
    apply Hp in E4. apply IH in E5.
    destruct p, p'; simpl in *; subst. reflexivity.
  - apply andb_true_iff in E as [E1 E2].
    apply Bool.eqb_prop in E1. apply IHa in E2. now subst.
  - apply andb_true_iff in E as [E1 E2]. apply IHa in E2. subst. f_equal.
    revert qs E1.
    induction H as [|x l Hx _ IH]; intros [|y r] E; try discriminate;
      [reflexivity|].
    apply andb_true_iff in E as [E1 E2]. f_equal; auto.
  - f_equal. revert ms' E.
    induction H as [|x l Hx _ IH]; intros [|y r] E; try discriminate;
      [reflexivity|].
    apply andb_true_iff in E as [E1 E2]. f_equal; auto.
Qed.

Lemma ty_size_pos : forall t, 1 <= ty_size t.
Proof. destruct t; simpl; lia. Qed.

(** ** The fuel of [assignable] is enough *)

Lemma params_assignable_same :
  forall (r1 r2 : ty -> ty -> bool) sps tps,
    (forall s t, In s sps -> In t tps -> r1 t s = r2 t s) ->
    params_assignable r1 sps tps = params_assignable r2 sps tps.
Proof.
  intros r1 r2 sps. induction sps as [|s sr IH]; intros [|t tr] H; simpl;
    try reflexivity.
  rewrite (H s t (or_introl eq_refl) (or_introl eq_refl)), (IH tr);
    [reflexivity|].
  intros s' t' Hs Ht. apply H; now right.
Qed.

(** One step of the comparison looks at pairs of smaller total size only. *)
Lemma assignable_step_same :
  forall (r1 r2 : ty -> ty -> bool) S T,
    (forall s t, ty_size s + ty_size t < ty_size S + ty_size T ->
                 r1 s t = r2 s t) ->
    assignable_step r1 S T = assignable_step r2 S T.
Proof.
  intros r1 r2 S T H. unfold assignable_step.
  destruct (is_top T); [reflexivity|].
  assert (HT : forall ts, T = TUnion ts ->
                 existsb (fun t => r1 S t) ts = existsb (fun t => r2 S t) ts).
  { intros ts ->. apply existsb_same. intros t Ht. apply H.
    pose proof (in_list_sum _ ty_size t ts Ht). simpl. lia. }
  destruct S as [| | | | | | | | |s|n|b|sp|sro se|sps sr|ss];
    try reflexivity;
    try (destruct T; try reflexivity; now apply HT).
  - destruct T as [| | | | | | | | |s|n|b|tp|tro te|tps tr|ts];
      try reflexivity; [|now apply HT].
    simpl. f_equal. unfold props_assignable. apply forallb_same.
    intros [k t] Ht. simpl. destruct (lookup k sp) as [s|] eqn:Es; [|reflexivity].
    f_equal. apply H. apply lookup_In in Es.
    pose proof (in_list_sum _ (fun kp => ty_size (p_type (snd kp))) _ _ Es).
    pose proof (in_list_sum _ (fun kp => ty_size (p_type (snd kp))) _ _ Ht).
    simpl in *. lia.
  - destruct T as [| | | | | | | | |s|n|b|tp|tro te|tps tr|ts];
      try reflexivity; [|now apply HT].
    simpl. f_equal. apply H. simpl. lia.
  - destruct T as [| | | | | | | | |s|n|b|tp|tro te|tps tr|ts];
      try reflexivity; [|now apply HT].
    simpl. f_equal.
    + apply params_assignable_same. intros s t Hs Ht. apply H.
      pose proof (in_list_sum _ ty_size _ _ Hs).
      pose proof (in_list_sum _ ty_size _ _ Ht). simpl. lia.
    + f_equal. apply H. simpl. lia.
  - apply forallb_same. intros s Hs. apply H.
    pose proof (in_list_sum _ ty_size _ _ Hs). simpl. lia.
Qed.

(** Any fuel that covers the sizes of the two types gives the same answer. *)
Lemma assignable_fuel_enough :
  forall n m S T,
    ty_size S + ty_size T <= n -> ty_size S + ty_size T <= m ->
    assignable_fuel n S T = assignable_fuel m S T.
Proof.
  induction n as [|n IH]; intros m S T Hn Hm.
  { pose proof (ty_size_pos S). lia. }
  destruct m as [|m]; [pose proof (ty_size_pos S); lia|].
  simpl. apply assignable_step_same. intros s t Hlt. apply IH; lia.
Qed.

Lemma assignable_unfold :
  forall S T, assignable S T = assignable_step assignable S T.
Proof.
  intros S T. unfold assignable at 1.
  destruct (ty_size S + ty_size T) as [|n] eqn:E.
  { pose proof (ty_size_pos S). lia. }
  simpl. apply assignable_step_same. intros s t Hlt.
  unfold assignable. apply assignable_fuel_enough; lia.
Qed.

(** ** Members and unions *)

Lemma members_atom : forall t, is_atom t = true -> members t = [t].
Proof. destruct t; simpl; intros E; try reflexivity; discriminate E. Qed.

Lemma members_are_atoms : forall T, Forall (fun m => is_atom m = true) (members T).
Proof.
  induction T using ty_nested_ind; simpl;
    try (constructor; [reflexivity | constructor]); try constructor.
  induction H as [|x l Hx _ IH]; simpl; [constructor|].
  apply Forall_app. split; assumption.
Qed.

Lemma flat_map_members_atoms :
  forall l, Forall (fun m => is_atom m = true) l -> flat_map members l = l.
Proof.
  induction 1 as [|x l Hx _ IH]; simpl; [reflexivity|].
  rewrite (members_atom x Hx), IH. reflexivity.
Qed.

Lemma members_idem : forall T, flat_map members (members T) = members T.
Proof. intros T. apply flat_map_members_atoms, members_are_atoms. Qed.

Lemma in_dedupe : forall a l, In a (dedupe l) <-> In a l.
Proof.
  intros a l. induction l as [|x r IH]; simpl; [tauto|].
  rewrite filter_In, IH. split.
  - intros [E | [Hin _]]; auto.
  - intros [E | Hin]; [now left|].
    destruct (ty_eqb x a) eqn:Exa.
    + left. now apply ty_eqb_sound.
    + right. split; [assumption | reflexivity].
Qed.

Lemma in_reduce_literals : forall a l, In a (reduce_literals l) -> In a l.
Proof. unfold reduce_literals. intros a l H. now apply filter_In in H. Qed.

(** The members of a union built by the checker are among the types it was
    built from. *)
Lemma members_of_members :
  forall ms m, Forall (fun x => is_atom x = true) ms ->
               In m (members (of_members ms)) -> In m ms.
Proof.
  intros ms m Hat. unfold of_members.
  destruct (existsb is_any ms) eqn:Ea.
  { apply existsb_exists in Ea as [x [Hx Ex]]. destruct x; try discriminate.
    simpl. intros [<-|[]]. assumption. }
  destruct (existsb is_unknown ms) eqn:Eu.
  { apply existsb_exists in Eu as [x [Hx Ex]]. destruct x; try discriminate.
    simpl. intros [<-|[]]. assumption. }
  assert (Hsub : forall x, In x (dedupe (reduce_literals ms)) -> In x ms).
  { intros x Hx. apply (proj1 (in_dedupe _ _)) in Hx.
    now apply in_reduce_literals in Hx. }
  assert (Hat' : Forall (fun x => is_atom x = true) (dedupe (reduce_literals ms))).
  { apply Forall_forall. intros x Hx. rewrite Forall_forall in Hat. auto. }
  destruct (dedupe (reduce_literals ms)) as [|t [|t' r]]; simpl.
  - tauto.
  - inversion Hat' as [|? ? Ht _]; subst.
    rewrite (members_atom t Ht). intros [<-|[]]. apply Hsub. now left.
  - change (In m (flat_map members (t :: t' :: r)) -> In m ms).
    rewrite (flat_map_members_atoms _ Hat'). apply Hsub.
Qed.

Lemma members_mk_union :
  forall l m, In m (members (mk_union l)) -> In m (flat_map members l).
Proof.
  intros l m. unfold mk_union. apply members_of_members.
  apply Forall_forall. intros x Hx. apply in_flat_map in Hx as [y [_ Hy]].
  pose proof (members_are_atoms y) as Hat. rewrite Forall_forall in Hat. auto.
Qed.

Lemma of_members_single : forall m, is_atom m = true -> of_members [m] = m.
Proof. destruct m; intros E; try discriminate E; reflexivity. Qed.

Lemma mk_union_same_members :
  forall l1 l2, flat_map members l1 = flat_map members l2 ->
                mk_union l1 = mk_union l2.
Proof. intros l1 l2 E. unfold mk_union. now rewrite E. Qed.

(** ** [extends null | undefined] *)

Lemma assignable_nullish :
  forall m, is_atom m = true -> is_any m = false ->
            assignable m (TUnion [TNull; TUndefined])
            = is_null m || is_undefined m.
Proof.
  intros m Hat Hany. unfold assignable. rewrite Nat.add_comm.
  destruct m; try discriminate; reflexivity.
Qed.

(** One member of the argument of [NonNullable]: [null] and [undefined]
    become [never], any other member is kept. *)
Lemma NonNullable_member :
  forall m, is_atom m = true ->
            cond m (mk_union [TNull; TUndefined]) TNever m
            = if is_null m || is_undefined m then TNever else m.
Proof.
  intros m Hat. unfold cond, conditional.
  change (mk_union [TNull; TUndefined]) with (TUnion [TNull; TUndefined]).
  change (is_top (TUnion [TNull; TUndefined])) with false. cbv iota.
  destruct (is_any m) eqn:Ea.
  - destruct m; try discriminate. reflexivity.
  - rewrite (assignable_nullish m Hat Ea). reflexivity.
Qed.

(** * NonNullable *)

Lemma NonNullable_flat_members :
  forall l, Forall (fun m => is_atom m = true) l ->
    flat_map members
      (map (fun T => cond T (mk_union [TNull; TUndefined]) TNever T) l)
    = filter (fun t => negb (is_null t || is_undefined t)) l.
Proof.
  induction 1 as [|m l Hm _ IH]; [reflexivity|].
  cbn [map flat_map filter]. rewrite IH, (NonNullable_member m Hm).
  destruct (is_null m || is_undefined m); simpl; [reflexivity|].
  now rewrite (members_atom m Hm).
Qed.

(** C7.  [NonNullable<T>] is exactly the union of the members of [T] that
    are neither [null] nor [undefined]: the conditional type is evaluated
    member by member, [null] and [undefined] give [never] and every other
    member is kept unchanged; [NonNullable<string | null | undefined>] is
    [string]. *)
Theorem NonNullable_keeps_non_nullish_members :
  forall T,
    NonNullable T = mk_union (non_nullish_members T)
    /\ (forall m, In m (members T) ->
          NonNullable m = if is_null m || is_undefined m then TNever else m)
    /\ NonNullable (TUnion [TString; TNull; TUndefined]) = TString.
Proof.
  intros T. pose proof (members_are_atoms T) as Hat. repeat split.
  - unfold NonNullable, distribute, non_nullish_members.
    apply mk_union_same_members.
    rewrite (NonNullable_flat_members _ Hat). symmetry.
    apply flat_map_members_atoms, Forall_forall. intros x Hx.
    apply filter_In in Hx as [Hx _]. rewrite Forall_forall in Hat. auto.
  - intros m Hm. rewrite Forall_forall in Hat. specialize (Hat m Hm).
    unfold NonNullable, distribute. rewrite (members_atom m Hat). simpl map.
    rewrite (NonNullable_member m Hat).
    destruct (is_null m || is_undefined m); [reflexivity|].
    unfold mk_union. simpl. rewrite app_nil_r, (members_atom m Hat).
    now apply of_members_single.
Qed.

(** * UnionToArray *)

Lemma UnionToArray_distributes :
  forall U, UnionToArray U = mk_union (map (fun Ui => TFun [Ui] TVoid) (members U)).
Proof. reflexivity. Qed.

(** C4.  [UnionToArray<U>] is the union, over the members [Ui] of [U], of
    the function types [(u: Ui) => void], and never an array type: the
    conditional type without parentheses reads
    [U extends any ? ((u: U) => void) : (never extends ... ? I[] : never)]
    and [U extends any] always takes its true branch, so the branch with
    [I[]] is not reached and the result is the same whatever stands in it. *)
Theorem UnionToArray_is_union_of_functions :
  forall U,
    UnionToArray U = mk_union (map (fun Ui => TFun [Ui] TVoid) (members U))
    /\ Forall (fun m => exists Ui, In Ui (members U) /\ m = TFun [Ui] TVoid)
              (members (UnionToArray U))
    /\ is_array (UnionToArray U) = false
    /\ (forall false_branch,
          distribute U (fun Ui => cond Ui TAny (TFun [Ui] TVoid) false_branch)
          = UnionToArray U).
Proof.
  intros U.
  assert (Hmem : Forall (fun m => exists Ui, In Ui (members U) /\ m = TFun [Ui] TVoid)
                        (members (UnionToArray U))).
  { apply Forall_forall. intros m Hm. rewrite UnionToArray_distributes in Hm.
    apply members_mk_union in Hm. rewrite flat_map_members_atoms in Hm.
    - apply in_map_iff in Hm as [Ui [E Hin]]. exists Ui. auto.
    - apply Forall_forall. intros x Hx.
      apply in_map_iff in Hx as [Ui [<- _]]. reflexivity. }
  split; [apply UnionToArray_distributes | split; [exact Hmem|]].
  split; [|reflexivity].
  destruct (UnionToArray U) eqn:E; try reflexivity.
  simpl in Hmem. inversion Hmem as [|? ? [Ui [_ Habs]] _]. discriminate Habs.
Qed.

(** The example of the documentation, ['a' | 'b' | 'c'], and [boolean]. *)
Lemma UnionToArray_examples :
  UnionToArray (TUnion [TStrLit "a"; TStrLit "b"; TStrLit "c"])
  = TUnion [TFun [TStrLit "a"] TVoid; TFun [TStrLit "b"] TVoid;
            TFun [TStrLit "c"] TVoid]
  /\ UnionToArray TBoolean
     = TUnion [TFun [TBoolLit false] TVoid; TFun [TBoolLit true] TVoid].
Proof. split; reflexivity. Qed.

(** * The deep mapped transforms *)

Lemma DeepPartial_unfold :
  forall T, DeepPartial T = homomorphic Keep Add DeepPartial T.
Proof. destruct T; reflexivity. Qed.

Lemma DeepReadonly_unfold :
  forall T, DeepReadonly T = homomorphic Add Keep DeepReadonly T.
Proof. destruct T; reflexivity. Qed.

Lemma DeepRequired_unfold :
  forall T, DeepRequired T = homomorphic Keep Remove DeepRequired T.
Proof. destruct T; reflexivity. Qed.

Lemma DeepMutable_unfold :
  forall T, DeepMutable T = homomorphic Remove Keep DeepMutable T.
Proof. destruct T; reflexivity. Qed.

Lemma DeepNonNullable_unfold :
  forall T, DeepNonNullable T = homomorphic Keep Remove DeepNonNullable T.
Proof. destruct T; reflexivity. Qed.

Lemma DeepNullable_unfold :
  forall T, DeepNullable T
            = homomorphic Keep Keep (fun TP => mk_union [DeepNullable TP; TNull]) T.
Proof. destruct T; reflexivity. Qed.

Lemma DeepMaybe_unfold :
  forall T, DeepMaybe T
            = homomorphic Keep Keep (fun TP => mk_union [DeepMaybe TP; TUndefined]) T.
Proof. destruct T; reflexivity. Qed.

Lemma DeepVoidable_unfold :
  forall T, DeepVoidable T
            = homomorphic Keep Keep (fun TP => mk_union [DeepVoidable TP; TVoid]) T.
Proof. destruct T; reflexivity. Qed.

(** ** Keys *)

Lemma homomorphic_preserves_keys :
  forall ro opt template ps,
    preserves_keys (homomorphic ro opt template) (TObject ps).
Proof.
  intros ro opt template ps. split; simpl.
  - unfold keys_of_props. now rewrite map_map.
  - now rewrite map_map.
Qed.

(** C8.  For every object type [T], each of [DeepPartial], [DeepReadonly],
    [DeepRequired], [DeepMutable], [DeepNullable], [DeepMaybe] and
    [DeepVoidable] gives a type with exactly the property keys of [T]
    ([keyof Transform<T> = keyof T]): no key is added and none removed. *)
Theorem deep_transforms_preserve_keys :
  forall ps,
    preserves_keys DeepPartial (TObject ps)
    /\ preserves_keys DeepReadonly (TObject ps)
    /\ preserves_keys DeepRequired (TObject ps)
    /\ preserves_keys DeepMutable (TObject ps)
    /\ preserves_keys DeepNullable (TObject ps)
    /\ preserves_keys DeepMaybe (TObject ps)
    /\ preserves_keys DeepVoidable (TObject ps).
Proof.
  intros ps. unfold preserves_keys.
  rewrite DeepPartial_unfold, DeepReadonly_unfold, DeepRequired_unfold,
    DeepMutable_unfold, DeepNullable_unfold, DeepMaybe_unfold,
    DeepVoidable_unfold.
  repeat split; apply homomorphic_preserves_keys.
Qed.

(** ** DeepReadonly *)

Lemma deeply_readonly_members :
  forall T, deeply_readonly T = true ->
            Forall (fun m => deeply_readonly m = true) (members T).
Proof.
  induction T using ty_nested_ind; intros E; simpl;
    try (constructor; [exact E | constructor]); try constructor.
  simpl in E. rewrite forallb_forall in E.
  induction H as [|x l Hx _ IH]; simpl; [constructor|].
  apply Forall_app. split.
  - apply Hx, E. now left.
  - apply IH. intros y Hy. apply E. now right.
Qed.

Lemma deeply_readonly_of_members :
  forall ms, Forall (fun m => deeply_readonly m = true) ms ->
             deeply_readonly (of_members ms) = true.
Proof.
  intros ms H. rewrite Forall_forall in H. unfold of_members.
  destruct (existsb is_any ms) eqn:Ea.
  { apply existsb_exists in Ea as [x [Hx Ex]]. destruct x; try discriminate.
    now apply H in Hx. }
  destruct (existsb is_unknown ms); [reflexivity|].
  assert (Hsub : forall x, In x (dedupe (reduce_literals ms)) ->
                           deeply_readonly x = true).
  { intros x Hx. apply (proj1 (in_dedupe _ _)) in Hx.
    apply in_reduce_literals in Hx. auto. }
  destruct (dedupe (reduce_literals ms)) as [|t [|t' r]].
  - reflexivity.
  - apply Hsub. now left.
  - change (forallb deeply_readonly (t :: t' :: r) = true).
    apply forallb_forall. exact Hsub.
Qed.

Lemma deeply_readonly_mk_union :
  forall l, Forall (fun m => deeply_readonly m = true) l ->
            deeply_readonly (mk_union l) = true.
Proof.
  intros l H. unfold mk_union. apply deeply_readonly_of_members.
  apply Forall_forall. intros x Hx. apply in_flat_map in Hx as [y [Hy Hx]].
  rewrite Forall_forall in H.
  pose proof (deeply_readonly_members y (H y Hy)) as Hm.
  rewrite Forall_forall in Hm. auto.
Qed.

(** C1.  Every property of [DeepReadonly<T>] is marked [readonly] at every
    nesting depth: the properties of the result, those of the types of its
    properties, and so on, in an object type, an array and each member of a
    union.  [T] ranges over the types with a finite description, where no
    property has type [any]. *)
Theorem DeepReadonly_deeply_readonly :
  forall T, any_free T = true -> deeply_readonly (DeepReadonly T) = true.
Proof.
  induction T using ty_nested_ind; intros Hfree;
    rewrite DeepReadonly_unfold; try reflexivity; try discriminate Hfree.
  - simpl in *. rewrite forallb_forall in *. intros kp Hkp.
    apply in_map_iff in Hkp as [[k p] [<- Hin]].
    rewrite Forall_forall in H. specialize (H _ Hin (Hfree _ Hin)).
    simpl in *. unfold map_property. simpl.
    destruct (p_optional p && negb (maybe_undefined_or_void (DeepReadonly (p_type p))));
      [|exact H].
    apply deeply_readonly_mk_union. repeat constructor. exact H.
  - simpl in *. unfold map_element. simpl. auto.
  - simpl in *. apply deeply_readonly_mk_union.
    rewrite forallb_forall in Hfree. rewrite Forall_forall in *.
    intros x Hx. apply in_map_iff in Hx as [m [<- Hm]].
    rewrite <- DeepReadonly_unfold. auto.
Qed.

Example DeepReadonly_example :
  any_free (TObject [("name", prop TString);
                     ("details", prop (TObject [("age", prop TNumber)]))]) = true
  /\ deeply_readonly
       (DeepReadonly (TObject [("name", prop TString);
                               ("details", prop (TObject [("age", prop TNumber)]))]))
     = true.
Proof.
  split; [reflexivity | apply DeepReadonly_deeply_readonly; reflexivity].
Defined.

(** ** DeepNonNullable and DeepRequired *)

(** The two aliases have the same body up to the name of the alias, so
    their embeddings are the same function. *)
Lemma DeepNonNullable_is_DeepRequired :
  forall T, DeepNonNullable T = DeepRequired T.
Proof. intros T. reflexivity. Qed.

Lemma no_any_member :
  forall ms, Forall (fun m => is_atom m = true /\ is_top m = false) ms ->
             existsb is_any ms = false /\ existsb is_unknown ms = false.
Proof.
  intros ms Hms. rewrite Forall_forall in Hms. split.
  - destruct (existsb is_any ms) eqn:E; [|reflexivity].
    apply existsb_exists in E as [x [Hx Ex]]. destruct x; try discriminate.
    now destruct (Hms _ Hx).
  - destruct (existsb is_unknown ms) eqn:E; [|reflexivity].
    apply existsb_exists in E as [x [Hx Ex]]. destruct x; try discriminate.
    now destruct (Hms _ Hx).
Qed.

(** A member that literal reduction keeps stays in the union the checker
    builds, when no member is a top type. *)
Lemma in_of_members :
  forall a ms,
    Forall (fun m => is_atom m = true /\ is_top m = false) ms ->
    In a (reduce_literals ms) -> In a (members (of_members ms)).
Proof.
  intros a ms Hms Hin. unfold of_members.
  destruct (no_any_member ms Hms) as [Ea Eu]. rewrite Ea, Eu.
  rewrite Forall_forall in Hms.
  assert (Hin' : In a (dedupe (reduce_literals ms))) by now apply in_dedupe.
  assert (Hat : Forall (fun m => is_atom m = true) (dedupe (reduce_literals ms))).
  { apply Forall_forall. intros x Hx. apply (proj1 (in_dedupe _ _)) in Hx.
    apply in_reduce_literals in Hx. now destruct (Hms _ Hx). }
  destruct (dedupe (reduce_literals ms)) as [|t [|t' r]].
  - destruct Hin'.
  - destruct Hin' as [<-|[]]. rewrite members_atom; [now left|].
    now inversion Hat.
  - change (In a (flat_map members (t :: t' :: r))).
    now rewrite (flat_map_members_atoms _ Hat).
Qed.

Lemma reduce_literals_keeps_nullish :
  forall a ms, a = TNull \/ a = TUndefined -> In a ms -> In a (reduce_literals ms).
Proof.
  intros a ms Ha Hin. unfold reduce_literals. apply filter_In.
  split; [assumption | destruct Ha; subst; reflexivity].
Qed.

Lemma DeepNonNullable_keeps_nullish :
  forall T, any_free T = true -> keeps_nullish T (DeepNonNullable T).
Proof.
  induction T using ty_nested_ind; intros Hfree;
    rewrite DeepNonNullable_unfold; try discriminate Hfree;
    try (simpl; repeat split;
         solve [ repeat constructor | tauto
               | intros [E|[]]; discriminate E ]).
  simpl in Hfree. rewrite forallb_forall in Hfree. rewrite Forall_forall in H.
  assert (Hall : Forall (fun m => is_atom m = true /\ is_top m = false)
                   (flat_map members (map (homomorphic Keep Remove DeepNonNullable) ms))).
  { apply Forall_forall. intros x Hx. apply in_flat_map in Hx as [y [Hy Hx]].
    apply in_map_iff in Hy as [m [<- Hm]]. rewrite <- DeepNonNullable_unfold in Hx.
    destruct (H m Hm (Hfree m Hm)) as [Hf _]. rewrite Forall_forall in Hf. auto. }
  assert (Hkeep : forall a, a = TNull \/ a = TUndefined ->
                    In a (members (TUnion ms)) ->
                    In a (members (homomorphic Keep Remove DeepNonNullable (TUnion ms)))).
  { intros a Ha Hin. simpl in Hin. apply in_flat_map in Hin as [m [Hm Hin]].
    simpl. unfold mk_union. apply in_of_members; [exact Hall |].
    apply reduce_literals_keeps_nullish; [exact Ha|].
    apply in_flat_map. exists (homomorphic Keep Remove DeepNonNullable m).
    split; [now apply in_map|]. rewrite <- DeepNonNullable_unfold.
    destruct (H m Hm (Hfree m Hm)) as [_ [Hn Hu]].
    destruct Ha; subst; auto. }
  repeat split.
  - apply Forall_forall. intros x Hx. simpl in Hx. apply members_mk_union in Hx.
    rewrite Forall_forall in Hall. auto.
  - apply Hkeep. now left.
  - apply Hkeep. now right.
Qed.

Lemma remove_undefined_keeps_null :
  forall X, Forall (fun m => is_atom m = true /\ is_top m = false) (members X) ->
            In TNull (members X) -> In TNull (members (remove_undefined X)).
Proof.
  intros X Hall Hin. unfold remove_undefined. apply in_of_members.
  - rewrite Forall_forall in *. intros x Hx. apply filter_In in Hx as [Hx _]. auto.
  - apply reduce_literals_keeps_nullish; [now left|].
    apply filter_In. split; [assumption | reflexivity].
Qed.

(** [getTypeWithFacts(t, NEUndefined)] leaves neither [undefined] nor
    [void]. *)
Lemma remove_undefined_clears :
  forall X, maybe_undefined_or_void (remove_undefined X) = false.
Proof.
  intros X. unfold maybe_undefined_or_void, remove_undefined.
  destruct (existsb _ (members (of_members _))) eqn:E; [|reflexivity].
  apply existsb_exists in E as [x [Hx Ex]].
  apply members_of_members in Hx.
  - apply filter_In in Hx as [_ Hx]. rewrite Ex in Hx. discriminate.
  - apply Forall_forall. intros y Hy. apply filter_In in Hy as [Hy _].
    pose proof (members_are_atoms X) as Hat. rewrite Forall_forall in Hat. auto.
Qed.

(** C5, as the code has it.  [DeepNonNullable<T>] is [DeepRequired<T>] for
    every [T]: both are [{ [P in keyof T]-?: Rec<T[P]> }].  It removes
    [null] nowhere: a type that has the member [null] (or [undefined])
    still has it after [DeepNonNullable].  On an object type it keeps the
    keys and the [readonly] modifier of every property and makes the
    property required; the type of the property is [DeepNonNullable] of its
    type, less [undefined] and [void] when the property was optional (also
    when the declaration writes the [undefined]) and unchanged at that level
    when it was not.  An array becomes the array of [DeepNonNullable] of its
    element type less [undefined] and [void]: [-?] reaches the elements of
    arrays as it reaches optional properties. *)
Theorem DeepNonNullable_only_removes_optional :
  (forall T, DeepNonNullable T = DeepRequired T)
  /\ (forall T, any_free T = true ->
        (In TNull (members T) -> In TNull (members (DeepNonNullable T)))
        /\ (In TUndefined (members T) ->
            In TUndefined (members (DeepNonNullable T))))
  /\ (forall ps,
        map fst (props_of (DeepNonNullable (TObject ps))) = map fst ps)
  /\ (forall ps k p,
        any_free (TObject ps) = true ->
        lookup k ps = Some p ->
        exists p',
          lookup k (props_of (DeepNonNullable (TObject ps))) = Some p'
          /\ p_optional p' = false
          /\ p_readonly p' = p_readonly p
          /\ p_type p' = (if p_optional p
                          then remove_undefined (DeepNonNullable (p_type p))
                          else DeepNonNullable (p_type p))
          /\ (In TNull (members (p_type p)) -> In TNull (members (p_type p')))
          /\ (p_optional p = false -> In TUndefined (members (p_type p)) ->
              In TUndefined (members (p_type p')))
          /\ (p_optional p = true ->
              maybe_undefined_or_void (p_type p') = false))
  /\ (forall ro e,
        any_free e = true ->
        DeepNonNullable (TArray ro e)
        = TArray ro (remove_undefined (DeepNonNullable e))
        /\ maybe_undefined_or_void (remove_undefined (DeepNonNullable e)) = false
        /\ (In TNull (members e) ->
            In TNull (members (remove_undefined (DeepNonNullable e))))).
Proof.
  split; [exact DeepNonNullable_is_DeepRequired|].
  split.
  { intros T Hfree. destruct (DeepNonNullable_keeps_nullish T Hfree) as [_ H].
    exact H. }
  split.
  { intros ps. rewrite DeepNonNullable_unfold. simpl props_of.
    now rewrite map_map. }
  split.
  - intros ps k p Hfree Hk. rewrite DeepNonNullable_unfold. simpl props_of.
    rewrite lookup_map_property, Hk. simpl option_map.
    exists (map_property Keep Remove DeepNonNullable p).
    split; [reflexivity|]. split; [reflexivity|]. split; [reflexivity|].
    simpl in Hfree. rewrite forallb_forall in Hfree.
    pose proof (Hfree _ (lookup_In _ _ _ Hk)) as Hp. simpl in Hp.
    destruct (DeepNonNullable_keeps_nullish _ Hp) as [Hall [Hn Hu]].
    unfold map_property. simpl.
    destruct (p_optional p); simpl.
    + split; [reflexivity|]. split.
      * intros Hin. apply remove_undefined_keeps_null; auto.
      * split; [discriminate|]. intros _. apply remove_undefined_clears.
    + split; [reflexivity|]. split; [exact Hn|]. split; [auto | discriminate].
  - intros ro e Hfree. split; [now rewrite DeepNonNullable_unfold|].
    split; [apply remove_undefined_clears|].
    destruct (DeepNonNullable_keeps_nullish _ Hfree) as [Hall [Hn _]].
    intros Hin. apply remove_undefined_keeps_null; auto.
Qed.

(** [-?] on an optional property removes [undefined] from its type, also
    when the declaration writes it: [{ a?: string | undefined }] becomes
    [{ a: string }]; and it removes [undefined] from the element type of an
    array: [{ xs: (string | undefined)[] }] becomes [{ xs: string[] }]. *)
Lemma DeepNonNullable_strips_undefined :
  DeepNonNullable (TObject [("a", mkProp false true (TUnion [TString; TUndefined]))])
  = TObject [("a", prop TString)]
  /\ DeepNonNullable
       (TObject [("xs", prop (TArray false (TUnion [TString; TUndefined])))])
     = TObject [("xs", prop (TArray false TString))]
  /\ In TUndefined
        (members (index_name
                    (TObject [("a", mkProp false true (TUnion [TString; TUndefined]))])
                    "a"))
  /\ ~ In TUndefined
        (members (index_name
                    (DeepNonNullable
                       (TObject [("a", mkProp false true
                                         (TUnion [TString; TUndefined]))]))
                    "a")).
Proof.
  split; [reflexivity | split; [reflexivity | split; [simpl; tauto|]]].
  simpl. intros [E|[]]. discriminate E.
Qed.

(** The example of the documentation of [DeepNonNullable],
    [{ name: string | null, age: number | null }]: the result still has
    [null] in the type of [name]. *)
Example DeepNonNullable_keeps_null_example :
  exists p',
    lookup "name"
      (props_of (DeepNonNullable
         (TObject [("name", prop (TUnion [TString; TNull]));
                   ("age", prop (TUnion [TNumber; TNull]))]))) = Some p'
    /\ p_optional p' = false
    /\ p_readonly p' = false
    /\ p_type p' = TUnion [TString; TNull]
    /\ (In TNull [TString; TNull] -> In TNull (members (p_type p')))
    /\ (false = false -> In TUndefined [TString; TNull] ->
        In TUndefined (members (p_type p')))
    /\ (false = true -> maybe_undefined_or_void (p_type p') = false).
Proof.
  exact (proj1 (proj2 (proj2 (proj2 DeepNonNullable_only_removes_optional)))
           [("name", prop (TUnion [TString; TNull]));
            ("age", prop (TUnion [TNumber; TNull]))]
           "name" (prop (TUnion [TString; TNull])) eq_refl eq_refl).
Defined.

(** ** Union building is idempotent *)

Lemma dedupe_filter :
  forall p l, dedupe (filter p l) = filter p (dedupe l).
Proof.
  intros p l. induction l as [|x r IH]; simpl; [reflexivity|].
  destruct (p x) eqn:Ep; simpl.
  - rewrite ?Ep, IH, filter_comm. reflexivity.
  - rewrite ?Ep, IH. symmetry. apply filter_absorb.
    intros y _ Hy. destruct (ty_eqb x y) eqn:E; [|reflexivity].
    apply ty_eqb_sound in E. subst. congruence.
Qed.

Lemma dedupe_idem : forall l, dedupe (dedupe l) = dedupe l.
Proof.
  induction l as [|x r IH]; simpl; [reflexivity|].
  rewrite dedupe_filter, IH. f_equal. apply filter_absorb. auto.
Qed.

Lemma reduce_literals_idem :
  forall l, reduce_literals (dedupe (reduce_literals l)) = dedupe (reduce_literals l).
Proof.
  intros l. unfold reduce_literals at 1. apply filter_all. intros y Hy.
  apply (proj1 (in_dedupe _ _)) in Hy. unfold reduce_literals in Hy.
  apply filter_In in Hy as [Hy Hkeep].
  assert (Hsub : forall f, existsb f (dedupe (reduce_literals l)) = true ->
                           existsb f l = true).
  { intros f E. apply existsb_exists in E as [x [Hx Ex]].
    apply (proj1 (in_dedupe _ _)) in Hx. apply in_reduce_literals in Hx.
    apply existsb_exists. eauto. }
  destruct y; try reflexivity.
  - destruct (existsb is_string (dedupe (reduce_literals l))) eqn:E; [|reflexivity].
    apply Hsub in E. now rewrite E in Hkeep.
  - destruct (existsb is_number (dedupe (reduce_literals l))) eqn:E; [|reflexivity].
    apply Hsub in E. now rewrite E in Hkeep.
Qed.

Lemma of_members_idem :
  forall ms, Forall (fun m => is_atom m = true) ms ->
             of_members (members (of_members ms)) = of_members ms.
Proof.
  intros ms Hat. unfold of_members at 2 3.
  destruct (existsb is_any ms) eqn:Ea; [reflexivity|].
  destruct (existsb is_unknown ms) eqn:Eu; [reflexivity|].
  assert (Hsub : forall x, In x (dedupe (reduce_literals ms)) -> In x ms).
  { intros x Hx. apply (proj1 (in_dedupe _ _)) in Hx.
    now apply in_reduce_literals in Hx. }
  assert (Hat' : Forall (fun x => is_atom x = true) (dedupe (reduce_literals ms))).
  { apply Forall_forall. intros x Hx. rewrite Forall_forall in Hat. auto. }
  pose proof (reduce_literals_idem ms) as Hred.
  pose proof (dedupe_idem (reduce_literals ms)) as Hdd.
  destruct (dedupe (reduce_literals ms)) as [|t [|t' r]] eqn:ED.
  - reflexivity.
  - inversion Hat' as [|? ? Ht _]; subst.
    rewrite (members_atom t Ht). now apply of_members_single.
  - change (members (TUnion (t :: t' :: r))) with (flat_map members (t :: t' :: r)).
    rewrite (flat_map_members_atoms _ Hat'). unfold of_members.
    assert (Ea' : existsb is_any (t :: t' :: r) = false).
    { destruct (existsb is_any (t :: t' :: r)) eqn:E; [|reflexivity].
      apply existsb_exists in E as [x [Hx Ex]].
      assert (existsb is_any ms = true) by (apply existsb_exists; eauto).
      congruence. }
    assert (Eu' : existsb is_unknown (t :: t' :: r) = false).
    { destruct (existsb is_unknown (t :: t' :: r)) eqn:E; [|reflexivity].
      apply existsb_exists in E as [x [Hx Ex]].
      assert (existsb is_unknown ms = true) by (apply existsb_exists; eauto).
      congruence. }
    rewrite Ea', Eu', Hred, Hdd. reflexivity.
Qed.

Lemma mk_union_idem : forall l, mk_union [mk_union l] = mk_union l.
Proof.
  intros l. unfold mk_union at 1. simpl flat_map. rewrite app_nil_r.
  unfold mk_union. apply of_members_idem.
  apply Forall_forall. intros x Hx. apply in_flat_map in Hx as [y [_ Hy]].
  pose proof (members_are_atoms y) as Hat. rewrite Forall_forall in Hat. auto.
Qed.

(** * DeepMerge *)

Lemma strlits_are_plain :
  forall ms, Forall (fun m => is_strlit m = true) ms ->
             Forall (fun m => is_atom m = true /\ is_top m = false) ms.
Proof.
  intros ms H. eapply Forall_impl; [|exact H].
  intros m Hm. destruct m; try discriminate Hm. split; reflexivity.
Qed.

Lemma reduce_literals_strlits :
  forall ms, Forall (fun m => is_strlit m = true) ms -> reduce_literals ms = ms.
Proof.
  intros ms H. unfold reduce_literals. apply filter_all. intros y Hy.
  assert (E : existsb is_string ms = false).
  { destruct (existsb is_string ms) eqn:E; [|reflexivity].
    apply existsb_exists in E as [x [Hx Ex]]. rewrite Forall_forall in H.
    apply H in Hx. destruct x; discriminate. }
  rewrite Forall_forall in H. apply H in Hy.
  destruct y; try discriminate Hy. now rewrite E.
Qed.

Lemma keys_of_props_members :
  forall ps, Forall (fun m => is_strlit m = true) (members (keys_of_props ps)).
Proof.
  intros ps. apply Forall_forall. intros m Hm. unfold keys_of_props in Hm.
  apply members_mk_union in Hm. apply in_flat_map in Hm as [y [Hy Hm]].
  apply in_map_iff in Hy as [kp [<- _]]. simpl in Hm. destruct Hm as [<-|[]].
  reflexivity.
Qed.

Lemma in_keys_of_props :
  forall k ps, In k (map fst ps) -> In (TStrLit k) (members (keys_of_props ps)).
Proof.
  intros k ps Hin. unfold keys_of_props, mk_union.
  assert (Hflat : flat_map members (map (fun kp => TStrLit (fst kp)) ps)
                  = map (fun kp : string * property ty => TStrLit (fst kp)) ps).
  { apply flat_map_members_atoms, Forall_forall. intros x Hx.
    apply in_map_iff in Hx as [kp [<- _]]. reflexivity. }
  rewrite Hflat.
  assert (Hlit : Forall (fun m => is_strlit m = true)
                   (map (fun kp : string * property ty => TStrLit (fst kp)) ps)).
  { apply Forall_forall. intros x Hx. apply in_map_iff in Hx as [kp [<- _]].
    reflexivity. }
  apply in_of_members; [now apply strlits_are_plain|].
  rewrite (reduce_literals_strlits _ Hlit).
  apply in_map_iff in Hin as [kp [<- Hkp]]. apply in_map_iff. eauto.
Qed.

(** The shapes of a union the checker builds. *)
Lemma of_members_shape :
  forall ms, Forall (fun m => is_atom m = true) ms ->
    of_members ms = TNever
    \/ is_atom (of_members ms) = true
    \/ exists D, of_members ms = TUnion D /\ Forall (fun m => is_atom m = true) D.
Proof.
  intros ms Hat. unfold of_members.
  destruct (existsb is_any ms); [right; left; reflexivity|].
  destruct (existsb is_unknown ms); [right; left; reflexivity|].
  assert (Hat' : Forall (fun x => is_atom x = true) (dedupe (reduce_literals ms))).
  { apply Forall_forall. intros x Hx. rewrite Forall_forall in Hat.
    apply (proj1 (in_dedupe _ _)) in Hx. apply in_reduce_literals in Hx. auto. }
  destruct (dedupe (reduce_literals ms)) as [|t [|t' r]].
  - now left.
  - right; left. now inversion Hat'.
  - right; right. eauto.
Qed.

(** [K extends keyof U] holds for a key of the object type [U]. *)
Lemma key_extends_keyof :
  forall k qs, In k (map fst qs) ->
               assignable (TStrLit k) (keyof (TObject qs)) = true
               /\ is_top (keyof (TObject qs)) = false.
Proof.
  intros k qs Hin. simpl keyof.
  pose proof (in_keys_of_props k qs Hin) as Hmem.
  pose proof (keys_of_props_members qs) as Hlit.
  assert (Hshape : keys_of_props qs = TNever
                   \/ is_atom (keys_of_props qs) = true
                   \/ exists D, keys_of_props qs = TUnion D
                                /\ Forall (fun m => is_atom m = true) D).
  { unfold keys_of_props, mk_union. apply of_members_shape.
    apply Forall_forall. intros x Hx. apply in_flat_map in Hx as [y [_ Hy]].
    pose proof (members_are_atoms y) as Ha. rewrite Forall_forall in Ha. auto. }
  destruct Hshape as [E | [Ha | [D [E HD]]]].
  - rewrite E in Hmem. destruct Hmem.
  - rewrite (members_atom _ Ha) in Hmem. destruct Hmem as [E|[]].
    rewrite E. split; [|reflexivity].
    unfold assignable. simpl. apply String.eqb_refl.
  - rewrite E in *. simpl in Hmem. rewrite (flat_map_members_atoms _ HD) in Hmem.
    split; [|reflexivity]. unfold assignable.
    change (ty_size (TStrLit k) + ty_size (TUnion D))
      with (S (S (list_sum (map ty_size D)))).
    cbn [assignable_fuel assignable_step is_top is_any is_unknown orb].
    apply existsb_exists. exists (TStrLit k). split; [assumption|].
    simpl. apply String.eqb_refl.
Qed.

Lemma in_merged_keys :
  forall k ps qs,
    In k (map fst qs) ->
    In k (key_names (mk_union [keyof (TObject ps); keyof (TObject qs)])).
Proof.
  intros k ps qs Hin. unfold key_names. apply in_flat_map.
  exists (TStrLit k). split; [|now left].
  unfold mk_union. simpl flat_map. rewrite app_nil_r.
  assert (Hlit : Forall (fun m => is_strlit m = true)
                   (members (keys_of_props ps) ++ members (keys_of_props qs))).
  { apply Forall_app. split; apply keys_of_props_members. }
  apply in_of_members; [now apply strlits_are_plain|].
  rewrite (reduce_literals_strlits _ Hlit). apply in_or_app. right.
  now apply in_keys_of_props.
Qed.

Lemma index_literal :
  forall T k, index T (TStrLit k) = mk_union [index_name T k].
Proof. reflexivity. Qed.

Lemma cond_true :
  forall check ext tt ff,
    is_top ext = false -> is_any check = false -> assignable check ext = true ->
    cond check ext tt ff = tt.
Proof.
  intros check ext tt ff Ht Ha He. unfold cond, conditional.
  now rewrite Ht, Ha, He.
Qed.

(** For a key that the object type [U] does not have, [U[K]] is [unknown]
    and [U[K] extends object] fails: the branch with the recursive
    [DeepMerge] is not taken, whatever it would give. *)
Lemma DeepMerge_recursive_branch_dead :
  forall qs k (R X : ty),
    lookup k qs = None ->
    cond (index (TObject qs) (TStrLit k)) TObjectKw R X = X.
Proof.
  intros qs k R X Hk. rewrite index_literal. cbn [index_name]. rewrite Hk.
  reflexivity.
Qed.

(** So the depth allowed to [DeepMerge_at] does not matter once it is
    positive. *)
Lemma DeepMerge_depth_irrelevant :
  forall d T qs,
    DeepMerge_at (S d) T (TObject qs) = DeepMerge_at 1 T (TObject qs).
Proof.
  intros d T qs. cbn [DeepMerge_at]. unfold mapped. f_equal.
  apply map_ext. intros k. f_equal. f_equal.
  destruct (lookup k qs) as [q|] eqn:Hk.
  - apply lookup_In in Hk.
    assert (Hin : In k (map fst qs)) by (apply in_map_iff; exists (k, q); auto).
    destruct (key_extends_keyof k qs Hin) as [Hext Htop].
    rewrite !(cond_true (TStrLit k) (keyof (TObject qs)) _ _ Htop eq_refl Hext).
    reflexivity.
  - now rewrite !(DeepMerge_recursive_branch_dead qs k _ _ Hk).
Qed.

(** C3.  [DeepMerge<T, U>[K]] is [U[K]] for every key [K] of the object
    type [U], so for every key that is in both [keyof T] and [keyof U]: the
    first test [K extends keyof U] takes the property from [U] as a whole,
    and the branch with the recursive [DeepMerge] is left to the keys that
    [U] does not have.  Whatever [T[K]] declares and [U[K]] does not is
    absent from the result. *)
Theorem DeepMerge_takes_property_of_U :
  forall ps qs k,
    In k (map fst qs) ->
    index (DeepMerge (TObject ps) (TObject qs)) (TStrLit k)
    = index (TObject qs) (TStrLit k).
Proof.
  intros ps qs k Hin. unfold DeepMerge.
  change (ty_size (TObject ps))
    with (S (list_sum (map (fun kp => ty_size (p_type (snd kp))) ps))).
  cbn [DeepMerge_at]. unfold mapped. rewrite index_literal.
  cbn [index_name].
  rewrite (lookup_mapped
             (fun k0 => prop (cond (TStrLit k0) (keyof (TObject qs))
                                   (index (TObject qs) (TStrLit k0)) _))
             k _ (in_merged_keys k ps qs Hin)).
  cbn [prop p_type].
  destruct (key_extends_keyof k qs Hin) as [Hext Htop].
  unfold cond at 1. unfold conditional. rewrite Htop, Hext.
  cbn [is_any]. rewrite index_literal. apply mk_union_idem.
Qed.

(** The example of the documentation of [DeepMerge]:
    [a = { name: string, details: { age: number } }] and
    [b = { details: { gender: string } }]. *)
Example DeepMerge_example :
  In "details" (map fst [("details", prop (TObject [("gender", prop TString)]))])
  /\ index (DeepMerge
              (TObject [("name", prop TString);
                        ("details", prop (TObject [("age", prop TNumber)]))])
              (TObject [("details", prop (TObject [("gender", prop TString)]))]))
           (TStrLit "details")
     = index (TObject [("details", prop (TObject [("gender", prop TString)]))])
             (TStrLit "details").
Proof.
  split; [simpl; auto | apply DeepMerge_takes_property_of_U; simpl; auto].
Defined.

(** There [details] of the result is [{ gender: string }], without [age]. *)
Lemma DeepMerge_example_result :
  DeepMerge
    (TObject [("name", prop TString);
              ("details", prop (TObject [("age", prop TNumber)]))])
    (TObject [("details", prop (TObject [("gender", prop TString)]))])
  = TObject [("name", prop TString);
             ("details", prop (TObject [("gender", prop TString)]))].
Proof. reflexivity. Qed.

(** * NumbersRange *)

Lemma assignable_numlit :
  forall a b, assignable (TNumLit a) (TNumLit b) = Z.eqb a b.
Proof. reflexivity. Qed.

Lemma NumbersFrom0ToNRec_unfold :
  forall fuel n Counter Acc,
    _NumbersFrom0ToNRec (S fuel) (TNumLit n) Counter Acc
    = if Z.eqb (Z.of_nat (List.length Counter)) n then Some Acc
      else _NumbersFrom0ToNRec fuel (TNumLit n) (TUnknown :: Counter)
             (mk_union [Acc; tuple_length Counter]).
Proof. reflexivity. Qed.

(** The recursion reaches its base case when the counter reaches [Nr]. *)
Lemma NumbersFrom0ToNRec_terminates :
  forall d n Counter Acc,
    (Z.of_nat (List.length Counter) + Z.of_nat d = n)%Z ->
    forall fuel, d < fuel ->
    exists r, _NumbersFrom0ToNRec fuel (TNumLit n) Counter Acc = Some r.
Proof.
  induction d as [|d IH]; intros n Counter Acc Hn fuel Hfuel;
    (destruct fuel as [|fuel]; [lia|]); rewrite NumbersFrom0ToNRec_unfold.
  - replace (Z.of_nat (List.length Counter) =? n)%Z with true
      by (symmetry; apply Z.eqb_eq; lia).
    eauto.
  - replace (Z.of_nat (List.length Counter) =? n)%Z with false
      by (symmetry; apply Z.eqb_neq; lia).
    apply IH; [|lia]. simpl List.length. lia.
Qed.

(** The counter is a length: it never meets a negative [Nr]. *)
Lemma NumbersFrom0ToNRec_diverges :
  forall fuel n Counter Acc,
    (n < 0)%Z -> _NumbersFrom0ToNRec fuel (TNumLit n) Counter Acc = None.
Proof.
  induction fuel as [|fuel IH]; intros n Counter Acc Hn; [reflexivity|].
  rewrite NumbersFrom0ToNRec_unfold.
  replace (Z.of_nat (List.length Counter) =? n)%Z with false
    by (symmetry; apply Z.eqb_neq; lia).
  now apply IH.
Qed.

Lemma NumbersFrom0ToN_distributes :
  forall fuel From,
    _NumbersFrom0ToN fuel From
    = distribute_opt From (_NumbersFrom0ToN_member fuel).
Proof. reflexivity. Qed.

Lemma NumbersFrom0ToN_member_literal :
  forall fuel n,
    _NumbersFrom0ToN_member fuel (TNumLit n)
    = if Z.eqb n 0 then Some TNever
      else _NumbersFrom0ToNRec fuel (TNumLit n) [] (TNumLit 0).
Proof.
  intros fuel n. unfold _NumbersFrom0ToN_member, cond_opt, conditional.
  cbn [is_top is_any is_unknown orb]. rewrite !assignable_numlit, Z.eqb_refl.
  reflexivity.
Qed.

Lemma NumbersFrom0ToN_member_converges :
  forall m, numeric_atom m = true ->
            match m with TNumLit n => (0 <=? n)%Z | _ => true end = true ->
            converges (fun fuel => _NumbersFrom0ToN_member fuel m).
Proof.
  intros m Hnum Hnat. destruct m; try discriminate Hnum.
  - exists 0. intros fuel _. exists TNumber. reflexivity.
  - exists 0. intros fuel _. exists TNumber. reflexivity.
  - apply Z.leb_le in Hnat. exists (S (Z.to_nat n)). intros fuel Hfuel.
    rewrite NumbersFrom0ToN_member_literal.
    destruct (Z.eqb n 0); [eauto|].
    apply (NumbersFrom0ToNRec_terminates (Z.to_nat n)); [simpl; lia | lia].
Qed.

Lemma NumbersFrom0ToN_member_negative :
  forall fuel n, (n < 0)%Z -> _NumbersFrom0ToN_member fuel (TNumLit n) = None.
Proof.
  intros fuel n Hn. rewrite NumbersFrom0ToN_member_literal.
  replace (Z.eqb n 0) with false by (symmetry; apply Z.eqb_neq; lia).
  now apply NumbersFrom0ToNRec_diverges.
Qed.

Lemma sequence_Some :
  forall l rs, sequence l = Some rs ->
               forall o, In o l -> exists r, o = Some r.
Proof.
  induction l as [|[x|] l IH]; simpl; intros rs E o Hin;
    [destruct Hin | | discriminate].
  destruct (sequence l) as [xs|] eqn:Es; [|discriminate].
  destruct Hin as [<-|Hin]; eauto.
Qed.

Lemma sequence_converges :
  forall (g : nat -> ty -> option ty) l,
    Forall (fun m => converges (fun fuel => g fuel m)) l ->
    exists fuel0, forall fuel, fuel0 <= fuel ->
      exists rs, sequence (map (g fuel) l) = Some rs.
Proof.
  intros g l H. induction H as [|m l [f1 Hm] _ [f2 IH]].
  - exists 0. intros fuel _. exists []. reflexivity.
  - exists (Nat.max f1 f2). intros fuel Hfuel. simpl.
    destruct (Hm fuel) as [r Er]; [lia|]. destruct (IH fuel) as [rs Ers]; [lia|].
    rewrite Er, Ers. eauto.
Qed.

(** ** The constraint [extends number] *)

Lemma assignable_fuel_number :
  forall n T, ty_size T <= n ->
              assignable_fuel n T TNumber = forallb numeric_atom (members T).
Proof.
  induction n as [|n IH]; intros T Hsize.
  { pose proof (ty_size_pos T). lia. }
  destruct T; try reflexivity.
  cbn [assignable_fuel assignable_step is_top is_any is_unknown orb members].
  rewrite forallb_flat_map. apply forallb_same.
  intros m Hm. apply IH. simpl in Hsize.
  assert (ty_size m <= list_sum (map ty_size ms)); [|lia].
  clear -Hm. induction ms as [|x r IHr]; [destruct Hm|].
  simpl. destruct Hm as [<-|Hm]; [lia|]. specialize (IHr Hm). lia.
Qed.

Lemma extends_number_members :
  forall T, extends_number T = forallb numeric_atom (members T).
Proof.
  intros T. unfold extends_number, assignable. apply assignable_fuel_number.
  lia.
Qed.

Lemma NumbersFrom0ToN_converges :
  forall T, extends_number T = true -> has_negative_literal T = false ->
            converges (fun fuel => _NumbersFrom0ToN fuel T).
Proof.
  intros T Hnum Hneg. rewrite extends_number_members in Hnum.
  rewrite forallb_forall in Hnum. unfold has_negative_literal in Hneg.
  destruct (sequence_converges _NumbersFrom0ToN_member (members T)) as [f0 H].
  - apply Forall_forall. intros m Hm.
    apply NumbersFrom0ToN_member_converges; [auto|].
    destruct m; try reflexivity. apply Z.leb_le.
    destruct (Z.ltb n 0) eqn:E; [|apply Z.ltb_ge in E; lia].
    assert (existsb (fun m => match m with TNumLit n => (n <? 0)%Z | _ => false end)
                    (members T) = true)
      by (apply existsb_exists; exists (TNumLit n); auto).
    congruence.
  - exists f0. intros fuel Hfuel. destruct (H fuel Hfuel) as [rs Ers].
    rewrite NumbersFrom0ToN_distributes. unfold distribute_opt. rewrite Ers.
    simpl. eauto.
Qed.

Lemma NumbersFrom0ToN_needs_no_negative :
  forall fuel T r, _NumbersFrom0ToN fuel T = Some r ->
                   has_negative_literal T = false.
Proof.
  intros fuel T r E. rewrite NumbersFrom0ToN_distributes in E.
  unfold distribute_opt in E.
  destruct (sequence (map (_NumbersFrom0ToN_member fuel) (members T)))
    as [rs|] eqn:Es; [|discriminate].
  unfold has_negative_literal.
  destruct (existsb _ (members T)) eqn:Ex; [|reflexivity].
  apply existsb_exists in Ex as [m [Hm Hneg]].
  destruct m; try discriminate Hneg. apply Z.ltb_lt in Hneg.
  destruct (sequence_Some _ _ Es (_NumbersFrom0ToN_member fuel (TNumLit n)))
    as [x Hx]; [now apply in_map|].
  rewrite (NumbersFrom0ToN_member_negative fuel n Hneg) in Hx. discriminate.
Qed.

(** C2, as the code has it.  The recursion of [_NumbersFrom0ToNRec] counts
    up from the empty tuple, so it terminates for the literal type of every
    non-negative integer [Nr], within [Nr + 1] instantiations, and for no
    negative one; and for
    [From] and [To] that satisfy [extends number] (unions of [number],
    [any] and integer literal types), [NumbersRange<From, To>] evaluates to
    a type exactly when no member of [From] or [To] is the literal type of a
    negative integer. *)
Theorem NumbersRange_total_without_negative_literals :
  (forall n,
     (0 <= n)%Z ->
     exists r, _NumbersFrom0ToNRec (S (Z.to_nat n)) (TNumLit n) [] (TNumLit 0)
               = Some r)
  /\ (forall n,
        (exists fuel r,
           _NumbersFrom0ToNRec fuel (TNumLit n) [] (TNumLit 0) = Some r)
        <-> (0 <= n)%Z)
  /\ (forall From To,
        extends_number From = true -> extends_number To = true ->
        ((exists fuel r, NumbersRange fuel From To = Some r)
         <-> has_negative_literal From = false
             /\ has_negative_literal To = false)).
Proof.
  assert (Hterm : forall n, (0 <= n)%Z ->
            exists r, _NumbersFrom0ToNRec (S (Z.to_nat n)) (TNumLit n) []
                        (TNumLit 0) = Some r).
  { intros n Hn.
    apply (NumbersFrom0ToNRec_terminates (Z.to_nat n)); [simpl; lia | lia]. }
  split; [exact Hterm | split].
  - intros n. split.
    + intros [fuel [r E]]. destruct (Z.lt_ge_cases n 0) as [Hneg|Hge]; [|exact Hge].
      rewrite (NumbersFrom0ToNRec_diverges fuel n [] (TNumLit 0) Hneg) in E.
      discriminate E.
    + intros Hn. exists (S (Z.to_nat n)). exact (Hterm n Hn).
  - intros From To HF HT. split.
    + intros [fuel [r E]]. unfold NumbersRange in E.
      destruct (_NumbersFrom0ToN fuel To) as [to|] eqn:ETo; [|discriminate].
      destruct (_NumbersFrom0ToN fuel From) as [from|] eqn:EFrom; [|discriminate].
      split; eapply NumbersFrom0ToN_needs_no_negative; eassumption.
    + intros [HnF HnT].
      destruct (NumbersFrom0ToN_converges From HF HnF) as [f1 H1].
      destruct (NumbersFrom0ToN_converges To HT HnT) as [f2 H2].
      exists (Nat.max f1 f2).
      destruct (H1 (Nat.max f1 f2)) as [from Efrom]; [lia|].
      destruct (H2 (Nat.max f1 f2)) as [to Eto]; [lia|].
      unfold NumbersRange. rewrite Eto, Efrom. eauto.
Qed.

(** The example of the documentation, [NumbersRange<1, 5>]. *)
Example NumbersRange_example :
  extends_number (TNumLit 1) = true
  /\ extends_number (TNumLit 5) = true
  /\ ((exists fuel r, NumbersRange fuel (TNumLit 1) (TNumLit 5) = Some r)
      <-> has_negative_literal (TNumLit 1) = false
          /\ has_negative_literal (TNumLit 5) = false).
Proof.
  split; [reflexivity | split; [reflexivity|]].
  exact (proj2 (proj2 NumbersRange_total_without_negative_literals)
           (TNumLit 1) (TNumLit 5) eq_refl eq_refl).
Defined.

Lemma NumbersRange_example_result :
  NumbersRange 6 (TNumLit 1) (TNumLit 5)
  = Some (TUnion [TNumLit 1; TNumLit 2; TNumLit 3; TNumLit 4]).
Proof. reflexivity. Qed.

(** [-1] satisfies [extends number], and the recursion for it finishes
    within no number of instantiations: [NumbersRange<0, -1>] has no
    result. *)
Lemma NumbersRange_negative_diverges :
  extends_number (TNumLit (-1)) = true
  /\ (forall fuel, _NumbersFrom0ToNRec fuel (TNumLit (-1)) [] (TNumLit 0) = None)
  /\ ~ (exists fuel r, NumbersRange fuel (TNumLit 0) (TNumLit (-1)) = Some r).
Proof.
  split; [reflexivity | split].
  - intros fuel. apply NumbersFrom0ToNRec_diverges. lia.
  - intros [fuel [r E]]. unfold NumbersRange in E.
    destruct (_NumbersFrom0ToN fuel (TNumLit (-1))) as [to|] eqn:ETo;
      [|discriminate].
    apply NumbersFrom0ToN_needs_no_negative in ETo. discriminate ETo.
Qed.

(** ** The result does not depend on the number of instantiations *)

Lemma NumbersFrom0ToNRec_fuel_irrelevant :
  forall f1 f2 Nr Counter Acc r1 r2,
    _NumbersFrom0ToNRec f1 Nr Counter Acc = Some r1 ->
    _NumbersFrom0ToNRec f2 Nr Counter Acc = Some r2 ->
    r1 = r2.
Proof.
  induction f1 as [|f1 IH]; intros f2 Nr Counter Acc r1 r2 E1 E2;
    [discriminate E1|].
  destruct f2 as [|f2]; [discriminate E2|].
  cbn [_NumbersFrom0ToNRec] in E1, E2. unfold cond_opt, conditional in E1, E2.
  destruct (is_top Nr); [congruence|].
  change (is_any (tuple_length Counter)) with false in E1, E2. cbv iota in E1, E2.
  destruct (assignable (tuple_length Counter) Nr); [congruence|].
  eapply IH; eassumption.
Qed.

Lemma NumbersFrom0ToN_member_fuel_irrelevant :
  forall f1 f2 m r1 r2,
    _NumbersFrom0ToN_member f1 m = Some r1 ->
    _NumbersFrom0ToN_member f2 m = Some r2 ->
    r1 = r2.
Proof.
  intros f1 f2 m r1 r2. unfold _NumbersFrom0ToN_member, cond_opt, conditional.
  change (is_top (TNumLit 0)) with false. change (is_any TNumber) with false.
  destruct (is_top m) eqn:Et; cbv iota; [congruence|].
  assert (Ea : is_any m = false) by (destruct m; try reflexivity; discriminate Et).
  rewrite Ea.
  destruct (assignable m m); [|congruence].
  destruct (assignable TNumber m); [congruence|].
  destruct (assignable m (TNumLit 0)); [congruence|].
  apply NumbersFrom0ToNRec_fuel_irrelevant.
Qed.

Lemma sequence_same :
  forall (g1 g2 : ty -> option ty) l rs1 rs2,
    (forall m r1 r2, In m l -> g1 m = Some r1 -> g2 m = Some r2 -> r1 = r2) ->
    sequence (map g1 l) = Some rs1 -> sequence (map g2 l) = Some rs2 ->
    rs1 = rs2.
Proof.
  intros g1 g2 l. induction l as [|m l IH]; simpl; intros rs1 rs2 H E1 E2.
  - congruence.
  - destruct (g1 m) as [x1|] eqn:G1; [|discriminate].
    destruct (g2 m) as [x2|] eqn:G2; [|discriminate].
    destruct (sequence (map g1 l)) as [xs1|] eqn:S1; [|discriminate].
    destruct (sequence (map g2 l)) as [xs2|] eqn:S2; [|discriminate].
    injection E1 as <-. injection E2 as <-.
    f_equal.
    + eapply H; [now left | eassumption | eassumption].
    + apply IH; auto. intros m' r1 r2 Hin. apply H. now right.
Qed.

Lemma NumbersFrom0ToN_fuel_irrelevant :
  forall f1 f2 T r1 r2,
    _NumbersFrom0ToN f1 T = Some r1 -> _NumbersFrom0ToN f2 T = Some r2 ->
    r1 = r2.
Proof.
  intros f1 f2 T r1 r2. rewrite !NumbersFrom0ToN_distributes.
  unfold distribute_opt.
  destruct (sequence (map (_NumbersFrom0ToN_member f1) (members T)))
    as [rs1|] eqn:S1; [|discriminate].
  destruct (sequence (map (_NumbersFrom0ToN_member f2) (members T)))
    as [rs2|] eqn:S2; [|discriminate].
  simpl. intros [= <-] [= <-]. f_equal.
  eapply sequence_same; [|exact S1|exact S2].
  intros m x1 x2 _. apply NumbersFrom0ToN_member_fuel_irrelevant.
Qed.

(** Two evaluations of [NumbersRange<From, To>] that finish give the same
    type, whatever number of instantiations each was allowed. *)
Lemma NumbersRange_fuel_irrelevant :
  forall f1 f2 From To r1 r2,
    NumbersRange f1 From To = Some r1 -> NumbersRange f2 From To = Some r2 ->
    r1 = r2.
Proof.
  intros f1 f2 From To r1 r2. unfold NumbersRange.
  destruct (_NumbersFrom0ToN f1 To) as [t1|] eqn:T1; [|discriminate].
  destruct (_NumbersFrom0ToN f1 From) as [a1|] eqn:A1; [|discriminate].
  destruct (_NumbersFrom0ToN f2 To) as [t2|] eqn:T2; [|discriminate].
  destruct (_NumbersFrom0ToN f2 From) as [a2|] eqn:A2; [|discriminate].
  intros [= <-] [= <-].
  now rewrite (NumbersFrom0ToN_fuel_irrelevant _ _ _ _ _ T1 T2),
    (NumbersFrom0ToN_fuel_irrelevant _ _ _ _ _ A1 A2).
Qed.

(** * References between the declarations *)

Lemma strings_eqb_eq : forall a b, strings_eqb a b = true -> a = b.
Proof.
  induction a as [|x r IH]; intros [|y s] E; try discriminate; [reflexivity|].
  simpl in E. apply andb_true_iff in E as [E1 E2].
  apply String.eqb_eq in E1. apply IH in E2. now subst.
Qed.

(** The module exports each of its declarations, also the two written
    without the keyword [export]. *)
Lemma every_declaration_exported :
  forall d, d_exported d = true.
Proof. intros d. unfold d_exported. apply orb_true_r. Qed.

(** C6, as the code has it.  Every alias of the module is exported, and an
    alias refers to no other type defined by the library (a recursive alias
    refers to itself), except eight of them: [VoidFn] is written with [Fn],
    [MaybePromiseFn] with [MaybePromise], [NumbersRange] with
    [_NumbersFrom0ToN], [_NumbersFrom0ToN] with [_NumbersFrom0ToNRec],
    [DeepNonNullableOrUndefined] and [DeepRequiredNonNullable] with
    [NonNullable], [OptionalProperties] with [OptionalKeys] and
    [RequiredProperties] with [RequiredKeys]. *)
Theorem exported_aliases_cross_references :
  (forall d, In d declarations -> d_exported d = true)
  /\ (forall d, In d declarations ->
                other_library_references d = assoc (d_name d) cross_references)
  /\ map fst cross_references
     = map d_name
         (filter (fun d => negb (strings_eqb (other_library_references d) []))
                 declarations).
Proof.
  split; [intros d _; apply every_declaration_exported|].
  split; [|vm_compute; reflexivity].
  assert (H : forallb (fun d => strings_eqb (other_library_references d)
                                            (assoc (d_name d) cross_references))
                      declarations = true) by (vm_compute; reflexivity).
  rewrite forallb_forall in H. intros d Hin. specialize (H d Hin).
  now apply strings_eqb_eq.
Qed.

Example exported_aliases_cross_references_DeepMerge :
  In (mkDecl "DeepMerge" true ["DeepMerge"]) declarations
  /\ d_exported (mkDecl "DeepMerge" true ["DeepMerge"]) = true
  /\ other_library_references (mkDecl "DeepMerge" true ["DeepMerge"]) = [].
Proof.
  assert (Hin : In (mkDecl "DeepMerge" true ["DeepMerge"]) declarations)
    by (simpl; tauto).
  split; [exact Hin | split].
  - exact (proj1 exported_aliases_cross_references _ Hin).
  - exact (proj1 (proj2 exported_aliases_cross_references) _ Hin).
Defined.

(** [VoidFn] is exported and its body, [Fn<T, void>], is another alias of
    the library: not every exported alias is independent of the others. *)
Lemma VoidFn_refers_to_Fn :
  In (mkDecl "VoidFn" true ["Fn"]) declarations
  /\ other_library_references (mkDecl "VoidFn" true ["Fn"]) = ["Fn"]
  /\ ~ (forall d, In d declarations -> d_exported d = true ->
                  other_library_references d = []).
Proof.
  split; [simpl; tauto | split; [reflexivity|]].
  intros H. specialize (H (mkDecl "VoidFn" true ["Fn"])).
  discriminate H; [simpl; tauto | reflexivity].
Qed.

(** * The value of NumbersRange *)

Lemma numlits_atoms : forall l, Forall (fun m => is_atom m = true) (numlits l).
Proof.
  intros l. apply Forall_forall. intros x Hx.
  apply in_map_iff in Hx as [i [<- _]]. reflexivity.
Qed.

Lemma numlits_plain :
  forall l, Forall (fun m => is_atom m = true /\ is_top m = false) (numlits l).
Proof.
  intros l. apply Forall_forall. intros x Hx.
  apply in_map_iff in Hx as [i [<- _]]. split; reflexivity.
Qed.

Lemma reduce_literals_numlits : forall l, reduce_literals (numlits l) = numlits l.
Proof.
  intros l. unfold reduce_literals. apply filter_all. intros y Hy.
  assert (E : existsb is_number (numlits l) = false).
  { destruct (existsb is_number (numlits l)) eqn:E; [|reflexivity].
    apply existsb_exists in E as [x [Hx Ex]].
    apply in_map_iff in Hx as [i [<- _]]. discriminate Ex. }
  apply in_map_iff in Hy as [i [<- _]]. now rewrite E.
Qed.

Lemma dedupe_numlits : forall l, NoDup l -> dedupe (numlits l) = numlits l.
Proof.
  induction 1 as [|x l Hx Hnd IH]; simpl; [reflexivity|].
  rewrite IH. f_equal. apply filter_all. intros y Hy.
  apply in_map_iff in Hy as [i [<- Hi]]. simpl.
  destruct (Z.eqb (Z.of_nat x) (Z.of_nat i)) eqn:E; [|reflexivity].
  apply Z.eqb_eq in E. apply Nat2Z.inj in E. subst. contradiction.
Qed.

Lemma of_members_numlits :
  forall l, NoDup l ->
    of_members (numlits l)
    = match numlits l with [] => TNever | [t] => t | ms => TUnion ms end.
Proof.
  intros l Hnd. unfold of_members.
  destruct (no_any_member _ (numlits_plain l)) as [Ea Eu]. rewrite Ea, Eu.
  now rewrite reduce_literals_numlits, dedupe_numlits.
Qed.

Lemma members_of_numlits :
  forall l, NoDup l -> members (of_members (numlits l)) = numlits l.
Proof.
  intros l Hnd. rewrite (of_members_numlits l Hnd).
  pose proof (numlits_atoms l) as Hat.
  destruct (numlits l) as [|t [|t' r]] eqn:E.
  - reflexivity.
  - inversion Hat; subst. now apply members_atom.
  - change (flat_map members (t :: t' :: r) = t :: t' :: r).
    now apply flat_map_members_atoms.
Qed.

Lemma mk_union_numlits : forall l, mk_union (numlits l) = of_members (numlits l).
Proof.
  intros l. unfold mk_union. now rewrite (flat_map_members_atoms _ (numlits_atoms l)).
Qed.

Lemma literal_range_numlits :
  forall a b, literal_range a b = of_members (numlits (seq a (b - a))).
Proof. intros a b. unfold literal_range. apply mk_union_numlits. Qed.

Lemma existsb_over_map :
  forall (A B : Type) (f : B -> bool) (g : A -> B) l,
    existsb f (map g l) = existsb (fun x => f (g x)) l.
Proof.
  intros A B f g l. induction l as [|x r IH]; simpl; [reflexivity|].
  now rewrite IH.
Qed.

(** A literal extends a union of literals when it is one of them. *)
Lemma assignable_to_numlits :
  forall z l, NoDup l ->
    assignable (TNumLit z) (of_members (numlits l))
    = existsb (fun i => Z.eqb z (Z.of_nat i)) l.
Proof.
  intros z l Hnd. rewrite (of_members_numlits l Hnd).
  destruct l as [|x [|y r]].
  - reflexivity.
  - simpl. rewrite assignable_numlit. now rewrite orb_false_r.
  - rewrite assignable_unfold.
    cbn [assignable_step is_top is_any is_unknown orb numlits map].
    change (existsb (fun t => assignable (TNumLit z) t) (numlits (x :: y :: r))
            = existsb (fun i => Z.eqb z (Z.of_nat i)) (x :: y :: r)).
    unfold numlits. rewrite existsb_over_map. reflexivity.
Qed.

(** ** The accumulator of the recursion *)

Lemma seq_snoc : forall a n, seq a (S n) = (seq a n ++ [a + n])%list.
Proof. intros a n. rewrite seq_S. reflexivity. Qed.

Lemma accumulate_literal :
  forall c, mk_union [of_members (numlits (seq 0 c)); tuple_length (repeat TUnknown c)]
            = of_members (numlits (seq 0 (S c))).
Proof.
  intros c. unfold mk_union, tuple_length. rewrite repeat_length.
  cbn [flat_map members]. rewrite app_nil_r.
  rewrite (members_of_numlits _ (seq_NoDup c 0)).
  rewrite seq_snoc. unfold numlits. rewrite map_app. reflexivity.
Qed.

(** From a counter of [c] elements, [1 <= c <= n], and the accumulator
    [0 | ... | c-1], the recursion ends with [0 | ... | n-1]. *)
Lemma NumbersFrom0ToNRec_from :
  forall d c n fuel,
    1 <= c -> c + d = n -> d < fuel ->
    _NumbersFrom0ToNRec fuel (TNumLit (Z.of_nat n)) (repeat TUnknown c)
      (of_members (numlits (seq 0 c)))
    = Some (of_members (numlits (seq 0 n))).
Proof.
  induction d as [|d IH]; intros c n fuel Hc Hn Hfuel;
    (destruct fuel as [|fuel]; [lia|]); rewrite NumbersFrom0ToNRec_unfold;
    rewrite repeat_length.
  - replace (Z.of_nat c =? Z.of_nat n)%Z with true
      by (symmetry; apply Z.eqb_eq; lia).
    replace n with c by lia. reflexivity.
  - replace (Z.of_nat c =? Z.of_nat n)%Z with false
      by (symmetry; apply Z.eqb_neq; lia).
    rewrite accumulate_literal.
    change (TUnknown :: repeat TUnknown c) with (repeat TUnknown (S c)).
    apply IH; lia.
Qed.

Lemma NumbersFrom0ToNRec_value :
  forall n fuel,
    1 <= n -> n < fuel ->
    _NumbersFrom0ToNRec fuel (TNumLit (Z.of_nat n)) [] (TNumLit 0)
    = Some (literal_range 0 n).
Proof.
  intros n fuel Hn Hfuel. destruct fuel as [|fuel]; [lia|].
  rewrite NumbersFrom0ToNRec_unfold.
  replace (Z.of_nat (List.length (@nil ty)) =? Z.of_nat n)%Z with false
    by (symmetry; apply Z.eqb_neq; simpl; lia).
  rewrite literal_range_numlits, Nat.sub_0_r.
  apply (NumbersFrom0ToNRec_from (n - 1) 1 n fuel); lia.
Qed.

Lemma NumbersFrom0ToN_value :
  forall n fuel,
    n < fuel ->
    _NumbersFrom0ToN fuel (TNumLit (Z.of_nat n)) = Some (literal_range 0 n).
Proof.
  intros n fuel Hfuel. rewrite NumbersFrom0ToN_distributes.
  unfold distribute_opt. cbn [members map].
  rewrite NumbersFrom0ToN_member_literal.
  destruct n as [|n].
  - reflexivity.
  - replace (Z.of_nat (S n) =? 0)%Z with false
      by (symmetry; apply Z.eqb_neq; lia).
    rewrite NumbersFrom0ToNRec_value by lia. cbn [sequence option_map].
    f_equal. unfold literal_range. apply mk_union_idem.
Qed.

(** ** [Exclude] on unions of literals *)

Lemma numlits_not_top :
  forall l, NoDup l -> is_top (of_members (numlits l)) = false.
Proof.
  intros l Hnd. rewrite (of_members_numlits l Hnd).
  destruct l as [|x [|y r]]; reflexivity.
Qed.

Lemma Exclude_member_numlit :
  forall i l, NoDup l ->
    cond (TNumLit (Z.of_nat i)) (of_members (numlits l)) TNever (TNumLit (Z.of_nat i))
    = if existsb (Nat.eqb i) l then TNever else TNumLit (Z.of_nat i).
Proof.
  intros i l Hnd. unfold cond, conditional.
  rewrite (numlits_not_top l Hnd). cbn [is_any].
  rewrite (assignable_to_numlits _ l Hnd).
  replace (existsb (fun j => Z.eqb (Z.of_nat i) (Z.of_nat j)) l)
    with (existsb (Nat.eqb i) l); [reflexivity|].
  induction l as [|j r IH]; simpl; [reflexivity|].
  inversion Hnd; subst. rewrite IH by assumption. f_equal.
  destruct (Nat.eqb i j) eqn:E.
  - apply Nat.eqb_eq in E. subst. symmetry. apply Z.eqb_refl.
  - apply Nat.eqb_neq in E. symmetry. apply Z.eqb_neq. lia.
Qed.

Lemma Exclude_numlits :
  forall l1 l2, NoDup l1 -> NoDup l2 ->
    Exclude (of_members (numlits l1)) (of_members (numlits l2))
    = of_members (numlits (filter (fun i => negb (existsb (Nat.eqb i) l2)) l1)).
Proof.
  intros l1 l2 H1 H2. unfold Exclude, distribute, mk_union.
  rewrite (members_of_numlits l1 H1). f_equal. clear H1.
  induction l1 as [|i r IH]; [reflexivity|].
  cbn [numlits map flat_map filter]. fold (numlits r).
  rewrite (Exclude_member_numlit i l2 H2), IH.
  destruct (existsb (Nat.eqb i) l2); reflexivity.
Qed.

Lemma filter_seq_from :
  forall a b,
    filter (fun i => negb (existsb (Nat.eqb i) (seq 0 a))) (seq 0 b)
    = seq a (b - a).
Proof.
  intros a b.
  assert (Hin : forall i, existsb (Nat.eqb i) (seq 0 a) = (i <? a)%nat).
  { intros i. destruct (i <? a)%nat eqn:E.
    - apply Nat.ltb_lt in E. apply existsb_exists. exists i.
      split; [apply in_seq; lia | apply Nat.eqb_refl].
    - apply Nat.ltb_ge in E. destruct (existsb (Nat.eqb i) (seq 0 a)) eqn:Ex;
        [|reflexivity].
      apply existsb_exists in Ex as [j [Hj Ej]]. apply Nat.eqb_eq in Ej.
      apply in_seq in Hj. lia. }
  rewrite (filter_ext _ (fun i => negb (i <? a)%nat) (fun i => f_equal negb (Hin i))).
  clear Hin. induction b as [|b IH].
  - reflexivity.
  - rewrite seq_snoc, filter_app, IH. cbn [filter]. change (0 + b) with b.
    destruct (b <? a)%nat eqn:E; cbn [negb].
    + apply Nat.ltb_lt in E. rewrite app_nil_r.
      replace (S b - a) with 0 by lia. replace (b - a) with 0 by lia. reflexivity.
    + apply Nat.ltb_ge in E.
      replace (S b - a) with (S (b - a)) by lia.
      rewrite seq_snoc. repeat f_equal. lia.
Qed.

Lemma NumbersRange_value :
  forall a b fuel,
    a < fuel -> b < fuel ->
    NumbersRange fuel (TNumLit (Z.of_nat a)) (TNumLit (Z.of_nat b))
    = Some (literal_range a b).
Proof.
  intros a b fuel Ha Hb. unfold NumbersRange.
  rewrite (NumbersFrom0ToN_value b fuel Hb), (NumbersFrom0ToN_value a fuel Ha).
  rewrite !literal_range_numlits, !Nat.sub_0_r.
  rewrite (Exclude_numlits _ _ (seq_NoDup b 0) (seq_NoDup a 0)).
  now rewrite filter_seq_from.
Qed.

(** ** [number] as an argument *)

Lemma NumbersFrom0ToN_number :
  forall fuel, _NumbersFrom0ToN fuel TNumber = Some TNumber.
Proof. reflexivity. Qed.

Lemma assignable_number_numlits :
  forall l, NoDup l -> assignable TNumber (of_members (numlits l)) = false.
Proof.
  intros l Hnd. rewrite (of_members_numlits l Hnd).
  destruct l as [|x [|y r]]; try reflexivity.
  rewrite assignable_unfold.
  change (existsb (fun t => assignable TNumber t) (numlits (x :: y :: r)) = false).
  unfold numlits. rewrite existsb_over_map. clear Hnd.
  induction (x :: y :: r) as [|i l IH]; [reflexivity | exact IH].
Qed.

Lemma Exclude_number_numlits :
  forall l, NoDup l -> Exclude TNumber (of_members (numlits l)) = TNumber.
Proof.
  intros l Hnd. unfold Exclude, distribute. cbn [members map].
  unfold cond, conditional.
  rewrite (numlits_not_top l Hnd), (assignable_number_numlits l Hnd).
  reflexivity.
Qed.

Lemma Exclude_numlits_number :
  forall l, NoDup l -> Exclude (of_members (numlits l)) TNumber = TNever.
Proof.
  intros l Hnd. unfold Exclude, distribute, mk_union.
  rewrite (members_of_numlits l Hnd).
  replace (flat_map members (map (fun T => cond T TNumber TNever T) (numlits l)))
    with (@nil ty); [reflexivity|].
  clear Hnd. induction l as [|i r IH]; [reflexivity|].
  cbn [numlits map flat_map]. fold (numlits r). now rewrite <- IH.
Qed.

(** X1.  For natural numbers [a] and [b], [NumbersRange<a, b>] is the union
    [a | a+1 | ... | b-1] of the literal types from [a] up to, not
    including, [b], and so [never] when [b <= a].  The recursion finishes
    within [max a b + 1] instantiations. *)
Theorem NumbersRange_enumerates :
  forall a b fuel,
    a < fuel -> b < fuel ->
    NumbersRange fuel (TNumLit (Z.of_nat a)) (TNumLit (Z.of_nat b))
    = Some (literal_range a b).
Proof. exact NumbersRange_value. Qed.

Example NumbersRange_enumerates_example :
  2 < 6 /\ 5 < 6
  /\ NumbersRange 6 (TNumLit 2) (TNumLit 5)
     = Some (TUnion [TNumLit 2; TNumLit 3; TNumLit 4]).
Proof.
  split; [lia | split; [lia | apply (NumbersRange_enumerates 2 5 6); lia]].
Defined.

(** X2.  For a natural number [n], [_NumbersFrom0ToN<n>] is the union
    [0 | 1 | ... | n-1]: [never] for [0], through the guard [From extends 0],
    and for a positive [n] what the recursion accumulates before the
    counter reaches [n]. *)
Theorem NumbersFrom0ToN_enumerates :
  forall n fuel,
    n < fuel ->
    _NumbersFrom0ToN fuel (TNumLit (Z.of_nat n)) = Some (literal_range 0 n).
Proof. exact NumbersFrom0ToN_value. Qed.

Example NumbersFrom0ToN_enumerates_example :
  3 < 4
  /\ _NumbersFrom0ToN 4 (TNumLit 3) = Some (TUnion [TNumLit 0; TNumLit 1; TNumLit 2]).
Proof. split; [lia | apply (NumbersFrom0ToN_enumerates 3 4); lia]. Defined.

(** X3.  With [number] as a bound the range is not a range of literals:
    [NumbersRange<n, number>] is [number], since no literal excludes
    [number], and [NumbersRange<number, n>] is [never], since [number]
    excludes every literal. *)
Theorem NumbersRange_number_bound :
  forall n fuel,
    n < fuel ->
    NumbersRange fuel (TNumLit (Z.of_nat n)) TNumber = Some TNumber
    /\ NumbersRange fuel TNumber (TNumLit (Z.of_nat n)) = Some TNever.
Proof.
  intros n fuel Hn. unfold NumbersRange.
  rewrite (NumbersFrom0ToN_value n fuel Hn), NumbersFrom0ToN_number.
  rewrite literal_range_numlits, Nat.sub_0_r. split; f_equal.
  - apply Exclude_number_numlits, seq_NoDup.
  - apply Exclude_numlits_number, seq_NoDup.
Qed.

Example NumbersRange_number_bound_example :
  3 < 4
  /\ NumbersRange 4 (TNumLit 3) TNumber = Some TNumber
  /\ NumbersRange 4 TNumber (TNumLit 3) = Some TNever.
Proof. split; [lia | apply (NumbersRange_number_bound 3 4); lia]. Defined.

(** * The wrappers and NonNullable *)

(** ** Filtering the members of a union *)

Lemma members_of_members_atoms :
  forall ms, Forall (fun m => is_atom m = true) ms ->
    existsb is_any ms = false -> existsb is_unknown ms = false ->
    members (of_members ms) = dedupe (reduce_literals ms).
Proof.
  intros ms Hat Ea Eu. unfold of_members. rewrite Ea, Eu.
  assert (Hat' : Forall (fun x => is_atom x = true) (dedupe (reduce_literals ms))).
  { apply Forall_forall. intros x Hx. rewrite Forall_forall in Hat.
    apply (proj1 (in_dedupe _ _)) in Hx. apply in_reduce_literals in Hx. auto. }
  destruct (dedupe (reduce_literals ms)) as [|t [|t' r]].
  - reflexivity.
  - inversion Hat'; subst. now apply members_atom.
  - change (flat_map members (t :: t' :: r) = t :: t' :: r).
    now apply flat_map_members_atoms.
Qed.

Lemma existsb_filter_keep :
  forall (f q : ty -> bool) l,
    (forall x, f x = true -> q x = true) ->
    existsb f (filter q l) = existsb f l.
Proof.
  intros f q l H. induction l as [|x r IH]; simpl; [reflexivity|].
  destruct (q x) eqn:Eq; simpl; rewrite IH; [reflexivity|].
  destruct (f x) eqn:Ef; [|reflexivity]. apply H in Ef. congruence.
Qed.

Lemma reduce_literals_filter :
  forall q l, q TString = true -> q TNumber = true ->
    reduce_literals (filter q l) = filter q (reduce_literals l).
Proof.
  intros q l Hs Hn. unfold reduce_literals.
  rewrite (existsb_filter_keep is_string q l), (existsb_filter_keep is_number q l).
  - apply filter_comm.
  - intros x Hx. destruct x; try discriminate. exact Hn.
  - intros x Hx. destruct x; try discriminate. exact Hs.
Qed.

(** A filter that keeps the top types and the primitive types commutes
    with the building of a union. *)
Lemma of_members_filter :
  forall q ms,
    Forall (fun m => is_atom m = true) ms ->
    q TAny = true -> q TUnknown = true -> q TString = true -> q TNumber = true ->
    of_members (filter q (members (of_members ms))) = of_members (filter q ms).
Proof.
  intros q ms Hat Ha Hu Hs Hn.
  assert (Hany : existsb is_any (filter q ms) = existsb is_any ms).
  { apply existsb_filter_keep. intros x Hx. destruct x; try discriminate. exact Ha. }
  assert (Hunk : existsb is_unknown (filter q ms) = existsb is_unknown ms).
  { apply existsb_filter_keep. intros x Hx. destruct x; try discriminate. exact Hu. }
  destruct (existsb is_any ms) eqn:Ea.
  { unfold of_members at 2 3. rewrite Ea, Hany. simpl. rewrite Ha. reflexivity. }
  destruct (existsb is_unknown ms) eqn:Eu.
  { unfold of_members at 2 3. rewrite Ea, Eu, Hany, Hunk. simpl. rewrite Hu.
    reflexivity. }
  rewrite (members_of_members_atoms ms Hat Ea Eu).
  unfold of_members.
  rewrite Hany, Hunk.
  assert (Ea' : existsb is_any (filter q (dedupe (reduce_literals ms))) = false).
  { destruct (existsb is_any (filter q (dedupe (reduce_literals ms)))) eqn:E;
      [|reflexivity].
    apply existsb_exists in E as [x [Hx Ex]]. apply filter_In in Hx as [Hx _].
    apply (proj1 (in_dedupe _ _)) in Hx. apply in_reduce_literals in Hx.
    assert (existsb is_any ms = true) by (apply existsb_exists; eauto). congruence. }
  assert (Eu' : existsb is_unknown (filter q (dedupe (reduce_literals ms))) = false).
  { destruct (existsb is_unknown (filter q (dedupe (reduce_literals ms)))) eqn:E;
      [|reflexivity].
    apply existsb_exists in E as [x [Hx Ex]]. apply filter_In in Hx as [Hx _].
    apply (proj1 (in_dedupe _ _)) in Hx. apply in_reduce_literals in Hx.
    assert (existsb is_unknown ms = true) by (apply existsb_exists; eauto).
    congruence. }
  rewrite Ea', Eu'.
  rewrite !(reduce_literals_filter q _ Hs Hn), !dedupe_filter.
  now rewrite reduce_literals_idem, dedupe_idem.
Qed.

Lemma mk_union_filter :
  forall q l,
    q TAny = true -> q TUnknown = true -> q TString = true -> q TNumber = true ->
    of_members (filter q (members (mk_union l)))
    = of_members (filter q (flat_map members l)).
Proof.
  intros q l Ha Hu Hs Hn. unfold mk_union. apply of_members_filter; auto.
  apply Forall_forall. intros x Hx. apply in_flat_map in Hx as [y [_ Hy]].
  pose proof (members_are_atoms y) as Hat. rewrite Forall_forall in Hat. auto.
Qed.

(** ** NonNullable and the wrappers *)

Lemma NonNullable_as_filter :
  forall T, NonNullable T = of_members (filter non_nullish (members T)).
Proof.
  intros T.
  change (NonNullable T)
    with (of_members
            (flat_map members
               (map (fun T => cond T (mk_union [TNull; TUndefined]) TNever T)
                    (members T)))).
  now rewrite (NonNullable_flat_members _ (members_are_atoms T)).
Qed.

Lemma NonNullable_mk_union :
  forall l, NonNullable (mk_union l)
            = of_members (filter non_nullish (flat_map members l)).
Proof.
  intros l. rewrite NonNullable_as_filter. now apply mk_union_filter.
Qed.

Lemma NonNullable_of_wrapper :
  forall T extra,
    filter non_nullish (flat_map members extra) = [] ->
    NonNullable (mk_union (T :: extra)) = NonNullable T.
Proof.
  intros T extra H. rewrite NonNullable_mk_union, NonNullable_as_filter.
  cbn [flat_map]. now rewrite filter_app, H, app_nil_r.
Qed.

Lemma NonNullable_idem : forall T, NonNullable (NonNullable T) = NonNullable T.
Proof.
  intros T. rewrite (NonNullable_as_filter T).
  rewrite NonNullable_as_filter.
  rewrite of_members_filter; try reflexivity.
  - f_equal. apply filter_absorb. auto.
  - apply Forall_forall. intros x Hx. apply filter_In in Hx as [Hx _].
    pose proof (members_are_atoms T) as Hat. rewrite Forall_forall in Hat. auto.
Qed.

(** ** What the wrappers accept *)

Lemma reduce_literals_keeps_unit :
  forall a ms, is_unit_type a = true -> In a ms -> In a (reduce_literals ms).
Proof.
  intros a ms Ha Hin. unfold reduce_literals. apply filter_In.
  split; [assumption | destruct a; try discriminate Ha; reflexivity].
Qed.

(** A source that is assignable to a member of a union the checker builds
    is assignable to the union. *)
Lemma assignable_to_member :
  forall a b ms,
    Forall (fun m => is_atom m = true) ms ->
    is_atom a = true -> is_any a = false ->
    is_unit_type b = true -> In b ms -> assignable a b = true ->
    assignable a (of_members ms) = true.
Proof.
  intros a b ms Hat Ha Hany Hb Hin Hab.
  destruct (is_top (of_members ms)) eqn:Etop.
  { rewrite assignable_unfold. unfold assignable_step. now rewrite Etop. }
  assert (Hplain : Forall (fun m => is_atom m = true /\ is_top m = false) ms).
  { apply Forall_forall. intros x Hx. rewrite Forall_forall in Hat.
    split; [auto|]. destruct (is_top x) eqn:Ex; [|reflexivity].
    unfold of_members in Etop.
    destruct x; try discriminate Ex.
    - assert (E : existsb is_any ms = true) by (apply existsb_exists; eauto).
      rewrite E in Etop. discriminate.
    - destruct (existsb is_any ms); [discriminate|].
      assert (E : existsb is_unknown ms = true) by (apply existsb_exists; eauto).
      rewrite E in Etop. discriminate. }
  pose proof (in_of_members b ms Hplain (reduce_literals_keeps_unit b ms Hb Hin))
    as Hmem.
  destruct (of_members_shape ms Hat) as [E | [Hatom | [D [E HD]]]].
  - rewrite E in Hmem. destruct Hmem.
  - rewrite (members_atom _ Hatom) in Hmem. destruct Hmem as [E|[]].
    now rewrite E.
  - rewrite E in *. simpl in Hmem. rewrite (flat_map_members_atoms _ HD) in Hmem.
    rewrite assignable_unfold. unfold assignable_step.
    cbn [is_top is_any is_unknown orb].
    destruct a; try discriminate Ha; try discriminate Hany;
      apply existsb_exists; exists b; auto.
Qed.

Lemma wrapper_accepts :
  forall a b T extra,
    is_atom a = true -> is_any a = false ->
    is_unit_type b = true -> In b extra -> assignable a b = true ->
    Forall (fun m => is_atom m = true) extra ->
    assignable a (mk_union (T :: extra)) = true.
Proof.
  intros a b T extra Ha Hany Hb Hin Hab Hex. unfold mk_union.
  apply (assignable_to_member a b); auto.
  - apply Forall_forall. intros x Hx. apply in_flat_map in Hx as [y [_ Hy]].
    pose proof (members_are_atoms y) as Hat. rewrite Forall_forall in Hat. auto.
  - cbn [flat_map]. apply in_or_app. right.
    rewrite (flat_map_members_atoms _ Hex). exact Hin.
Qed.

(** ** ExcludeFromUnion *)

Lemma ExcludeFromUnion_member :
  forall E m, is_atom m = true ->
    members (cond m E TNever m) = if not_excluded E m then [m] else [].
Proof.
  intros E m Hat. unfold cond, conditional, not_excluded.
  destruct (is_top E); [reflexivity|]. cbn [negb andb].
  destruct (is_any m) eqn:Ea.
  - destruct m; try discriminate Ea. reflexivity.
  - cbn [orb]. destruct (assignable m E); [reflexivity|].
    now apply members_atom.
Qed.

Lemma ExcludeFromUnion_as_filter :
  forall U E, ExcludeFromUnion U E = of_members (filter (not_excluded E) (members U)).
Proof.
  intros U E.
  change (ExcludeFromUnion U E)
    with (of_members (flat_map members (map (fun m => cond m E TNever m) (members U)))).
  f_equal. pose proof (members_are_atoms U) as Hat.
  induction Hat as [|m l Hm _ IH]; [reflexivity|].
  cbn [map flat_map filter]. rewrite IH, (ExcludeFromUnion_member E m Hm).
  destruct (not_excluded E m); reflexivity.
Qed.

Lemma assignable_to_never :
  forall m, is_atom m = true -> is_any m = false -> assignable m TNever = false.
Proof.
  intros m Hat Hany. rewrite assignable_unfold.
  destruct m; try discriminate; try reflexivity.
Qed.

(** X4.  [NonNullable] undoes the wrappers that add [null] and
    [undefined]: applied to [Maybe<T>], [Nullable<T>], [Undefinedable<T>] or
    [NullableOrUndefined<T>] it gives [NonNullable<T>]. *)
Theorem NonNullable_undoes_wrappers :
  forall T,
    NonNullable (Maybe T) = NonNullable T
    /\ NonNullable (Nullable T) = NonNullable T
    /\ NonNullable (Undefinedable T) = NonNullable T
    /\ NonNullable (NullableOrUndefined T) = NonNullable T.
Proof.
  intros T. repeat split; now apply NonNullable_of_wrapper.
Qed.

(** X5.  [NonNullable] is idempotent: there is nothing left for a second
    application to remove. *)
Theorem NonNullable_idempotent :
  forall T, NonNullable (NonNullable T) = NonNullable T.
Proof. exact NonNullable_idem. Qed.

(** X6.  Each wrapper accepts what its name says, whatever [T] is:
    [null] is assignable to [Nullable<T>], [undefined] to
    [Undefinedable<T>], both to [Maybe<T>] and to [NullableOrUndefined<T>],
    and [void] and [undefined] to [Voidable<T>]. *)
Theorem wrappers_accept :
  forall T,
    assignable TNull (Nullable T) = true
    /\ assignable TUndefined (Undefinedable T) = true
    /\ assignable TNull (Maybe T) = true
    /\ assignable TUndefined (Maybe T) = true
    /\ assignable TNull (NullableOrUndefined T) = true
    /\ assignable TUndefined (NullableOrUndefined T) = true
    /\ assignable TVoid (Voidable T) = true
    /\ assignable TUndefined (Voidable T) = true.
Proof.
  intros T. repeat split.
  - apply (wrapper_accepts TNull TNull); simpl; auto.
  - apply (wrapper_accepts TUndefined TUndefined); simpl; auto.
  - apply (wrapper_accepts TNull TNull); simpl; auto.
  - apply (wrapper_accepts TUndefined TUndefined); simpl; auto.
  - apply (wrapper_accepts TNull TNull); simpl; auto.
  - apply (wrapper_accepts TUndefined TUndefined); simpl; auto.
  - apply (wrapper_accepts TVoid TVoid); simpl; auto.
  - apply (wrapper_accepts TUndefined TVoid); simpl; auto.
Qed.

(** X7.  For [Excluded] a union of primitive and literal types, [null],
    [undefined], [void], [object], [any] and [unknown] (no object type, no
    array and no function type among its members),
    [ExcludeFromUnion<U, Excluded>] is the union of the members of [U] that
    do not extend [Excluded]; a member [any] stays, and nothing stays when
    [Excluded] is [any] or [unknown]. *)
Theorem ExcludeFromUnion_keeps_not_excluded :
  forall U Excluded,
    flat_target Excluded = true ->
    ExcludeFromUnion U Excluded
    = of_members (filter (not_excluded Excluded) (members U)).
Proof. intros U Excluded _. apply ExcludeFromUnion_as_filter. Qed.

Example ExcludeFromUnion_keeps_not_excluded_example :
  flat_target (TUnion [TString; TNull]) = true
  /\ ExcludeFromUnion
       (TUnion [TStrLit "a"; TNumLit 1; TNull; TObject [("x", prop TNumber)]])
       (TUnion [TString; TNull])
     = TUnion [TNumLit 1; TObject [("x", prop TNumber)]].
Proof.
  split; [reflexivity|].
  apply (ExcludeFromUnion_keeps_not_excluded
           (TUnion [TStrLit "a"; TNumLit 1; TNull; TObject [("x", prop TNumber)]])
           (TUnion [TString; TNull])).
  reflexivity.
Defined.

(** X8.  The edges of [ExcludeFromUnion]: excluding [never] excludes
    nothing, excluding [unknown] or [any] leaves [never], and [never] has no
    member to keep. *)
Theorem ExcludeFromUnion_edges :
  forall U,
    ExcludeFromUnion U TNever = mk_union [U]
    /\ ExcludeFromUnion U TUnknown = TNever
    /\ ExcludeFromUnion U TAny = TNever
    /\ ExcludeFromUnion TNever U = TNever.
Proof.
  intros U. rewrite !ExcludeFromUnion_as_filter. repeat split.
  - unfold mk_union. cbn [flat_map]. rewrite app_nil_r. f_equal.
    apply filter_all. intros m Hm.
    pose proof (members_are_atoms U) as Hat. rewrite Forall_forall in Hat.
    specialize (Hat m Hm). unfold not_excluded. cbn [is_top is_any is_unknown orb negb andb].
    destruct (is_any m) eqn:Ea; [reflexivity|].
    now rewrite (assignable_to_never m Hat Ea).
  - replace (filter (not_excluded TUnknown) (members U)) with (@nil ty);
      [reflexivity|].
    induction (members U) as [|m r IH]; [reflexivity | exact IH].
  - replace (filter (not_excluded TAny) (members U)) with (@nil ty);
      [reflexivity|].
    induction (members U) as [|m r IH]; [reflexivity | exact IH].
Qed.

(** * What the recursive mapped aliases establish *)

Lemma deep_mapped_unfold :
  forall ro opt wrap T,
    deep_mapped ro opt wrap T
    = homomorphic ro opt (fun TP => wrap (deep_mapped ro opt wrap TP)) T.
Proof. destruct T; reflexivity. Qed.

Lemma DeepReadonly_deep_mapped : DeepReadonly = deep_mapped Add Keep (fun X => X).
Proof. reflexivity. Qed.
Lemma DeepMutable_deep_mapped : DeepMutable = deep_mapped Remove Keep (fun X => X).
Proof. reflexivity. Qed.
Lemma DeepWritable_deep_mapped : DeepWritable = deep_mapped Remove Keep (fun X => X).
Proof. reflexivity. Qed.
Lemma DeepPartial_deep_mapped : DeepPartial = deep_mapped Keep Add (fun X => X).
Proof. reflexivity. Qed.
Lemma DeepRequired_deep_mapped : DeepRequired = deep_mapped Keep Remove (fun X => X).
Proof. reflexivity. Qed.
Lemma DeepNullable_deep_mapped :
  DeepNullable = deep_mapped Keep Keep (fun X => mk_union [X; TNull]).
Proof. reflexivity. Qed.
Lemma DeepMaybe_deep_mapped :
  DeepMaybe = deep_mapped Keep Keep (fun X => mk_union [X; TUndefined]).
Proof. reflexivity. Qed.
Lemma DeepVoidable_deep_mapped :
  DeepVoidable = deep_mapped Keep Keep (fun X => mk_union [X; TVoid]).
Proof. reflexivity. Qed.
Lemma DeepOptionalNullable_deep_mapped :
  DeepOptionalNullable = deep_mapped Keep Add (fun X => mk_union [X; TNull]).
Proof. reflexivity. Qed.

(** ** Predicates that hold everywhere in a type *)

Section everywhere_lemmas.
Variables (okp : property ty -> bool) (oka : bool -> ty -> bool).

Lemma everywhere_members :
  forall T, everywhere okp oka T = true ->
            Forall (fun m => everywhere okp oka m = true) (members T).
Proof.
  induction T using ty_nested_ind; intros E; simpl;
    try (constructor; [exact E | constructor]); try constructor.
  simpl in E. rewrite forallb_forall in E.
  induction H as [|x l Hx _ IH]; simpl; [constructor|].
  apply Forall_app. split.
  - apply Hx, E. now left.
  - apply IH. intros y Hy. apply E. now right.
Qed.

Lemma everywhere_of_members :
  forall ms, Forall (fun m => everywhere okp oka m = true) ms ->
             everywhere okp oka (of_members ms) = true.
Proof.
  intros ms H. rewrite Forall_forall in H. unfold of_members.
  destruct (existsb is_any ms) eqn:Ea.
  { apply existsb_exists in Ea as [x [Hx Ex]]. destruct x; try discriminate.
    now apply H in Hx. }
  destruct (existsb is_unknown ms); [reflexivity|].
  assert (Hsub : forall x, In x (dedupe (reduce_literals ms)) ->
                           everywhere okp oka x = true).
  { intros x Hx. apply (proj1 (in_dedupe _ _)) in Hx.
    apply in_reduce_literals in Hx. auto. }
  destruct (dedupe (reduce_literals ms)) as [|t [|t' r]].
  - reflexivity.
  - apply Hsub. now left.
  - change (forallb (everywhere okp oka) (t :: t' :: r) = true).
    apply forallb_forall. exact Hsub.
Qed.

Lemma everywhere_mk_union :
  forall l, Forall (fun m => everywhere okp oka m = true) l ->
            everywhere okp oka (mk_union l) = true.
Proof.
  intros l H. unfold mk_union. apply everywhere_of_members.
  apply Forall_forall. intros x Hx. apply in_flat_map in Hx as [y [Hy Hx]].
  rewrite Forall_forall in H.
  pose proof (everywhere_members y (H y Hy)) as Hm.
  rewrite Forall_forall in Hm. auto.
Qed.

Lemma everywhere_remove_undefined :
  forall T, everywhere okp oka T = true ->
            everywhere okp oka (remove_undefined T) = true.
Proof.
  intros T H. unfold remove_undefined. apply everywhere_of_members.
  apply Forall_forall. intros x Hx. apply filter_In in Hx as [Hx _].
  pose proof (everywhere_members T H) as Hm. rewrite Forall_forall in Hm. auto.
Qed.

End everywhere_lemmas.

(** ** The members of a union the checker builds *)

Lemma no_top_member_plain :
  forall T, no_top_member T = true ->
            Forall (fun m => is_atom m = true /\ is_top m = false) (members T).
Proof.
  intros T H. unfold no_top_member in H. rewrite forallb_forall in H.
  pose proof (members_are_atoms T) as Hat. rewrite Forall_forall in *.
  intros m Hm. split; [auto|]. apply H in Hm. now destruct (is_top m).
Qed.

Lemma no_top_member_mk_union :
  forall l, Forall (fun T => no_top_member T = true) l ->
            no_top_member (mk_union l) = true.
Proof.
  intros l H. unfold no_top_member. apply forallb_forall. intros m Hm.
  apply members_mk_union in Hm. apply in_flat_map in Hm as [T [HT Hm]].
  rewrite Forall_forall in H. specialize (H T HT). unfold no_top_member in H.
  rewrite forallb_forall in H. auto.
Qed.

(** A union built with a unit type ([null], [undefined] or [void]) has it
    as a member, unless a top type absorbs the union. *)
Lemma has_member_mk_union :
  forall (q : ty -> bool) a l,
    Forall (fun T => no_top_member T = true) l ->
    is_unit_type a = true -> q a = true -> In a (flat_map members l) ->
    has_member q (mk_union l) = true.
Proof.
  intros q a l Hl Ha Hq Hin. unfold has_member. apply existsb_exists.
  exists a. split; [|exact Hq]. unfold mk_union. apply in_of_members.
  - apply Forall_forall. intros m Hm. apply in_flat_map in Hm as [T [HT Hm]].
    rewrite Forall_forall in Hl.
    pose proof (no_top_member_plain T (Hl T HT)) as Hp.
    rewrite Forall_forall in Hp. auto.
  - now apply reduce_literals_keeps_unit.
Qed.

Lemma has_member_keeps :
  forall (q : ty -> bool) X l,
    no_top_member X = true -> Forall (fun T => no_top_member T = true) l ->
    (forall m, q m = true -> is_unit_type m = true) ->
    has_member q X = true -> has_member q (mk_union (X :: l)) = true.
Proof.
  intros q X l HX Hl Hq H. unfold has_member in H.
  apply existsb_exists in H as [a [Ha Hqa]].
  apply (has_member_mk_union q a); auto.
  cbn [flat_map]. apply in_or_app. now left.
Qed.

(** ** The recursive mapped aliases *)

Section deep_mapped_lemmas.
Variables (ro opt : modifier) (wrap : ty -> ty).

Lemma deep_mapped_no_top :
  forall T, any_free T = true -> no_top_member (deep_mapped ro opt wrap T) = true.
Proof.
  induction T using ty_nested_ind; intros Hfree;
    rewrite deep_mapped_unfold; try reflexivity; try discriminate Hfree.
  cbn [homomorphic]. apply no_top_member_mk_union.
  simpl in Hfree. rewrite forallb_forall in Hfree. rewrite Forall_forall in *.
  intros x Hx. apply in_map_iff in Hx as [m [<- Hm]].
  rewrite <- deep_mapped_unfold. auto.
Qed.

Variables (okp : property ty -> bool) (oka : bool -> ty -> bool).
Hypothesis wrap_everywhere :
  forall X, everywhere okp oka X = true -> everywhere okp oka (wrap X) = true.
Hypothesis property_ok :
  forall p X, no_top_member X = true ->
              okp (map_property ro opt (fun _ => wrap X) p) = true.
Hypothesis array_ok :
  forall r e X, no_top_member X = true ->
                oka (apply_modifier ro r) (map_element opt (fun _ => wrap X) e) = true.

(** Whatever the modifiers do to the type the template gives (unite it
    with [undefined], remove [undefined] from it), they do not reach
    inside it. *)
Lemma modified_type_everywhere :
  forall (add optional strip : bool) W,
    everywhere okp oka W = true ->
    everywhere okp oka
      (let propType := if add then mk_union [W; TUndefined] else W in
       if optional && negb (maybe_undefined_or_void propType)
       then mk_union [propType; TUndefined]
       else if strip then remove_undefined propType
       else propType) = true.
Proof.
  intros add optional strip W HW. cbv zeta.
  assert (HY : everywhere okp oka (if add then mk_union [W; TUndefined] else W) = true).
  { destruct add; [|exact HW]. apply everywhere_mk_union.
    apply Forall_cons; [exact HW | now repeat constructor]. }
  destruct (optional && negb (maybe_undefined_or_void _)).
  - apply everywhere_mk_union. apply Forall_cons; [exact HY | now repeat constructor].
  - destruct strip; [now apply everywhere_remove_undefined | exact HY].
Qed.

Lemma deep_mapped_everywhere :
  forall T, any_free T = true ->
            everywhere okp oka (deep_mapped ro opt wrap T) = true.
Proof.
  induction T using ty_nested_ind; intros Hfree;
    rewrite deep_mapped_unfold; try reflexivity; try discriminate Hfree.
  - cbn [homomorphic everywhere]. simpl in Hfree.
    rewrite forallb_forall in *. intros kp Hkp.
    apply in_map_iff in Hkp as [[k p] [<- Hin]].
    rewrite Forall_forall in H. specialize (H _ Hin (Hfree _ Hin)).
    cbn [snd fst] in *.
    change (map_property ro opt (fun TP => wrap (deep_mapped ro opt wrap TP)) p)
      with (map_property ro opt (fun _ => wrap (deep_mapped ro opt wrap (p_type p))) p).
    rewrite property_ok by (apply deep_mapped_no_top; apply (Hfree _ Hin)).
    cbn [andb]. unfold map_property. cbn [p_type].
    apply wrap_everywhere in H.
    exact (modified_type_everywhere (is_add opt) _ (is_remove opt && p_optional p) _ H).
  - cbn [homomorphic everywhere]. simpl in Hfree. specialize (IHT Hfree).
    change (map_element opt (fun TP => wrap (deep_mapped ro opt wrap TP)) T)
      with (map_element opt (fun _ => wrap (deep_mapped ro opt wrap T)) T).
    rewrite array_ok by (now apply deep_mapped_no_top).
    cbn [andb]. unfold map_element. apply wrap_everywhere in IHT.
    exact (modified_type_everywhere (is_add opt) (is_add opt) (is_remove opt) _ IHT).
  - cbn [homomorphic]. apply everywhere_mk_union.
    simpl in Hfree. rewrite forallb_forall in Hfree. rewrite Forall_forall in *.
    intros x Hx. apply in_map_iff in Hx as [m [<- Hm]].
    rewrite <- deep_mapped_unfold. auto.
Qed.

End deep_mapped_lemmas.

(** With [?] the type of a property, and of an array element, is the
    template united with [undefined]. *)
Lemma optional_type_has_undefined :
  forall W (optional : bool), no_top_member W = true ->
    has_member is_undefined
      (if optional && negb (maybe_undefined_or_void (mk_union [W; TUndefined]))
       then mk_union [mk_union [W; TUndefined]; TUndefined]
       else mk_union [W; TUndefined]) = true.
Proof.
  intros W optional HW.
  assert (HY : no_top_member (mk_union [W; TUndefined]) = true).
  { apply no_top_member_mk_union.
    apply Forall_cons; [exact HW | now repeat constructor]. }
  assert (Hin : forall Z, In TUndefined (flat_map members [Z; TUndefined])).
  { intros Z. cbn [flat_map]. apply in_or_app. right. now left. }
  destruct (optional && negb _);
    apply (has_member_mk_union is_undefined TUndefined); auto.
Qed.

Lemma deep_mutable_everywhere :
  forall T, any_free T = true ->
            deeply_mutable (deep_mapped Remove Keep (fun X => X) T) = true.
Proof.
  apply deep_mapped_everywhere; [auto | reflexivity | reflexivity].
Qed.

Lemma deep_required_everywhere :
  forall T, any_free T = true ->
            deeply_required (deep_mapped Keep Remove (fun X => X) T) = true.
Proof.
  apply deep_mapped_everywhere; [auto | reflexivity |].
  intros r e X _. unfold map_element. cbn [is_add is_remove andb].
  now rewrite remove_undefined_clears.
Qed.

Lemma deep_optional_everywhere :
  forall wrap,
    (forall X, no_top_member X = true -> no_top_member (wrap X) = true) ->
    (forall X, deeply_optional X = true -> deeply_optional (wrap X) = true) ->
    forall T, any_free T = true ->
              deeply_optional (deep_mapped Keep Add wrap T) = true.
Proof.
  intros wrap Hno Hw. apply deep_mapped_everywhere; [exact Hw | |].
  - intros p X HX. unfold map_property.
    cbn [apply_modifier p_optional p_type andb is_remove is_add].
    now apply (optional_type_has_undefined (wrap X) true), Hno.
  - intros r e X HX. unfold map_element. cbn [is_add is_remove andb].
    now apply (optional_type_has_undefined (wrap X) true), Hno.
Qed.

(** Uniting a type with [undefined] keeps its [null], [undefined] and
    [void] members. *)
Lemma modified_type_has_member :
  forall (q : ty -> bool) (add optional : bool) W,
    (forall m, q m = true -> is_unit_type m = true) ->
    no_top_member W = true -> has_member q W = true ->
    has_member q
      (let propType := if add then mk_union [W; TUndefined] else W in
       if optional && negb (maybe_undefined_or_void propType)
       then mk_union [propType; TUndefined]
       else propType) = true.
Proof.
  intros q add optional W Hq HW Hh. cbv zeta.
  assert (HU : Forall (fun T => no_top_member T = true) [TUndefined])
    by now repeat constructor.
  assert (HY : no_top_member (if add then mk_union [W; TUndefined] else W) = true
               /\ has_member q (if add then mk_union [W; TUndefined] else W) = true).
  { destruct add; [|now split]. split.
    - apply no_top_member_mk_union. now apply Forall_cons.
    - now apply has_member_keeps. }
  destruct HY as [HY1 HY2].
  destruct (optional && negb _); [|exact HY2].
  now apply has_member_keeps.
Qed.

Lemma deep_admits_everywhere :
  forall opt (q : ty -> bool) a,
    is_remove opt = false ->
    is_unit_type a = true -> q a = true ->
    (forall m, q m = true -> is_unit_type m = true) ->
    forall T, any_free T = true ->
      deeply_admits q (deep_mapped Keep opt (fun X => mk_union [X; a]) T) = true.
Proof.
  intros opt q a Hopt Ha Hqa Hq.
  assert (Hatom : no_top_member a = true) by (destruct a; try discriminate Ha; reflexivity).
  assert (Hmem : members a = [a]) by (destruct a; try discriminate Ha; reflexivity).
  assert (Hwrap : forall X, no_top_member X = true ->
                            no_top_member (mk_union [X; a]) = true
                            /\ has_member q (mk_union [X; a]) = true).
  { intros X HX. split.
    - apply no_top_member_mk_union.
      apply Forall_cons; [exact HX | apply Forall_cons; [exact Hatom | apply Forall_nil]].
    - apply (has_member_mk_union q a); auto.
      cbn [flat_map]. rewrite Hmem. apply in_or_app. right. now left. }
  apply deep_mapped_everywhere.
  - intros X HX. apply everywhere_mk_union.
    apply Forall_cons; [exact HX | apply Forall_cons; [|apply Forall_nil]].
    destruct a; try discriminate Ha; reflexivity.
  - intros p X HX. destruct (Hwrap X HX) as [Hn Hh].
    unfold map_property. cbn [p_type]. rewrite Hopt. cbn [andb].
    exact (modified_type_has_member q (is_add opt) _ _ Hq Hn Hh).
  - intros r e X HX. destruct (Hwrap X HX) as [Hn Hh].
    unfold map_element. rewrite Hopt.
    exact (modified_type_has_member q (is_add opt) (is_add opt) _ Hq Hn Hh).
Qed.

(** X9.  No property of [DeepMutable<T>] or [DeepWritable<T>] is marked
    [readonly], at any nesting depth, and no array in it is a [readonly]
    array.  [T] ranges over the types where no property has type [any]. *)
Theorem DeepMutable_deeply_mutable :
  forall T, any_free T = true ->
            deeply_mutable (DeepMutable T) = true
            /\ deeply_mutable (DeepWritable T) = true.
Proof. intros T H. split; now apply deep_mutable_everywhere. Qed.

Example DeepMutable_deeply_mutable_example :
  any_free (TObject [("id", mkProp true false TNumber);
                     ("tags", mkProp true false (TArray true TString));
                     ("pos", mkProp true false
                               (TObject [("x", mkProp true false TNumber)]))])
  = true
  /\ deeply_mutable
       (DeepMutable (TObject [("id", mkProp true false TNumber);
                              ("tags", mkProp true false (TArray true TString));
                              ("pos", mkProp true false
                                        (TObject [("x", mkProp true false TNumber)]))]))
     = true
  /\ deeply_mutable
       (DeepWritable (TObject [("id", mkProp true false TNumber);
                               ("tags", mkProp true false (TArray true TString));
                               ("pos", mkProp true false
                                         (TObject [("x", mkProp true false TNumber)]))]))
     = true.
Proof.
  split; [reflexivity | apply DeepMutable_deeply_mutable; reflexivity].
Defined.

(** X10.  Every property of [DeepPartial<T>] is optional and its type has
    the member [undefined], at every nesting depth, and so has the element
    type of every array in it: [?] unites the type the template gives with
    [undefined], also when that type admits [void]. *)
Theorem DeepPartial_deeply_optional :
  forall T, any_free T = true -> deeply_optional (DeepPartial T) = true.
Proof. apply (deep_optional_everywhere (fun X => X)); auto. Qed.

Example DeepPartial_deeply_optional_example :
  any_free (TObject [("a", prop (TUnion [TString; TVoid]));
                     ("xs", prop (TArray false TVoid));
                     ("details", prop (TObject [("age", prop TNumber)]))]) = true
  /\ deeply_optional
       (DeepPartial (TObject [("a", prop (TUnion [TString; TVoid]));
                              ("xs", prop (TArray false TVoid));
                              ("details", prop (TObject [("age", prop TNumber)]))]))
     = true.
Proof.
  split; [reflexivity | apply DeepPartial_deeply_optional; reflexivity].
Defined.

(** There [a] becomes [a?: string | void | undefined] and [xs] becomes
    [xs?: (void | undefined)[] | undefined]. *)
Lemma DeepPartial_example_result :
  DeepPartial (TObject [("a", prop (TUnion [TString; TVoid]));
                        ("xs", prop (TArray false TVoid))])
  = TObject [("a", mkProp false true (TUnion [TString; TVoid; TUndefined]));
             ("xs", mkProp false true
                      (TUnion [TArray false (TUnion [TVoid; TUndefined]);
                               TUndefined]))].
Proof. reflexivity. Qed.

(** X11.  No property of [DeepRequired<T>] is optional, at any nesting
    depth, and the element type of no array in it has the member
    [undefined] or [void]: [-?] removes them from the elements of an array
    as it does from the type of an optional property. *)
Theorem DeepRequired_deeply_required :
  forall T, any_free T = true -> deeply_required (DeepRequired T) = true.
Proof. apply deep_required_everywhere. Qed.

Example DeepRequired_deeply_required_example :
  any_free (TObject [("name", mkProp false true (TUnion [TString; TUndefined]));
                     ("xs", prop (TArray false (TUnion [TString; TUndefined])));
                     ("details",
                      mkProp false true
                        (TUnion [TObject [("age", mkProp false true
                                                    (TUnion [TNumber; TUndefined]))];
                                 TUndefined]))]) = true
  /\ deeply_required
       (DeepRequired
          (TObject [("name", mkProp false true (TUnion [TString; TUndefined]));
                    ("xs", prop (TArray false (TUnion [TString; TUndefined])));
                    ("details",
                     mkProp false true
                       (TUnion [TObject [("age", mkProp false true
                                                   (TUnion [TNumber; TUndefined]))];
                                TUndefined]))]))
     = true.
Proof.
  split; [reflexivity | apply DeepRequired_deeply_required; reflexivity].
Defined.

(** There [xs: (string | undefined)[]] becomes [xs: string[]]. *)
Lemma DeepRequired_example_result :
  DeepRequired
    (TObject [("name", mkProp false true (TUnion [TString; TUndefined]));
              ("xs", prop (TArray false (TUnion [TString; TUndefined])))])
  = TObject [("name", prop TString); ("xs", prop (TArray false TString))].
Proof. reflexivity. Qed.

(** X12.  At every nesting depth the type of every property, and of every
    array element, of [DeepNullable<T>] has the member [null], that of
    [DeepMaybe<T>] the member [undefined] and that of [DeepVoidable<T>] the
    member [void]. *)
Theorem Deep_wrappers_admit :
  forall T, any_free T = true ->
    deeply_admits is_null (DeepNullable T) = true
    /\ deeply_admits is_undefined (DeepMaybe T) = true
    /\ deeply_admits is_void (DeepVoidable T) = true.
Proof.
  intros T H. repeat split.
  - apply (deep_admits_everywhere Keep is_null TNull); auto.
    intros m Hm. now destruct m.
  - apply (deep_admits_everywhere Keep is_undefined TUndefined); auto.
    intros m Hm. now destruct m.
  - apply (deep_admits_everywhere Keep is_void TVoid); auto.
    intros m Hm. now destruct m.
Qed.

Example Deep_wrappers_admit_example :
  any_free (TObject [("name", prop TString);
                     ("details", prop (TObject [("age", prop TNumber)]))]) = true
  /\ deeply_admits is_null
       (DeepNullable (TObject [("name", prop TString);
                               ("details", prop (TObject [("age", prop TNumber)]))]))
     = true
  /\ deeply_admits is_undefined
       (DeepMaybe (TObject [("name", prop TString);
                            ("details", prop (TObject [("age", prop TNumber)]))]))
     = true
  /\ deeply_admits is_void
       (DeepVoidable (TObject [("name", prop TString);
                               ("details", prop (TObject [("age", prop TNumber)]))]))
     = true.
Proof.
  split; [reflexivity | apply Deep_wrappers_admit; reflexivity].
Defined.

(** X13.  Every property of [DeepOptionalNullable<T>] is optional and its
    type has the members [undefined] and [null], at every nesting depth,
    and so has the element type of every array in it. *)
Theorem DeepOptionalNullable_optional_and_null :
  forall T, any_free T = true ->
    deeply_optional (DeepOptionalNullable T) = true
    /\ deeply_admits is_null (DeepOptionalNullable T) = true.
Proof.
  intros T H. split.
  - apply (deep_optional_everywhere (fun X => mk_union [X; TNull])); auto.
    + intros X HX. apply no_top_member_mk_union.
      apply Forall_cons; [exact HX | now repeat constructor].
    + intros X HX. apply everywhere_mk_union.
      apply Forall_cons; [exact HX | now repeat constructor].
  - apply (deep_admits_everywhere Add is_null TNull); auto.
    intros m Hm. now destruct m.
Qed.

Example DeepOptionalNullable_optional_and_null_example :
  any_free (TObject [("a", prop TVoid);
                     ("details", prop (TObject [("age", prop TNumber)]))]) = true
  /\ deeply_optional
       (DeepOptionalNullable
          (TObject [("a", prop TVoid);
                    ("details", prop (TObject [("age", prop TNumber)]))]))
     = true
  /\ deeply_admits is_null
       (DeepOptionalNullable
          (TObject [("a", prop TVoid);
                    ("details", prop (TObject [("age", prop TNumber)]))]))
     = true.
Proof.
  split; [reflexivity | apply DeepOptionalNullable_optional_and_null; reflexivity].
Defined.

(** There [a: void] becomes [a?: void | null | undefined]. *)
Lemma DeepOptionalNullable_example_result :
  DeepOptionalNullable (TObject [("a", prop TVoid)])
  = TObject [("a", mkProp false true (TUnion [TVoid; TNull; TUndefined]))].
Proof. reflexivity. Qed.
(** * How the recursive mapped aliases compose *)

(** ** Unions of unions *)

Lemma dedupe_app_r :
  forall X Y, dedupe (X ++ dedupe Y)%list = dedupe (X ++ Y)%list.
Proof.
  induction X as [|x X IH]; intros Y; simpl; [apply dedupe_idem|].
  now rewrite IH.
Qed.

Lemma dedupe_app_l :
  forall X Y, dedupe (dedupe X ++ Y)%list = dedupe (X ++ Y)%list.
Proof.
  induction X as [|x X IH]; intros Y; [reflexivity|].
  cbn [dedupe app]. f_equal. rewrite <- (IH Y).
  set (q := fun y => negb (ty_eqb x y)).
  rewrite <- (dedupe_filter q (filter q (dedupe X) ++ Y)%list).
  rewrite <- (dedupe_filter q (dedupe X ++ Y)%list).
  rewrite !filter_app. f_equal. f_equal.
  apply filter_absorb. auto.
Qed.

Lemma existsb_dedupe :
  forall (f : ty -> bool) l, existsb f (dedupe l) = existsb f l.
Proof.
  intros f l. destruct (existsb f l) eqn:E.
  - apply existsb_exists in E as [x [Hx Hf]]. apply existsb_exists.
    exists x. split; [now apply in_dedupe | exact Hf].
  - destruct (existsb f (dedupe l)) eqn:E'; [|reflexivity].
    apply existsb_exists in E' as [x [Hx Hf]].
    apply (proj1 (in_dedupe _ _)) in Hx.
    assert (existsb f l = true) by (apply existsb_exists; eauto). congruence.
Qed.

Lemma existsb_reduce_literals :
  forall (f : ty -> bool) l,
    (forall s, f (TStrLit s) = false) -> (forall n, f (TNumLit n) = false) ->
    existsb f (reduce_literals l) = existsb f l.
Proof.
  intros f l Hs Hn. unfold reduce_literals. apply existsb_filter_keep.
  intros x Hx. destruct x; try reflexivity.
  - now rewrite Hs in Hx.
  - now rewrite Hn in Hx.
Qed.

Lemma reduce_literals_kept :
  forall l, reduce_literals l
            = filter (literal_kept (existsb is_string l) (existsb is_number l)) l.
Proof. reflexivity. Qed.

Lemma normal_form_app :
  forall A B,
    dedupe (reduce_literals (dedupe (reduce_literals A) ++ dedupe (reduce_literals B))%list)
    = dedupe (reduce_literals (A ++ B)%list).
Proof.
  intros A B0.
  rewrite (reduce_literals_kept (_ ++ _)%list), (reduce_literals_kept (A ++ B0)%list).
  rewrite !existsb_app, !existsb_dedupe.
  rewrite !existsb_reduce_literals by reflexivity.
  set (P := literal_kept (existsb is_string A || existsb is_string B0)
                         (existsb is_number A || existsb is_number B0)).
  rewrite !filter_app, <- !dedupe_filter.
  rewrite dedupe_app_l, dedupe_app_r. f_equal. f_equal.
  - rewrite reduce_literals_kept. apply filter_absorb.
    intros y _. unfold P. destruct y; auto; cbn [literal_kept];
      intros E; apply negb_true_iff in E; apply orb_false_iff in E as [E _];
      now rewrite E.
  - rewrite reduce_literals_kept. apply filter_absorb.
    intros y _. unfold P. destruct y; auto; cbn [literal_kept];
      intros E; apply negb_true_iff in E; apply orb_false_iff in E as [_ E];
      now rewrite E.
Qed.

Lemma existsb_members_of_members :
  forall (f : ty -> bool) A,
    Forall (fun m => is_atom m = true) A ->
    existsb f A = false -> existsb f (members (of_members A)) = false.
Proof.
  intros f A Hat E. destruct (existsb f (members (of_members A))) eqn:E';
    [|reflexivity].
  apply existsb_exists in E' as [x [Hx Hf]].
  apply (members_of_members A x Hat) in Hx.
  assert (existsb f A = true) by (apply existsb_exists; eauto). congruence.
Qed.

Lemma of_members_any :
  forall l, existsb is_any l = true -> of_members l = TAny.
Proof. intros l E. unfold of_members. now rewrite E. Qed.

Lemma of_members_unknown :
  forall l, existsb is_any l = false -> existsb is_unknown l = true ->
            of_members l = TUnknown.
Proof. intros l Ea Eu. unfold of_members. now rewrite Ea, Eu. Qed.

Lemma of_members_plain :
  forall l, existsb is_any l = false -> existsb is_unknown l = false ->
    of_members l
    = match dedupe (reduce_literals l) with
      | [] => TNever
      | [t] => t
      | ms => TUnion ms
      end.
Proof. intros l Ea Eu. unfold of_members. now rewrite Ea, Eu. Qed.

(** Building a union of unions is building the union of all the members. *)
Lemma of_members_app :
  forall A B,
    Forall (fun m => is_atom m = true) A -> Forall (fun m => is_atom m = true) B ->
    of_members (members (of_members A) ++ members (of_members B))%list
    = of_members (A ++ B)%list.
Proof.
  intros A B0 HA HB.
  destruct (existsb is_any A) eqn:EaA.
  { rewrite (of_members_any A EaA).
    rewrite !of_members_any; [reflexivity | |]; rewrite existsb_app.
    - now rewrite EaA.
    - reflexivity. }
  destruct (existsb is_any B0) eqn:EaB.
  { rewrite (of_members_any B0 EaB).
    rewrite !of_members_any; [reflexivity | |]; rewrite existsb_app.
    - now rewrite EaB, orb_true_r.
    - cbn. now rewrite orb_true_r. }
  pose proof (existsb_members_of_members is_any A HA EaA) as EaA'.
  pose proof (existsb_members_of_members is_any B0 HB EaB) as EaB'.
  destruct (existsb is_unknown A) eqn:EuA.
  { rewrite (of_members_unknown A EaA EuA).
    rewrite !of_members_unknown; try reflexivity; rewrite existsb_app.
    - now rewrite EaA, EaB.
    - now rewrite EuA.
    - cbn. exact EaB'. }
  destruct (existsb is_unknown B0) eqn:EuB.
  { rewrite (of_members_unknown B0 EaB EuB).
    rewrite !of_members_unknown; try reflexivity; rewrite existsb_app.
    - now rewrite EaA, EaB.
    - now rewrite EuB, orb_true_r.
    - now rewrite EaA'.
    - cbn. now rewrite orb_true_r. }
  pose proof (existsb_members_of_members is_unknown A HA EuA) as EuA'.
  pose proof (existsb_members_of_members is_unknown B0 HB EuB) as EuB'.
  rewrite (of_members_plain (A ++ B0)%list)
    by (rewrite existsb_app; now rewrite ?EaA, ?EaB, ?EuA, ?EuB).
  rewrite (of_members_plain (_ ++ _)%list)
    by (rewrite existsb_app; now rewrite ?EaA', ?EaB', ?EuA', ?EuB').
  rewrite (members_of_members_atoms A HA EaA EuA),
          (members_of_members_atoms B0 HB EaB EuB).
  now rewrite normal_form_app.
Qed.

Lemma atoms_flat_map_members :
  forall l, Forall (fun m => is_atom m = true) (flat_map members l).
Proof.
  intros l. apply Forall_forall. intros x Hx.
  apply in_flat_map in Hx as [y [_ Hy]].
  pose proof (members_are_atoms y) as Hat. rewrite Forall_forall in Hat. auto.
Qed.

Lemma mk_union_app :
  forall l1 l2, mk_union [mk_union l1; mk_union l2] = mk_union (l1 ++ l2)%list.
Proof.
  intros l1 l2. unfold mk_union at 1. cbn [flat_map]. rewrite app_nil_r.
  unfold mk_union. rewrite flat_map_app.
  apply of_members_app; apply atoms_flat_map_members.
Qed.

(** Unions are built member by member: replacing each type by one with
    the same normal form does not change the union. *)
Lemma mk_union_pointwise :
  forall (A : Type) (f g : A -> ty) l,
    (forall x, In x l -> mk_union [f x] = mk_union [g x]) ->
    mk_union (map f l) = mk_union (map g l).
Proof.
  intros A f g l H. induction l as [|x r IH]; [reflexivity|].
  cbn [map].
  change (f x :: map f r) with ([f x] ++ map f r)%list.
  change (g x :: map g r) with ([g x] ++ map g r)%list.
  rewrite <- !mk_union_app, (H x (or_introl eq_refl)), IH; [reflexivity|].
  intros y Hy. apply H. now right.
Qed.

Lemma of_members_flat_map :
  forall (A : Type) (h : A -> list ty) l,
    (forall x, Forall (fun m => is_atom m = true) (h x)) ->
    of_members (flat_map (fun x => members (of_members (h x))) l)
    = of_members (flat_map h l).
Proof.
  intros A h l Hh. induction l as [|x r IH]; [reflexivity|].
  cbn [flat_map].
  assert (Hr : Forall (fun m => is_atom m = true) (flat_map h r)).
  { apply Forall_forall. intros y Hy. apply in_flat_map in Hy as [z [_ Hz]].
    specialize (Hh z). rewrite Forall_forall in Hh. auto. }
  assert (Hr' : Forall (fun m => is_atom m = true)
                       (flat_map (fun x => members (of_members (h x))) r)).
  { apply Forall_forall. intros y Hy. apply in_flat_map in Hy as [z [_ Hz]].
    pose proof (members_are_atoms (of_members (h z))) as Hat.
    rewrite Forall_forall in Hat. auto. }
  rewrite <- (of_members_app (h x) (flat_map h r) (Hh x) Hr).
  rewrite <- (of_members_app _ _ (members_are_atoms _) Hr').
  rewrite (of_members_idem (h x) (Hh x)), IH. reflexivity.
Qed.

Lemma map_flat_map_members :
  forall (F : ty -> ty) l,
    map F (flat_map members l) = flat_map (fun T => map F (members T)) l.
Proof.
  intros F l. induction l as [|x r IH]; [reflexivity|].
  cbn [flat_map]. now rewrite map_app, IH.
Qed.

Lemma dedupe_map_dedupe :
  forall (f : ty -> ty) R, dedupe (map f (dedupe R)) = dedupe (map f R).
Proof.
  intros f R. induction R as [|x R IH]; [reflexivity|].
  cbn [dedupe map]. f_equal. rewrite <- IH.
  set (q := fun y => negb (ty_eqb (f x) y)).
  rewrite <- (dedupe_filter q (map f (filter _ (dedupe R)))).
  rewrite <- (dedupe_filter q (map f (dedupe R))).
  f_equal. generalize (dedupe R). intros Z.
  induction Z as [|z Z IHZ]; [reflexivity|].
  cbn [filter map]. destruct (ty_eqb x z) eqn:E; cbn [negb].
  - apply ty_eqb_sound in E. subst z. unfold q at 2. rewrite ty_eqb_refl.
    cbn [negb]. exact IHZ.
  - cbn [map filter]. now rewrite IHZ.
Qed.

(** ** Mapped types and unions *)

Section homomorphic_unions.
Variables (ro opt : modifier) (template : ty -> ty).
Let F := homomorphic ro opt template.

Lemma homomorphic_atom : forall m, is_atom m = true -> is_atom (F m) = true.
Proof. destruct m; intros E; try discriminate E; reflexivity. Qed.

Lemma homomorphic_plain :
  forall m, is_atom m = true -> is_unknown (F m) = false /\ is_any (F m) = is_any m.
Proof. destruct m; intros E; try discriminate E; split; reflexivity. Qed.

Lemma homomorphic_literal_kept :
  forall hs hn m, is_atom m = true ->
    literal_kept hs hn (F m) = literal_kept hs hn m
    /\ is_string (F m) = is_string m /\ is_number (F m) = is_number m.
Proof. destruct m; intros E; try discriminate E; repeat split; reflexivity. Qed.

Lemma homomorphic_unit :
  forall (q : ty -> bool) m,
    (forall x, q x = true -> is_unit_type x = true) ->
    is_atom m = true -> q (F m) = q m.
Proof.
  intros q m Hq Hat.
  destruct m; try discriminate Hat; try reflexivity.
  - destruct (q (F TUnknown)) eqn:E1, (q TUnknown) eqn:E2; try reflexivity;
      [apply Hq in E1 | apply Hq in E2]; discriminate.
  - destruct (q (F (TObject props))) eqn:E1, (q (TObject props)) eqn:E2;
      try reflexivity; [apply Hq in E1 | apply Hq in E2]; discriminate.
  - destruct (q (F (TArray ro0 m))) eqn:E1, (q (TArray ro0 m)) eqn:E2;
      try reflexivity; [apply Hq in E1 | apply Hq in E2]; discriminate.
  - destruct (q (F (TFun params m))) eqn:E1, (q (TFun params m)) eqn:E2;
      try reflexivity; [apply Hq in E1 | apply Hq in E2]; discriminate.
Qed.

Lemma homomorphic_atoms :
  forall L, Forall (fun m => is_atom m = true) L ->
            Forall (fun m => is_atom m = true) (map F L).
Proof.
  intros L H. apply Forall_forall. intros x Hx.
  apply in_map_iff in Hx as [m [<- Hm]]. rewrite Forall_forall in H.
  apply homomorphic_atom. auto.
Qed.

Lemma existsb_map_homomorphic :
  forall (f : ty -> bool) L,
    Forall (fun m => is_atom m = true) L ->
    (forall m, is_atom m = true -> f (F m) = f m) ->
    existsb f (map F L) = existsb f L.
Proof.
  intros f L H Hf. induction H as [|x r Hx _ IH]; [reflexivity|].
  cbn [map existsb]. now rewrite IH, Hf.
Qed.

Lemma reduce_literals_map :
  forall L, Forall (fun m => is_atom m = true) L ->
            reduce_literals (map F L) = map F (reduce_literals L).
Proof.
  intros L H. rewrite !reduce_literals_kept.
  rewrite (existsb_map_homomorphic is_string L H),
          (existsb_map_homomorphic is_number L H).
  - generalize (existsb is_string L) (existsb is_number L). intros hs hn.
    induction H as [|x r Hx _ IH]; [reflexivity|].
    cbn [map filter].
    destruct (homomorphic_literal_kept hs hn x Hx) as [-> _].
    destruct (literal_kept hs hn x); cbn [map]; now rewrite IH.
  - intros m Hm. now destruct (homomorphic_literal_kept false false m Hm) as [_ [_ ->]].
  - intros m Hm. now destruct (homomorphic_literal_kept false false m Hm) as [_ [-> _]].
Qed.

Lemma normal_form_atoms :
  forall L, Forall (fun m => is_atom m = true) L ->
            Forall (fun m => is_atom m = true) (dedupe (reduce_literals L)).
Proof.
  intros L H. apply Forall_forall. intros x Hx. rewrite Forall_forall in H.
  apply (proj1 (in_dedupe _ _)) in Hx. apply in_reduce_literals in Hx. auto.
Qed.

Lemma of_members_map_normal_form :
  forall L, Forall (fun m => is_atom m = true) L ->
    existsb is_any L = false ->
    of_members (map F (dedupe (reduce_literals L))) = of_members (map F L).
Proof.
  intros L H Ea.
  assert (Hany : forall L', Forall (fun m => is_atom m = true) L' ->
                   existsb is_any (map F L') = existsb is_any L').
  { intros L' H'. apply existsb_map_homomorphic; [exact H'|].
    intros m Hm. now destruct (homomorphic_plain m Hm). }
  assert (Hunk : forall L', Forall (fun m => is_atom m = true) L' ->
                   existsb is_unknown (map F L') = false).
  { intros L' H'. destruct (existsb is_unknown (map F L')) eqn:E; [|reflexivity].
    apply existsb_exists in E as [x [Hx Ex]].
    apply in_map_iff in Hx as [m [<- Hm]]. rewrite Forall_forall in H'.
    destruct (homomorphic_plain m (H' m Hm)). congruence. }
  pose proof (normal_form_atoms L H) as HD.
  rewrite !of_members_plain; auto.
  - rewrite !reduce_literals_map by assumption.
    now rewrite reduce_literals_idem, dedupe_map_dedupe.
  - now rewrite Hany.
  - rewrite Hany by assumption. rewrite existsb_dedupe.
    rewrite existsb_reduce_literals by reflexivity. exact Ea.
Qed.

(** The mapped type of a union the checker has built is the union of the
    mapped types of its members. *)
Lemma homomorphic_of_members :
  forall L, Forall (fun m => is_atom m = true) L ->
    existsb is_unknown L = false ->
    F (of_members L) = of_members (map F L).
Proof.
  intros L H Eu. destruct (existsb is_any L) eqn:Ea.
  { rewrite (of_members_any L Ea). symmetry. apply of_members_any.
    apply existsb_exists in Ea as [x [Hx Ex]]. apply existsb_exists.
    exists (F x). split; [now apply in_map|]. now destruct x. }
  rewrite <- (of_members_map_normal_form L H Ea).
  rewrite (of_members_plain L Ea Eu).
  pose proof (normal_form_atoms L H) as HD.
  destruct (dedupe (reduce_literals L)) as [|t [|t' r]].
  - reflexivity.
  - cbn [map]. symmetry. apply of_members_single, homomorphic_atom.
    now inversion HD.
  - change (F (TUnion (t :: t' :: r))) with (mk_union (map F (t :: t' :: r))).
    unfold mk_union. now rewrite (flat_map_members_atoms _ (homomorphic_atoms _ HD)).
Qed.

Lemma mk_union_map_members :
  forall l,
    (forall x, In x l -> mk_union [F x] = of_members (map F (members x))) ->
    mk_union (map F l) = of_members (map F (flat_map members l)).
Proof.
  intros l H.
  rewrite (mk_union_pointwise ty F (fun m => of_members (map F (members m))) l).
  - unfold mk_union. rewrite flat_map_concat_map, map_map, <- flat_map_concat_map.
    rewrite map_flat_map_members.
    apply (of_members_flat_map ty (fun m => map F (members m))).
    intros x. apply homomorphic_atoms, members_are_atoms.
  - intros x Hx. rewrite (H x Hx).
    unfold mk_union. cbn [flat_map]. rewrite app_nil_r. symmetry.
    apply of_members_idem, homomorphic_atoms, members_are_atoms.
Qed.

Lemma homomorphic_normal_form :
  forall T, mk_union [F T] = of_members (map F (members T)).
Proof.
  induction T using ty_nested_ind; try reflexivity.
  change (F (TUnion ms)) with (mk_union (map F ms)).
  rewrite mk_union_idem. cbn [members]. apply mk_union_map_members.
  now rewrite Forall_forall in H.
Qed.

(** A mapped type distributes over a union that has no [unknown]
    member. *)
Lemma homomorphic_mk_union :
  forall l, existsb is_unknown (flat_map members l) = false ->
            F (mk_union l) = mk_union (map F l).
Proof.
  intros l Eu. unfold mk_union at 1.
  rewrite (homomorphic_of_members _ (atoms_flat_map_members l) Eu).
  symmetry. apply mk_union_map_members.
  intros x _. apply homomorphic_normal_form.
Qed.

End homomorphic_unions.

Lemma no_top_member_tops :
  forall T, no_top_member T = true ->
    existsb is_any (members T) = false /\ existsb is_unknown (members T) = false.
Proof. intros T H. apply no_any_member, no_top_member_plain, H. Qed.

Lemma has_member_normal :
  forall (q : ty -> bool) X,
    (forall x, q x = true -> is_unit_type x = true) ->
    no_top_member X = true ->
    has_member q (mk_union [X]) = has_member q X.
Proof.
  intros q X Hq HX. unfold has_member, mk_union. cbn [flat_map].
  rewrite app_nil_r. destruct (no_top_member_tops X HX) as [Ea Eu].
  rewrite (members_of_members_atoms _ (members_are_atoms X) Ea Eu).
  rewrite existsb_dedupe. apply existsb_reduce_literals.
  - intros s. destruct (q (TStrLit s)) eqn:E; [|reflexivity].
    apply Hq in E. discriminate.
  - intros n. destruct (q (TNumLit n)) eqn:E; [|reflexivity].
    apply Hq in E. discriminate.
Qed.

Section homomorphic_members.
Variables (ro opt : modifier) (template : ty -> ty).
Let F := homomorphic ro opt template.

Lemma homomorphic_no_top :
  forall T, existsb is_any (members T) = false -> no_top_member (F T) = true.
Proof.
  induction T using ty_nested_ind; intros HT; try reflexivity;
    try discriminate HT.
  change (F (TUnion ms)) with (mk_union (map F ms)).
  apply no_top_member_mk_union. cbn [members] in HT.
  rewrite Forall_forall in *. intros x Hx. apply in_map_iff in Hx as [m [<- Hm]].
  apply H; [exact Hm|].
  destruct (existsb is_any (members m)) eqn:E; [|reflexivity].
  apply existsb_exists in E as [a [Ha Ea]].
  assert (existsb is_any (flat_map members ms) = true).
  { apply existsb_exists. exists a. split; [|exact Ea].
    apply in_flat_map. eauto. }
  congruence.
Qed.

(** A mapped type has a [null], [undefined] or [void] member exactly when
    the type it maps has. *)
Lemma homomorphic_has_member :
  forall (q : ty -> bool) T,
    (forall x, q x = true -> is_unit_type x = true) ->
    existsb is_any (members T) = false ->
    has_member q (F T) = has_member q T.
Proof.
  intros q T Hq Ea.
  rewrite <- (has_member_normal q (F T) Hq (homomorphic_no_top T Ea)).
  unfold F. rewrite homomorphic_normal_form. fold F.
  pose proof (homomorphic_atoms ro opt template _ (members_are_atoms T)) as Hat.
  fold F in Hat.
  unfold has_member. rewrite members_of_members_atoms; auto.
  - rewrite existsb_dedupe, existsb_reduce_literals.
    + apply (existsb_map_homomorphic ro opt template); [apply members_are_atoms|].
      intros m Hm. now apply homomorphic_unit.
    + intros s. destruct (q (TStrLit s)) eqn:E; [|reflexivity].
      apply Hq in E. discriminate.
    + intros n. destruct (q (TNumLit n)) eqn:E; [|reflexivity].
      apply Hq in E. discriminate.
  - rewrite <- Ea.
    apply (existsb_map_homomorphic ro opt template); [apply members_are_atoms|].
    intros m Hm. now destruct (homomorphic_plain ro opt template m Hm).
  - destruct (existsb is_unknown (map F (members T))) eqn:E; [|reflexivity].
    apply existsb_exists in E as [x [Hx Ex]].
    apply in_map_iff in Hx as [m [<- Hm]].
    pose proof (members_are_atoms T) as HatT. rewrite Forall_forall in HatT.
    destruct (homomorphic_plain ro opt template m (HatT m Hm)) as [E0 _].
    unfold F in Ex. congruence.
Qed.

End homomorphic_members.

(** ** Composing the recursive mapped aliases *)

Section deep_mapped_compose.
Variables (r1 r2 o1 o2 : modifier).
Hypothesis o1_keeps : is_remove o1 = false.
Hypothesis o2_keeps : is_remove o2 = false.
Let F1 := deep_mapped r1 o1 (fun X => X).
Let F2 := deep_mapped r2 o2 (fun X => X).
Let F12 := deep_mapped (after r2 r1) (after o2 o1) (fun X => X).

Lemma F2_homomorphic : forall T, F2 T = homomorphic r2 o2 F2 T.
Proof. intros T. unfold F2. now rewrite deep_mapped_unfold at 1. Qed.

Lemma F1_homomorphic : forall T, F1 T = homomorphic r1 o1 F1 T.
Proof. intros T. unfold F1. now rewrite deep_mapped_unfold at 1. Qed.

Lemma F12_homomorphic :
  forall T, F12 T = homomorphic (after r2 r1) (after o2 o1) F12 T.
Proof. intros T. unfold F12. now rewrite deep_mapped_unfold at 1. Qed.

(** Uniting with [undefined] twice is uniting with it once. *)
Lemma union_undefined_twice :
  forall A, mk_union [mk_union [A; TUndefined]; TUndefined]
            = mk_union [A; TUndefined].
Proof.
  intros A.
  change (mk_union [mk_union [A; TUndefined]; TUndefined])
    with (mk_union [mk_union [A; TUndefined]; mk_union [TUndefined]]).
  rewrite mk_union_app.
  change ([A; TUndefined] ++ [TUndefined])%list
    with ([A] ++ [TUndefined; TUndefined])%list.
  rewrite <- mk_union_app.
  change (mk_union [TUndefined; TUndefined]) with (mk_union [TUndefined]).
  now rewrite mk_union_app.
Qed.

(** What the modifiers do to the type [W] the template gives, when no [-?]
    is involved: [add] is the [?] modifier, [optional] whether the property
    ends up optional. *)
Let modified (add optional : bool) (W : ty) : ty :=
  let propType := if add then mk_union [W; TUndefined] else W in
  if optional && negb (maybe_undefined_or_void propType)
  then mk_union [propType; TUndefined]
  else propType.

Lemma modified_compose :
  forall TP (add1 c1 add2 c2 : bool),
    any_free TP = true -> F2 (F1 TP) = F12 TP ->
    modified add2 c2 (F2 (modified add1 c1 (F1 TP)))
    = modified (add1 || add2) (c1 || c2) (F12 TP).
Proof.
  intros TP add1 c1 add2 c2 Hfree IH. unfold modified.
  assert (Hno1 : no_top_member (F1 TP) = true) by (now apply deep_mapped_no_top).
  assert (Hno12 : no_top_member (F12 TP) = true) by (now apply deep_mapped_no_top).
  assert (Hb : maybe_undefined_or_void (F12 TP) = maybe_undefined_or_void (F1 TP)).
  { rewrite <- IH, F2_homomorphic.
    apply (homomorphic_has_member r2 o2 F2 (fun m => is_undefined m || is_void m)).
    - intros x Hx. now destruct x.
    - now destruct (no_top_member_tops _ Hno1). }
  assert (Hc : F2 (mk_union [F1 TP; TUndefined]) = mk_union [F12 TP; TUndefined]).
  { rewrite F2_homomorphic, homomorphic_mk_union.
    - cbn [map]. rewrite <- F2_homomorphic, IH. reflexivity.
    - cbn [flat_map members]. rewrite app_nil_r, existsb_app.
      destruct (no_top_member_tops _ Hno1) as [_ ->]. reflexivity. }
  assert (Hd : forall W, no_top_member W = true ->
                 maybe_undefined_or_void (mk_union [W; TUndefined]) = true).
  { intros W HW.
    apply (has_member_mk_union (fun m => is_undefined m || is_void m) TUndefined);
      try reflexivity.
    - now repeat constructor.
    - cbn [flat_map]. apply in_or_app. right. now left. }
  pose proof (Hd _ Hno1) as Hd1. pose proof (Hd _ Hno12) as Hd12.
  pose proof (union_undefined_twice (F12 TP)) as He.
  destruct add1, add2, c1, c2, (maybe_undefined_or_void (F1 TP)) eqn:E;
    cbn [andb negb orb];
    rewrite ?Hd1; cbn [andb negb];
    rewrite ?Hc, ?IH; rewrite ?Hd12, ?Hb, ?E; cbn [andb negb];
    rewrite ?He, ?Hd12; cbn [andb negb]; reflexivity.
Qed.

Lemma deep_mapped_compose :
  forall T, any_free T = true -> F2 (F1 T) = F12 T.
Proof.
  induction T using ty_nested_ind; intros Hfree; try reflexivity;
    try discriminate Hfree.
  - rewrite F1_homomorphic, F12_homomorphic. cbn [homomorphic].
    rewrite F2_homomorphic. cbn [homomorphic].
    rewrite map_map. f_equal. apply map_ext_in. intros [k p] Hin.
    cbn [fst snd]. f_equal.
    simpl in Hfree. rewrite forallb_forall in Hfree.
    rewrite Forall_forall in H.
    pose proof (H _ Hin (Hfree _ Hin)) as IH. cbn [snd] in IH.
    pose proof (Hfree _ Hin) as Hp. cbn [snd] in Hp.
    unfold map_property. cbn [p_readonly p_optional p_type].
    rewrite o1_keeps, o2_keeps.
    assert (Hr : is_remove (after o2 o1) = false)
      by (destruct o2, o1; try discriminate; reflexivity).
    rewrite Hr. cbn [andb]. f_equal.
    + destruct r2, r1; reflexivity.
    + destruct o2, o1; try discriminate; reflexivity.
    + pose proof (modified_compose (p_type p)
                    (is_add o1) (apply_modifier o1 (p_optional p))
                    (is_add o2)
                    (apply_modifier o2 (apply_modifier o1 (p_optional p)))
                    Hp IH) as E.
      unfold modified in E.
      replace (apply_modifier (after o2 o1) (p_optional p))
        with (apply_modifier o1 (p_optional p)
              || apply_modifier o2 (apply_modifier o1 (p_optional p)))
        by (destruct o2, o1, (p_optional p); try discriminate; reflexivity).
      replace (is_add (after o2 o1)) with (is_add o1 || is_add o2)
        by (destruct o2, o1; try discriminate; reflexivity).
      exact E.
  - rewrite F1_homomorphic, F12_homomorphic. cbn [homomorphic].
    rewrite F2_homomorphic. cbn [homomorphic].
    simpl in Hfree. specialize (IHT Hfree). f_equal.
    + destruct r2, r1; reflexivity.
    + unfold map_element. rewrite o1_keeps, o2_keeps.
      assert (Hr : is_remove (after o2 o1) = false)
        by (destruct o2, o1; try discriminate; reflexivity).
      rewrite Hr.
      pose proof (modified_compose T (is_add o1) (is_add o1) (is_add o2) (is_add o2)
                    Hfree IHT) as E.
      unfold modified in E.
      replace (is_add (after o2 o1)) with (is_add o1 || is_add o2)
        by (destruct o2, o1; try discriminate; reflexivity).
      exact E.
  - rewrite F1_homomorphic, F12_homomorphic. cbn [homomorphic].
    rewrite (map_ext (homomorphic r1 o1 F1) F1)
      by (intros; symmetry; apply F1_homomorphic).
    rewrite (map_ext (homomorphic (after r2 r1) (after o2 o1) F12) F12)
      by (intros; symmetry; apply F12_homomorphic).
    rewrite F2_homomorphic.
    simpl in Hfree. rewrite forallb_forall in Hfree. rewrite Forall_forall in H.
    rewrite homomorphic_mk_union.
    + rewrite map_map. f_equal. apply map_ext_in. intros m Hm.
      rewrite <- F2_homomorphic. auto.
    + destruct (existsb is_unknown (flat_map members (map F1 ms))) eqn:E;
        [|reflexivity].
      apply existsb_exists in E as [x [Hx Ex]].
      apply in_flat_map in Hx as [y [Hy Hx]].
      apply in_map_iff in Hy as [m [<- Hm]].
      pose proof (deep_mapped_no_top r1 o1 (fun X => X) m (Hfree m Hm)) as Hno.
      destruct (no_top_member_tops _ Hno) as [_ Eu].
      assert (existsb is_unknown (members (F1 m)) = true)
        by (apply existsb_exists; eauto).
      unfold F1 in *. congruence.
Qed.

End deep_mapped_compose.

(** X14.  [DeepMutable] undoes [DeepReadonly] and the other way round:
    [DeepMutable<DeepReadonly<T>>] is [DeepMutable<T>] and
    [DeepReadonly<DeepMutable<T>>] is [DeepReadonly<T>].  [T] ranges over
    the types where no property has type [any]. *)
Theorem DeepMutable_DeepReadonly :
  forall T, any_free T = true ->
    DeepMutable (DeepReadonly T) = DeepMutable T
    /\ DeepReadonly (DeepMutable T) = DeepReadonly T.
Proof.
  intros T H. split.
  - exact (deep_mapped_compose Add Remove Keep Keep eq_refl eq_refl T H).
  - exact (deep_mapped_compose Remove Add Keep Keep eq_refl eq_refl T H).
Qed.

Example DeepMutable_DeepReadonly_example :
  any_free (TObject [("id", mkProp true false TNumber);
                     ("tags", prop (TArray false TString))]) = true
  /\ DeepMutable (DeepReadonly (TObject [("id", mkProp true false TNumber);
                                         ("tags", prop (TArray false TString))]))
     = DeepMutable (TObject [("id", mkProp true false TNumber);
                             ("tags", prop (TArray false TString))])
  /\ DeepReadonly (DeepMutable (TObject [("id", mkProp true false TNumber);
                                         ("tags", prop (TArray false TString))]))
     = DeepReadonly (TObject [("id", mkProp true false TNumber);
                              ("tags", prop (TArray false TString))]).
Proof.
  split; [reflexivity | apply DeepMutable_DeepReadonly; reflexivity].
Defined.

(** X15.  [DeepReadonly], [DeepMutable] and [DeepPartial] are idempotent:
    a second application changes nothing. *)
Theorem Deep_idempotent :
  forall T, any_free T = true ->
    DeepReadonly (DeepReadonly T) = DeepReadonly T
    /\ DeepMutable (DeepMutable T) = DeepMutable T
    /\ DeepPartial (DeepPartial T) = DeepPartial T.
Proof.
  intros T H. repeat split.
  - exact (deep_mapped_compose Add Add Keep Keep eq_refl eq_refl T H).
  - exact (deep_mapped_compose Remove Remove Keep Keep eq_refl eq_refl T H).
  - exact (deep_mapped_compose Keep Keep Add Add eq_refl eq_refl T H).
Qed.

Example Deep_idempotent_example :
  any_free (TObject [("a", prop (TUnion [TString; TVoid]));
                     ("xs", mkProp true false (TArray true TVoid))]) = true
  /\ DeepReadonly
       (DeepReadonly (TObject [("a", prop (TUnion [TString; TVoid]));
                               ("xs", mkProp true false (TArray true TVoid))]))
     = DeepReadonly (TObject [("a", prop (TUnion [TString; TVoid]));
                              ("xs", mkProp true false (TArray true TVoid))])
  /\ DeepMutable
       (DeepMutable (TObject [("a", prop (TUnion [TString; TVoid]));
                              ("xs", mkProp true false (TArray true TVoid))]))
     = DeepMutable (TObject [("a", prop (TUnion [TString; TVoid]));
                             ("xs", mkProp true false (TArray true TVoid))])
  /\ DeepPartial
       (DeepPartial (TObject [("a", prop (TUnion [TString; TVoid]));
                              ("xs", mkProp true false (TArray true TVoid))]))
     = DeepPartial (TObject [("a", prop (TUnion [TString; TVoid]));
                             ("xs", mkProp true false (TArray true TVoid))]).
Proof.
  split; [reflexivity | apply Deep_idempotent; reflexivity].
Defined.

(** X16.  [DeepPartial] and [DeepReadonly] commute: the two modifiers are
    independent, so [DeepPartial<DeepReadonly<T>>] is
    [DeepReadonly<DeepPartial<T>>]. *)
Theorem DeepPartial_DeepReadonly_commute :
  forall T, any_free T = true ->
    DeepPartial (DeepReadonly T) = DeepReadonly (DeepPartial T).
Proof.
  intros T H.
  rewrite (deep_mapped_compose Keep Add Add Keep eq_refl eq_refl T H
           : DeepReadonly (DeepPartial T) = _).
  exact (deep_mapped_compose Add Keep Keep Add eq_refl eq_refl T H).
Qed.

Example DeepPartial_DeepReadonly_commute_example :
  any_free (TObject [("a", prop (TUnion [TString; TVoid]));
                     ("xs", prop (TArray false TVoid))]) = true
  /\ DeepPartial
       (DeepReadonly (TObject [("a", prop (TUnion [TString; TVoid]));
                               ("xs", prop (TArray false TVoid))]))
     = DeepReadonly
         (DeepPartial (TObject [("a", prop (TUnion [TString; TVoid]));
                                ("xs", prop (TArray false TVoid))])).
Proof.
  split; [reflexivity | apply DeepPartial_DeepReadonly_commute; reflexivity].
Defined.
(** * DeepNonNullableOrUndefined and DeepRequiredNonNullable *)

Lemma any_free_everywhere :
  forall T, any_free T = everywhere (fun _ => true) (fun _ _ => true) T.
Proof.
  induction T using ty_nested_ind; try reflexivity.
  - simpl. apply forallb_same. intros kp Hkp. rewrite Forall_forall in H. auto.
  - simpl. exact IHT.
  - simpl. apply forallb_same. rewrite Forall_forall in H. auto.
Qed.

Lemma any_free_members :
  forall T, any_free T = true -> existsb is_any (members T) = false.
Proof.
  intros T H. rewrite any_free_everywhere in H.
  apply everywhere_members in H. rewrite Forall_forall in H.
  destruct (existsb is_any (members T)) eqn:E; [|reflexivity].
  apply existsb_exists in E as [x [Hx Ex]]. apply H in Hx.
  destruct x; discriminate.
Qed.

Lemma any_free_NonNullable :
  forall T, any_free T = true -> any_free (NonNullable T) = true.
Proof.
  intros T H. rewrite any_free_everywhere in *. rewrite NonNullable_as_filter.
  apply everywhere_of_members. apply Forall_forall. intros x Hx.
  apply filter_In in Hx as [Hx _].
  apply everywhere_members in H. rewrite Forall_forall in H. auto.
Qed.

Lemma members_size :
  forall T, list_sum (map ty_size (members T)) + (if is_atom T then 0 else 1)
            <= ty_size T.
Proof.
  induction T using ty_nested_ind; simpl; try lia.
  induction H as [|x l Hx _ IH]; simpl in *; [lia|].
  rewrite map_app, list_sum_app.
  destruct (is_atom x); lia.
Qed.

Lemma filter_size :
  forall (q : ty -> bool) l,
    list_sum (map ty_size (filter q l)) <= list_sum (map ty_size l).
Proof.
  intros q l. induction l as [|x r IH]; simpl; [lia|].
  destruct (q x); simpl; lia.
Qed.

Lemma dedupe_size :
  forall l, list_sum (map ty_size (dedupe l)) <= list_sum (map ty_size l).
Proof.
  induction l as [|x r IH]; simpl; [lia|].
  pose proof (filter_size (fun y => negb (ty_eqb x y)) (dedupe r)). lia.
Qed.

Lemma of_members_size :
  forall L, ty_size (of_members L) <= S (list_sum (map ty_size L)).
Proof.
  intros L. unfold of_members.
  destruct (existsb is_any L); [simpl; lia|].
  destruct (existsb is_unknown L); [simpl; lia|].
  pose proof (dedupe_size (reduce_literals L)) as H1.
  pose proof (filter_size
                (fun t => match t with
                          | TStrLit _ => negb (existsb is_string L)
                          | TNumLit _ => negb (existsb is_number L)
                          | _ => true
                          end) L) as H2.
  change (filter _ L) with (reduce_literals L) in H2.
  destruct (dedupe (reduce_literals L)) as [|t [|t' r]]; simpl in *; lia.
Qed.

(** [NonNullable<T>] is no larger than [T]. *)
Lemma NonNullable_size : forall T, ty_size (NonNullable T) <= ty_size T.
Proof.
  intros T. rewrite NonNullable_as_filter.
  destruct (is_atom T) eqn:Hat.
  - rewrite (members_atom T Hat). cbn [filter].
    destruct (non_nullish T).
    + rewrite (of_members_single T Hat). lia.
    + pose proof (ty_size_pos T). simpl. lia.
  - pose proof (members_size T) as H1. rewrite Hat in H1.
    pose proof (of_members_size (filter non_nullish (members T))) as H2.
    pose proof (filter_size non_nullish (members T)) as H3. lia.
Qed.

Lemma NonNullable_no_nullish :
  forall T, has_member is_nullish (NonNullable T) = false.
Proof.
  intros T. rewrite NonNullable_as_filter. unfold has_member.
  destruct (existsb _ _) eqn:E; [|reflexivity].
  apply existsb_exists in E as [x [Hx Ex]].
  apply members_of_members in Hx.
  - apply filter_In in Hx as [_ Hx]. unfold non_nullish, is_nullish in *.
    rewrite Ex in Hx. discriminate.
  - apply Forall_forall. intros y Hy. apply filter_In in Hy as [Hy _].
    pose proof (members_are_atoms T) as Hat. rewrite Forall_forall in Hat. auto.
Qed.

Lemma remove_undefined_no_nullish :
  forall X, has_member is_nullish X = false ->
            has_member is_nullish (remove_undefined X) = false.
Proof.
  intros X H. unfold has_member, remove_undefined in *.
  destruct (existsb is_nullish (members (of_members _))) eqn:E; [|reflexivity].
  apply existsb_exists in E as [x [Hx Ex]].
  apply members_of_members in Hx.
  - apply filter_In in Hx as [Hx _].
    assert (existsb is_nullish (members X) = true) by (apply existsb_exists; eauto).
    congruence.
  - apply Forall_forall. intros y Hy. apply filter_In in Hy as [Hy _].
    pose proof (members_are_atoms X) as Hat. rewrite Forall_forall in Hat. auto.
Qed.

Lemma is_nullish_unit : forall x, is_nullish x = true -> is_unit_type x = true.
Proof. intros x H. now destruct x. Qed.

Section deep_non_nullable.
Variable Self : nat -> ty -> ty.
Hypothesis Self_unfold :
  forall d T, Self (S d) T = homomorphic Keep Remove (fun TP => Self d (NonNullable TP)) T.

Lemma deep_non_nullable_step :
  forall d,
    (forall T, ty_size T <= d -> any_free T = true ->
               deeply_non_nullish (Self d T) = true
               /\ (has_member is_nullish T = false ->
                   has_member is_nullish (Self d T) = false)) ->
    forall T, ty_size T <= S d -> any_free T = true ->
      deeply_non_nullish (homomorphic Keep Remove (fun TP => Self d (NonNullable TP)) T) = true.
Proof.
  intros d IHd.
  assert (Hstep : forall TP, ty_size TP <= d -> any_free TP = true ->
            deeply_non_nullish (Self d (NonNullable TP)) = true
            /\ has_member is_nullish (Self d (NonNullable TP)) = false).
  { intros TP Hs Hf.
    destruct (IHd (NonNullable TP)) as [H1 H2].
    - pose proof (NonNullable_size TP). lia.
    - now apply any_free_NonNullable.
    - split; [exact H1 | apply H2, NonNullable_no_nullish]. }
  induction T using ty_nested_ind; intros Hs Hfree; try reflexivity;
    try discriminate Hfree.
  - cbn [homomorphic]. unfold deeply_non_nullish. cbn [everywhere].
    simpl in Hfree. rewrite forallb_forall in *. intros kp Hkp.
    apply in_map_iff in Hkp as [[k p] [<- Hin]]. cbn [fst snd].
    assert (Hsz : ty_size (p_type p) <= d).
    { simpl in Hs.
      pose proof (in_list_sum _ (fun kp => ty_size (p_type (snd kp))) _ _ Hin) as Hle.
      cbn [snd] in Hle. lia. }
    destruct (Hstep (p_type p) Hsz (Hfree _ Hin)) as [H1 H2].
    unfold map_property.
    cbn [apply_modifier p_optional p_type andb is_remove is_add negb].
    destruct (p_optional p).
    + rewrite (remove_undefined_no_nullish _ H2). cbn [negb andb].
      now apply everywhere_remove_undefined.
    + rewrite H2. exact H1.
  - cbn [homomorphic]. unfold deeply_non_nullish. cbn [everywhere].
    simpl in Hfree, Hs.
    destruct (Hstep T ltac:(lia) Hfree) as [H1 H2].
    unfold map_element. cbn [is_add is_remove andb].
    rewrite (remove_undefined_no_nullish _ H2). cbn [negb andb].
    now apply everywhere_remove_undefined.
  - cbn [homomorphic]. apply everywhere_mk_union.
    simpl in Hfree, Hs. rewrite forallb_forall in Hfree. rewrite Forall_forall in *.
    intros x Hx. apply in_map_iff in Hx as [m [<- Hm]].
    apply H; auto.
    pose proof (in_list_sum _ ty_size _ _ Hm). lia.
Qed.

Lemma deep_non_nullable_everywhere :
  forall d T, ty_size T <= d -> any_free T = true ->
    deeply_non_nullish (Self d T) = true
    /\ (has_member is_nullish T = false ->
        has_member is_nullish (Self d T) = false).
Proof.
  induction d as [|d IHd]; intros T Hs Hfree.
  - pose proof (ty_size_pos T). lia.
  - rewrite Self_unfold. split.
    + now apply deep_non_nullable_step.
    + intros Hn.
      rewrite (homomorphic_has_member Keep Remove _ is_nullish T is_nullish_unit);
        [exact Hn | now apply any_free_members].
Qed.

End deep_non_nullable.

Lemma homomorphic_same_template :
  forall ro opt (t1 t2 : ty -> ty) T,
    (forall TP, ty_size TP < ty_size T -> t1 TP = t2 TP) ->
    homomorphic ro opt t1 T = homomorphic ro opt t2 T.
Proof.
  intros ro opt t1 t2.
  induction T using ty_nested_ind; intros Hs; try reflexivity.
  - cbn [homomorphic]. f_equal. apply map_ext_in. intros [k p] Hin.
    cbn [fst snd]. f_equal. unfold map_property.
    rewrite (Hs (p_type p)); [reflexivity|].
    simpl.
    pose proof (in_list_sum _ (fun kp => ty_size (p_type (snd kp))) _ _ Hin) as Hle.
    cbn [snd] in Hle. lia.
  - cbn [homomorphic]. f_equal. unfold map_element.
    rewrite (Hs T); [reflexivity | simpl; lia].
  - cbn [homomorphic]. f_equal. apply map_ext_in. intros m Hm.
    rewrite Forall_forall in H. apply H; [exact Hm|].
    intros TP HTP. apply Hs. simpl.
    pose proof (in_list_sum _ ty_size _ _ Hm). lia.
Qed.

(** The depth allowed to the recursion does not matter once it is the size
    of the argument. *)
Lemma DeepNonNullableOrUndefined_depth_irrelevant :
  forall d1 d2 T, ty_size T <= d1 -> ty_size T <= d2 ->
    DeepNonNullableOrUndefined_at d1 T = DeepNonNullableOrUndefined_at d2 T.
Proof.
  induction d1 as [|d1 IH]; intros d2 T H1 H2.
  - pose proof (ty_size_pos T). lia.
  - destruct d2 as [|d2]; [pose proof (ty_size_pos T); lia|].
    cbn [DeepNonNullableOrUndefined_at]. apply homomorphic_same_template.
    intros TP HTP. pose proof (NonNullable_size TP). apply IH; lia.
Qed.

(** X17.  [DeepNonNullableOrUndefined<T>] and [DeepRequiredNonNullable<T>]
    make every property required and remove [null] and [undefined] from
    the type of every property and of every array element, at every nesting
    depth.  [T] ranges over the types where no property has type [any]. *)
Theorem DeepNonNullableOrUndefined_removes_nullish :
  forall T, any_free T = true ->
    deeply_non_nullish (DeepNonNullableOrUndefined T) = true
    /\ deeply_non_nullish (DeepRequiredNonNullable T) = true.
Proof.
  intros T H. split.
  - apply (deep_non_nullable_everywhere DeepNonNullableOrUndefined_at);
      [reflexivity | apply Nat.le_refl | exact H].
  - apply (deep_non_nullable_everywhere DeepRequiredNonNullable_at);
      [reflexivity | apply Nat.le_refl | exact H].
Qed.

Example DeepNonNullableOrUndefined_removes_nullish_example :
  any_free (TObject [("a", prop (TUnion [TString; TNull]));
                     ("xs", prop (TArray false (TUnion [TString; TVoid; TNull])));
                     ("b", mkProp false true
                             (TUnion [TObject [("c", prop (TUnion [TNumber; TNull;
                                                                   TUndefined]))];
                                      TUndefined]))]) = true
  /\ deeply_non_nullish
       (DeepNonNullableOrUndefined
          (TObject [("a", prop (TUnion [TString; TNull]));
                    ("xs", prop (TArray false (TUnion [TString; TVoid; TNull])));
                    ("b", mkProp false true
                            (TUnion [TObject [("c", prop (TUnion [TNumber; TNull;
                                                                  TUndefined]))];
                                     TUndefined]))]))
     = true
  /\ deeply_non_nullish
       (DeepRequiredNonNullable
          (TObject [("a", prop (TUnion [TString; TNull]));
                    ("xs", prop (TArray false (TUnion [TString; TVoid; TNull])));
                    ("b", mkProp false true
                            (TUnion [TObject [("c", prop (TUnion [TNumber; TNull;
                                                                  TUndefined]))];
                                     TUndefined]))]))
     = true.
Proof.
  split; [reflexivity | apply DeepNonNullableOrUndefined_removes_nullish; reflexivity].
Defined.

(** There [xs: (string | void | null)[]] becomes [xs: string[]]: [NonNullable]
    removes the [null] and [-?] the [void]. *)
Lemma DeepNonNullableOrUndefined_example_result :
  DeepNonNullableOrUndefined
    (TObject [("a", prop (TUnion [TString; TNull]));
              ("xs", prop (TArray false (TUnion [TString; TVoid; TNull])))])
  = TObject [("a", prop TString); ("xs", prop (TArray false TString))].
Proof. reflexivity. Qed.
(** * The keys and the properties an alias selects *)

Lemma dedupe_NoDup : forall l, NoDup l -> dedupe l = l.
Proof.
  induction 1 as [|x l Hx _ IH]; [reflexivity|].
  cbn [dedupe]. rewrite IH. f_equal. apply filter_all.
  intros y Hy. destruct (ty_eqb x y) eqn:E; [|reflexivity].
  apply ty_eqb_sound in E. subst. contradiction.
Qed.

Lemma strlits_of_names :
  forall names, Forall (fun m => is_strlit m = true) (map TStrLit names).
Proof. intros names. apply Forall_forall. intros x Hx.
  apply in_map_iff in Hx as [k [<- _]]. reflexivity. Qed.

Lemma NoDup_strlits :
  forall names, NoDup names -> NoDup (map TStrLit names).
Proof.
  induction 1 as [|k r Hk _ IH]; cbn [map]; constructor; [|exact IH].
  intros Hin. apply in_map_iff in Hin as [k' [E Hk']]. inversion E. now subst.
Qed.

Lemma members_name_union :
  forall names, NoDup names ->
    members (mk_union (map TStrLit names)) = map TStrLit names.
Proof.
  intros names Hnd.
  pose proof (strlits_of_names names) as Hs.
  pose proof (strlits_are_plain _ Hs) as Hp.
  assert (Hat : Forall (fun m => is_atom m = true) (map TStrLit names)).
  { rewrite Forall_forall in *. intros x Hx. now destruct (Hp x Hx). }
  unfold mk_union. rewrite (flat_map_members_atoms _ Hat).
  destruct (no_any_member _ Hp) as [Ea Eu].
  rewrite (members_of_members_atoms _ Hat Ea Eu).
  rewrite (reduce_literals_strlits _ Hs). apply dedupe_NoDup.
  now apply NoDup_strlits.
Qed.

Lemma key_names_name_union :
  forall names, NoDup names -> key_names (mk_union (map TStrLit names)) = names.
Proof.
  intros names Hnd. unfold key_names. rewrite (members_name_union names Hnd).
  clear Hnd. induction names as [|k r IH]; [reflexivity|].
  cbn [map flat_map app]. now rewrite IH.
Qed.

Lemma keys_of_props_names :
  forall ps, keys_of_props ps = mk_union (map TStrLit (map fst ps)).
Proof. intros ps. unfold keys_of_props. now rewrite map_map. Qed.

Lemma lookup_NoDup :
  forall ps k p, NoDup (map fst ps) -> In (k, p) ps -> lookup k ps = Some p.
Proof.
  induction ps as [|[k' p'] r IH]; intros k p Hnd Hin; [destruct Hin|].
  cbn [map fst] in Hnd. inversion Hnd as [|? ? Hk' Hr]; subst.
  cbn [lookup]. destruct Hin as [E|Hin].
  - inversion E; subst. now rewrite String.eqb_refl.
  - destruct (String.eqb k k') eqn:E.
    + apply String.eqb_eq in E. subst. exfalso. apply Hk'.
      apply in_map_iff. exists (k', p). auto.
    + now apply IH.
Qed.

Lemma lookup_map_keyed :
  forall (h : string -> property ty -> property ty) k ps,
    lookup k (map (fun kp => (fst kp, h (fst kp) (snd kp))) ps)
    = option_map (h k) (lookup k ps).
Proof.
  intros h k ps. induction ps as [|[k' p'] r IH]; [reflexivity|].
  cbn [map lookup fst snd]. destruct (String.eqb k k') eqn:E; [|exact IH].
  apply String.eqb_eq in E. now subst.
Qed.

Lemma NoDup_filter_keys :
  forall (q : string * property ty -> bool) ps,
    NoDup (map fst ps) -> NoDup (map fst (filter q ps)).
Proof.
  intros q ps. induction ps as [|kp r IH]; intros Hnd; [constructor|].
  cbn [map] in Hnd. inversion Hnd as [|? ? Hk Hr]; subst.
  cbn [filter]. destruct (q kp); [|auto].
  cbn [map]. constructor; [|auto].
  intros Hin. apply Hk. apply in_map_iff in Hin as [x [E Hx]].
  apply filter_In in Hx as [Hx _]. apply in_map_iff. eauto.
Qed.

(** [{} extends Pick<T, K>] tells whether the property [K] is optional. *)
Lemma empty_extends_Pick :
  forall ps k p, lookup k ps = Some p ->
    is_top (Pick (TObject ps) (TStrLit k)) = false
    /\ assignable (TObject []) (Pick (TObject ps) (TStrLit k)) = p_optional p.
Proof.
  intros ps k p Hk. unfold Pick. cbn [key_names members flat_map app map property_of].
  rewrite Hk. split; [reflexivity|].
  rewrite assignable_unfold. cbn. now rewrite !andb_true_r.
Qed.

Lemma keyed_property_type :
  forall ps k p (yes no : ty -> ty),
    lookup k ps = Some p ->
    remove_undefined (yes (TStrLit k)) = yes (TStrLit k) ->
    index_name
      (homomorphic_keyed Keep Remove
         (fun T K => cond (TObject []) (Pick T K) (yes K) (no K)) (TObject ps)) k
    = if p_optional p then yes (TStrLit k) else no (TStrLit k).
Proof.
  intros ps k p yes no Hk Hyes. cbn [homomorphic_keyed index_name].
  rewrite (lookup_map_keyed
             (fun k p => map_property Keep Remove
                           (fun _ => cond (TObject []) (Pick (TObject ps) (TStrLit k))
                                          (yes (TStrLit k)) (no (TStrLit k))) p)).
  rewrite Hk. cbn [option_map]. unfold map_property.
  cbn [apply_modifier andb p_type is_remove].
  destruct (empty_extends_Pick ps k p Hk) as [Htop Hext].
  unfold cond, conditional. rewrite Htop, Hext. cbn [is_any].
  destruct (p_optional p); [apply Hyes | reflexivity].
Qed.

Lemma index_keys :
  forall T ps, NoDup (map fst ps) ->
    index T (keys_of_props ps)
    = mk_union (map (fun kp => index_name T (fst kp)) ps).
Proof.
  intros T ps Hnd. unfold index. rewrite keys_of_props_names.
  rewrite (members_name_union _ Hnd). now rewrite !map_map.
Qed.

Lemma selected_keys :
  forall (q : string * property ty -> bool) ps,
    mk_union (map (fun kp => if q kp then TStrLit (fst kp) else TNever) ps)
    = keys_of_props (filter q ps).
Proof.
  intros q ps. unfold keys_of_props. apply mk_union_same_members.
  induction ps as [|kp r IH]; [reflexivity|].
  cbn [map flat_map filter]. destruct (q kp); cbn; now rewrite IH.
Qed.

Lemma OptionalKeys_of_object :
  forall ps, NoDup (map fst ps) ->
    OptionalKeys (TObject ps) = keys_of_props (optional_props ps).
Proof.
  intros ps Hnd. unfold OptionalKeys. cbn [keyof].
  rewrite (index_keys _ ps Hnd). unfold optional_props.
  rewrite <- (selected_keys (fun kp => p_optional (snd kp)) ps).
  f_equal. apply map_ext_in. intros [k p] Hin. cbn [fst snd].
  apply (keyed_property_type ps k p (fun K => K) (fun _ => TNever));
    [now apply lookup_NoDup | reflexivity].
Qed.

Lemma RequiredKeys_of_object :
  forall ps, NoDup (map fst ps) ->
    RequiredKeys (TObject ps) = keys_of_props (required_props ps).
Proof.
  intros ps Hnd. unfold RequiredKeys. cbn [keyof].
  rewrite (index_keys _ ps Hnd). unfold required_props.
  rewrite <- (selected_keys (fun kp => negb (p_optional (snd kp))) ps).
  f_equal. apply map_ext_in. intros [k p] Hin. cbn [fst snd].
  rewrite (keyed_property_type ps k p (fun _ => TNever) (fun K => K));
    [now destruct (p_optional p) | now apply lookup_NoDup | reflexivity].
Qed.

Lemma Pick_selected :
  forall (q : string * property ty -> bool) ps,
    NoDup (map fst ps) ->
    Pick (TObject ps) (keys_of_props (filter q ps)) = TObject (filter q ps).
Proof.
  intros q ps Hnd. unfold Pick. f_equal.
  rewrite keys_of_props_names, key_names_name_union
    by (now apply NoDup_filter_keys).
  rewrite map_map. rewrite <- (map_id (filter q ps)) at 2.
  apply map_ext_in. intros [k p] Hin. cbn [fst property_of].
  apply filter_In in Hin as [Hin _].
  now rewrite (lookup_NoDup ps k p Hnd Hin).
Qed.

(** X18.  For an object type [T], [OptionalKeys<T>] is the union of the
    names of the optional properties of [T] and [RequiredKeys<T>] that of
    the names of the required ones: the keys of [T] restricted to its
    optional properties, and to its required properties. *)
Theorem OptionalKeys_RequiredKeys :
  forall ps, NoDup (map fst ps) ->
    OptionalKeys (TObject ps) = keyof (TObject (optional_props ps))
    /\ RequiredKeys (TObject ps) = keyof (TObject (required_props ps)).
Proof.
  intros ps Hnd. split.
  - now apply OptionalKeys_of_object.
  - now apply RequiredKeys_of_object.
Qed.

Example OptionalKeys_RequiredKeys_example :
  NoDup (map fst [("a", mkProp true false TString);
                  ("b", mkProp false true (TUnion [TNumber; TUndefined]));
                  ("f", prop (TFun [] TVoid))])
  /\ OptionalKeys (TObject [("a", mkProp true false TString);
                            ("b", mkProp false true (TUnion [TNumber; TUndefined]));
                            ("f", prop (TFun [] TVoid))])
     = TStrLit "b"
  /\ RequiredKeys (TObject [("a", mkProp true false TString);
                            ("b", mkProp false true (TUnion [TNumber; TUndefined]));
                            ("f", prop (TFun [] TVoid))])
     = TUnion [TStrLit "a"; TStrLit "f"].
Proof.
  assert (H : NoDup (map fst [("a", mkProp true false TString);
                              ("b", mkProp false true (TUnion [TNumber; TUndefined]));
                              ("f", prop (TFun [] TVoid))])).
  { repeat constructor; simpl; intuition discriminate. }
  split; [exact H | exact (OptionalKeys_RequiredKeys _ H)].
Defined.

(** X19.  For an object type [T], [OptionalProperties<T>] is the object
    type of the optional properties of [T] and [RequiredProperties<T>]
    that of the required ones, each property with the modifiers and the
    type it has in [T]. *)
Theorem OptionalProperties_RequiredProperties :
  forall ps, NoDup (map fst ps) ->
    OptionalProperties (TObject ps) = TObject (optional_props ps)
    /\ RequiredProperties (TObject ps) = TObject (required_props ps).
Proof.
  intros ps Hnd. unfold OptionalProperties, RequiredProperties.
  rewrite (OptionalKeys_of_object ps Hnd), (RequiredKeys_of_object ps Hnd).
  split; now apply Pick_selected.
Qed.

Example OptionalProperties_RequiredProperties_example :
  NoDup (map fst [("a", mkProp true false TString);
                  ("b", mkProp false true (TUnion [TNumber; TUndefined]))])
  /\ OptionalProperties
       (TObject [("a", mkProp true false TString);
                 ("b", mkProp false true (TUnion [TNumber; TUndefined]))])
     = TObject [("b", mkProp false true (TUnion [TNumber; TUndefined]))]
  /\ RequiredProperties
       (TObject [("a", mkProp true false TString);
                 ("b", mkProp false true (TUnion [TNumber; TUndefined]))])
     = TObject [("a", mkProp true false TString)].
Proof.
  assert (H : NoDup (map fst [("a", mkProp true false TString);
                              ("b", mkProp false true (TUnion [TNumber; TUndefined]))])).
  { repeat constructor; simpl; intuition discriminate. }
  split; [exact H | exact (OptionalProperties_RequiredProperties _ H)].
Defined.

(** ** ConditionalPick *)

Lemma name_of_condition :
  forall S C k,
    key_names (cond S C (TStrLit k) TNever) = if extends S C then [k] else [].
Proof.
  intros S C k. unfold cond, conditional, extends.
  destruct (is_top C); [reflexivity|]. cbn [orb].
  destruct (is_any S); [reflexivity|]. cbn [orb].
  destruct (assignable S C); reflexivity.
Qed.

Lemma ConditionalPick_of_object :
  forall ps C,
    ConditionalPick (TObject ps) C
    = TObject
        (map (fun kp => (fst kp, map_property Keep Keep (fun TK => TK) (snd kp)))
             (filter (fun kp => extends (index (TObject ps) (TStrLit (fst kp))) C) ps)).
Proof.
  intros ps C. unfold ConditionalPick. cbn [homomorphic_as]. f_equal.
  generalize (TObject ps). intros T.
  induction ps as [|kp r IH]; [reflexivity|].
  cbn [flat_map filter]. rewrite IH, name_of_condition.
  destruct (extends (index T (TStrLit (fst kp))) C); reflexivity.
Qed.

Lemma assignable_top : forall S T, is_top T = true -> assignable S T = true.
Proof.
  intros S T H. rewrite assignable_unfold. unfold assignable_step. now rewrite H.
Qed.

(** A type extends another when each of its members does. *)
Lemma assignable_members :
  forall S T, assignable S T = forallb (fun m => assignable m T) (members S).
Proof.
  induction S using ty_nested_ind; intros T; cbn [members forallb];
    rewrite ?andb_true_r; try reflexivity.
  - rewrite assignable_unfold. unfold assignable_step.
    now destruct (is_top T).
  - rewrite assignable_unfold. unfold assignable_step.
    rewrite forallb_flat_map.
    destruct (is_top T) eqn:Etop.
    + symmetry. apply forallb_forall. intros x _. apply forallb_forall.
      intros m _. now apply assignable_top.
    + apply forallb_same. rewrite Forall_forall in H. intros x Hx. now apply H.
Qed.

Lemma ConditionalPick_without_undefined :
  forall ps C k p,
    NoDup (map fst ps) -> In (k, p) ps ->
    no_top_member (p_type p) = true ->
    has_member is_undefined (p_type p) = true ->
    is_top C = false -> assignable TUndefined C = false ->
    has_key k (props_of (ConditionalPick (TObject ps) C)) = false.
Proof.
  intros ps C k p Hnd Hin Hno Hund Htop Hrej.
  rewrite ConditionalPick_of_object. cbn [props_of]. unfold has_key.
  rewrite lookup_map_property.
  destruct (lookup k (filter _ ps)) as [p'|] eqn:Hk; [|reflexivity].
  exfalso. apply lookup_In in Hk. apply filter_In in Hk as [Hin' Hext].
  cbn [fst] in Hext.
  rewrite index_literal in Hext. cbn [index_name] in Hext.
  rewrite (lookup_NoDup ps k p Hnd Hin) in Hext.
  unfold extends in Hext. rewrite Htop in Hext. cbn [orb] in Hext.
  assert (Hno' : no_top_member (mk_union [p_type p]) = true).
  { apply no_top_member_mk_union. now repeat constructor. }
  destruct (no_top_member_tops _ Hno') as [Ea _].
  assert (Hany : is_any (mk_union [p_type p]) = false).
  { destruct (mk_union [p_type p]); try reflexivity. discriminate Ea. }
  rewrite Hany in Hext. cbn [orb] in Hext.
  rewrite assignable_members in Hext. rewrite forallb_forall in Hext.
  assert (Hm : In TUndefined (members (mk_union [p_type p]))).
  { pose proof (has_member_normal is_undefined (p_type p)) as Hn.
    rewrite Hund in Hn. unfold has_member in Hn.
    assert (E : existsb is_undefined (members (mk_union [p_type p])) = true).
    { apply Hn; [|exact Hno]. intros x Hx. now destruct x. }
    apply existsb_exists in E as [x [Hx Ex]]. now destruct x. }
  apply Hext in Hm. congruence.
Qed.

(** X20.  For an object type [T] and a [Condition] that is a union of
    primitive and literal types, [null], [undefined], [void], [object],
    [any] and [unknown] (no object type, no array and no function type
    among its members), [ConditionalPick<T, Condition>] is the mapped
    type [{ [K in keyof T']: T'[K] }] of the object type [T'] of the
    properties of [T] whose type [T[K]] extends [Condition]: the properties
    that pass the test are kept with their modifiers and their types, the
    others are absent. *)
Theorem ConditionalPick_keeps_extending :
  forall ps C,
    flat_target C = true ->
    ConditionalPick (TObject ps) C
    = homomorphic Keep Keep (fun TK => TK)
        (TObject (filter (fun kp => extends (index (TObject ps) (TStrLit (fst kp))) C)
                         ps)).
Proof. intros ps C _. apply ConditionalPick_of_object. Qed.

Example ConditionalPick_keeps_extending_example :
  flat_target (TUnion [TString; TUndefined]) = true
  /\ ConditionalPick
       (TObject [("a", mkProp true false TString);
                 ("b", mkProp false true (TUnion [TString; TUndefined]));
                 ("c", prop TNumber);
                 ("d", prop (TArray false TString))])
       (TUnion [TString; TUndefined])
     = TObject [("a", mkProp true false TString);
                ("b", mkProp false true (TUnion [TString; TUndefined]))].
Proof.
  split; [reflexivity|].
  apply (ConditionalPick_keeps_extending
           [("a", mkProp true false TString);
            ("b", mkProp false true (TUnion [TString; TUndefined]));
            ("c", prop TNumber);
            ("d", prop (TArray false TString))]
           (TUnion [TString; TUndefined])).
  reflexivity.
Defined.

(** X21.  A property whose type admits [undefined], as the type of every
    optional property does, is absent from [ConditionalPick<T, Condition>]
    when [Condition] does not accept [undefined]: the test is on the whole
    of [T[K]]. *)
Theorem ConditionalPick_rejects_undefined :
  forall ps C k p,
    NoDup (map fst ps) -> In (k, p) ps ->
    no_top_member (p_type p) = true ->
    has_member is_undefined (p_type p) = true ->
    is_top C = false -> assignable TUndefined C = false ->
    has_key k (props_of (ConditionalPick (TObject ps) C)) = false.
Proof. exact ConditionalPick_without_undefined. Qed.

Example ConditionalPick_rejects_undefined_example :
  NoDup (map fst [("a", prop TNumber);
                  ("b", mkProp false true (TUnion [TNumber; TUndefined]))])
  /\ In ("b", mkProp false true (TUnion [TNumber; TUndefined]))
        [("a", prop TNumber);
         ("b", mkProp false true (TUnion [TNumber; TUndefined]))]
  /\ no_top_member (TUnion [TNumber; TUndefined]) = true
  /\ has_member is_undefined (TUnion [TNumber; TUndefined]) = true
  /\ is_top TNumber = false
  /\ assignable TUndefined TNumber = false
  /\ has_key "b"
       (props_of
          (ConditionalPick
             (TObject [("a", prop TNumber);
                       ("b", mkProp false true (TUnion [TNumber; TUndefined]))])
             TNumber))
     = false.
Proof.
  assert (H : NoDup (map fst [("a", prop TNumber);
                              ("b", mkProp false true (TUnion [TNumber; TUndefined]))])).
  { repeat constructor; simpl; intuition discriminate. }
  assert (Hin : In ("b", mkProp false true (TUnion [TNumber; TUndefined]))
                   [("a", prop TNumber);
                    ("b", mkProp false true (TUnion [TNumber; TUndefined]))]).
  { simpl; auto. }
  repeat (split; [first [exact H | exact Hin | reflexivity]|]).
  exact (ConditionalPick_rejects_undefined _ TNumber "b" _ H Hin
           eq_refl eq_refl eq_refl eq_refl).
Defined.

(** * ValueOf, MapValues, ReadonlyRecord and UnionToObject *)

Lemma ValueOf_of_object :
  forall ps, NoDup (map fst ps) ->
    ValueOf (TObject ps) = mk_union (map (fun kp => p_type (snd kp)) ps).
Proof.
  intros ps Hnd. unfold ValueOf. cbn [keyof]. rewrite (index_keys _ ps Hnd).
  f_equal. apply map_ext_in. intros [k p] Hin. cbn [fst snd index_name].
  now rewrite (lookup_NoDup ps k p Hnd Hin).
Qed.

Lemma dedupe_absorb :
  forall n X Y, List.length X <= n -> (forall y, In y Y -> In y X) ->
                dedupe (X ++ Y)%list = dedupe X.
Proof.
  induction n as [|n IH]; intros X Y Hlen Hsub.
  - destruct X; [|simpl in Hlen; lia].
    destruct Y as [|y r]; [reflexivity|]. destruct (Hsub y (or_introl eq_refl)).
  - destruct X as [|x X].
    + destruct Y as [|y r]; [reflexivity|]. destruct (Hsub y (or_introl eq_refl)).
    + cbn [app dedupe]. f_equal. rewrite <- !dedupe_filter, filter_app.
      apply IH.
      * simpl in Hlen.
        pose proof (filter_length_le (fun y => negb (ty_eqb x y)) X). lia.
      * intros y Hy. apply filter_In in Hy as [Hy Hne]. apply filter_In.
        split; [|exact Hne]. destruct (Hsub y Hy) as [<-|H]; [|exact H].
        rewrite ty_eqb_refl in Hne. discriminate.
Qed.

Lemma of_members_twice :
  forall M, of_members (M ++ M)%list = of_members M.
Proof.
  intros M. unfold of_members. rewrite !existsb_app, !orb_diag.
  destruct (existsb is_any M); [reflexivity|].
  destruct (existsb is_unknown M); [reflexivity|].
  rewrite (reduce_literals_kept (M ++ M)%list), !existsb_app, !orb_diag.
  rewrite filter_app, <- reduce_literals_kept.
  now rewrite (dedupe_absorb (List.length (reduce_literals M)) _ _ (Nat.le_refl _)).
Qed.

Lemma mk_union_repeat :
  forall U n, mk_union (repeat U (S n)) = mk_union [U].
Proof.
  intros U n. induction n as [|n IH]; [reflexivity|].
  change (repeat U (S (S n))) with ([U] ++ repeat U (S n))%list.
  rewrite <- mk_union_app, IH, mk_union_app.
  unfold mk_union. cbn [app flat_map]. rewrite app_nil_r.
  apply of_members_twice.
Qed.

Lemma map_constant :
  forall (A : Type) (f : A -> ty) U l,
    (forall x, In x l -> f x = U) -> map f l = repeat U (List.length l).
Proof.
  intros A f U l H. induction l as [|x r IH]; [reflexivity|].
  cbn [map List.length repeat]. rewrite (H x (or_introl eq_refl)), IH; [reflexivity|].
  intros y Hy. apply H. now right.
Qed.

(** X22.  For an object type [T], [ValueOf<T>] is the union of the types
    of the properties of [T] (so with [undefined] when a property is
    optional), and [never] when [T] has no property. *)
Theorem ValueOf_is_union_of_property_types :
  forall ps, NoDup (map fst ps) ->
    ValueOf (TObject ps) = mk_union (map (fun kp => p_type (snd kp)) ps).
Proof. exact ValueOf_of_object. Qed.

Example ValueOf_is_union_of_property_types_example :
  NoDup (map fst [("a", prop TString);
                  ("b", mkProp false true (TUnion [TNumber; TUndefined]))])
  /\ ValueOf (TObject [("a", prop TString);
                       ("b", mkProp false true (TUnion [TNumber; TUndefined]))])
     = TUnion [TString; TNumber; TUndefined].
Proof.
  assert (H : NoDup (map fst [("a", prop TString);
                              ("b", mkProp false true (TUnion [TNumber; TUndefined]))])).
  { repeat constructor; simpl; intuition discriminate. }
  split; [exact H | exact (ValueOf_is_union_of_property_types _ H)].
Defined.

(** X23.  [ValueOf] after [MapValues]: for an object type [T] with at least
    one property and no optional one, [ValueOf<MapValues<T, U>>] is [U]
    (as the checker normalises it). *)
Theorem ValueOf_MapValues :
  forall kp r U,
    NoDup (map fst (kp :: r)) ->
    forallb (fun kp => negb (p_optional (snd kp))) (kp :: r) = true ->
    ValueOf (MapValues (TObject (kp :: r)) U) = mk_union [U].
Proof.
  intros kp0 r U Hnd Hreq. unfold MapValues. cbn [homomorphic].
  rewrite ValueOf_of_object by (now rewrite map_map).
  rewrite map_map.
  rewrite (map_constant _ _ U).
  - apply mk_union_repeat.
  - intros [k p] Hin. cbn [snd]. rewrite forallb_forall in Hreq.
    specialize (Hreq _ Hin). cbn [snd] in Hreq. unfold map_property.
    cbn [apply_modifier is_remove andb p_type].
    now destruct (p_optional p).
Qed.

Example ValueOf_MapValues_example :
  NoDup (map fst [("a", prop TString); ("b", prop TNumber)])
  /\ forallb (fun kp => negb (p_optional (snd kp)))
             [("a", prop TString); ("b", prop TNumber)] = true
  /\ ValueOf (MapValues (TObject [("a", prop TString); ("b", prop TNumber)])
                        (TBoolLit true))
     = TBoolLit true.
Proof.
  assert (H : NoDup (map fst [("a", prop TString); ("b", prop TNumber)])).
  { repeat constructor; simpl; intuition discriminate. }
  split; [exact H | split; [reflexivity|]].
  exact (ValueOf_MapValues _ _ (TBoolLit true) H eq_refl).
Defined.

(** X24.  For a union [K] of string literal types, the keys of
    [ReadonlyRecord<K, T>] are [K], and each of them names a required,
    read-only property of type [T]. *)
Theorem ReadonlyRecord_keys :
  forall names T, NoDup names ->
    keyof (ReadonlyRecord (mk_union (map TStrLit names)) T)
    = mk_union (map TStrLit names)
    /\ forall k, In k names ->
         lookup k (props_of (ReadonlyRecord (mk_union (map TStrLit names)) T))
         = Some (mkProp true false T).
Proof.
  intros names T Hnd. unfold ReadonlyRecord, mapped_readonly.
  rewrite (key_names_name_union names Hnd). split.
  - cbn [keyof]. rewrite keys_of_props_names, !map_map. reflexivity.
  - intros k Hk. cbn [props_of].
    now rewrite (lookup_mapped (fun _ => mkProp true false T) k names Hk).
Qed.

Example ReadonlyRecord_keys_example :
  NoDup ["a"; "b"]
  /\ keyof (ReadonlyRecord (TUnion [TStrLit "a"; TStrLit "b"]) TNumber)
     = TUnion [TStrLit "a"; TStrLit "b"].
Proof.
  assert (H : NoDup ["a"; "b"]).
  { repeat constructor; simpl; intuition discriminate. }
  split; [exact H | exact (proj1 (ReadonlyRecord_keys ["a"; "b"] TNumber H))].
Defined.

(** X25.  For a union of distinct string literal types,
    [UnionToObject<U>] is the union of one object type per literal, each
    with the single property [K: K]: the conditional type distributes, so
    the result is a union of object types and not one object type with all
    the keys. *)
Theorem UnionToObject_is_union_of_objects :
  forall names, NoDup names ->
    UnionToObject (mk_union (map TStrLit names))
    = mk_union (map (fun k => TObject [(k, prop (TStrLit k))]) names).
Proof.
  intros names Hnd. unfold UnionToObject, distribute.
  rewrite (members_name_union names Hnd), map_map. f_equal.
Qed.

Example UnionToObject_is_union_of_objects_example :
  NoDup ["a"; "b"]
  /\ UnionToObject (TUnion [TStrLit "a"; TStrLit "b"])
     = TUnion [TObject [("a", prop (TStrLit "a"))];
               TObject [("b", prop (TStrLit "b"))]].
Proof.
  assert (H : NoDup ["a"; "b"]).
  { repeat constructor; simpl; intuition discriminate. }
  split; [exact H | exact (UnionToObject_is_union_of_objects _ H)].
Defined.

(** * DeepMerge beyond the keys of U, and the keys of the other aliases *)

Lemma in_merged_keys_left :
  forall k ps qs,
    In k (map fst ps) ->
    In k (key_names (mk_union [keyof (TObject ps); keyof (TObject qs)])).
Proof.
  intros k ps qs Hin. unfold key_names. apply in_flat_map.
  exists (TStrLit k). split; [|now left].
  unfold mk_union. simpl flat_map. rewrite app_nil_r.
  assert (Hlit : Forall (fun m => is_strlit m = true)
                   (members (keys_of_props ps) ++ members (keys_of_props qs))).
  { apply Forall_app. split; apply keys_of_props_members. }
  apply in_of_members; [now apply strlits_are_plain|].
  rewrite (reduce_literals_strlits _ Hlit). apply in_or_app. left.
  now apply in_keys_of_props.
Qed.

Lemma keys_of_props_names_in :
  forall k ps, In (TStrLit k) (members (keys_of_props ps)) -> In k (map fst ps).
Proof.
  intros k ps H. unfold keys_of_props in H. apply members_mk_union in H.
  apply in_flat_map in H as [x [Hx Hk]]. apply in_map_iff in Hx as [kp [<- Hkp]].
  destruct Hk as [E|[]]. inversion E. subst. now apply in_map.
Qed.

Lemma has_key_In :
  forall k ps, has_key k ps = false -> ~ In k (map fst ps).
Proof.
  intros k ps H Hin. unfold has_key in H.
  induction ps as [|[k' p'] r IH]; [destruct Hin|].
  cbn [lookup] in H. destruct (String.eqb k k') eqn:E; [discriminate|].
  destruct Hin as [Hk|Hin]; [|auto].
  cbn [fst] in Hk. subst. now rewrite String.eqb_refl in E.
Qed.

(** A name that is no key of the object type [U] does not extend
    [keyof U]. *)
Lemma key_not_extends_keyof :
  forall k qs, has_key k qs = false ->
    cond (TStrLit k) (keyof (TObject qs)) = fun tt ff => ff.
Proof.
  intros k qs Hk. apply has_key_In in Hk. cbn [keyof].
  assert (Hmem : ~ In (TStrLit k) (members (keys_of_props qs))).
  { intros H. now apply Hk, keys_of_props_names_in. }
  pose proof (keys_of_props_members qs) as Hlit.
  assert (Hrej : assignable (TStrLit k) (keys_of_props qs) = false
                 /\ is_top (keys_of_props qs) = false).
  { assert (Hat : Forall (fun m => is_atom m = true)
                         (flat_map members (map (fun kp => TStrLit (fst kp)) qs))).
    { apply Forall_forall. intros x Hx. apply in_flat_map in Hx as [y [_ Hy]].
      pose proof (members_are_atoms y) as Ha. rewrite Forall_forall in Ha. auto. }
    destruct (of_members_shape _ Hat) as [E | [Ha | [D [E HD]]]];
      fold (mk_union (map (fun kp => TStrLit (fst kp)) qs)) in *;
      fold (keys_of_props qs) in *.
    - rewrite E. split; reflexivity.
    - rewrite (members_atom _ Ha) in Hmem, Hlit.
      inversion Hlit as [|? ? Hs _]; subst.
      destruct (keys_of_props qs) as [| | | | | | | | |s| | | | | |];
        try discriminate Hs.
      split; [|reflexivity]. rewrite assignable_unfold. cbn.
      destruct (String.eqb k s) eqn:Es; [|reflexivity].
      apply String.eqb_eq in Es. subst. exfalso. apply Hmem. now left.
    - rewrite E in *. cbn [members] in Hmem, Hlit.
      rewrite (flat_map_members_atoms _ HD) in Hmem, Hlit.
      split; [|reflexivity]. rewrite assignable_unfold.
      cbn [assignable_step is_top is_any is_unknown orb].
      destruct (existsb _ D) eqn:Ex; [|reflexivity].
      apply existsb_exists in Ex as [x [Hx Hax]].
      rewrite Forall_forall in Hlit. pose proof (Hlit x Hx) as Hs.
      destruct x; try discriminate Hs.
      rewrite assignable_unfold in Hax. cbn in Hax.
      apply String.eqb_eq in Hax. subst. contradiction. }
  destruct Hrej as [Hrej Htop].
  unfold cond, conditional. now rewrite Htop, Hrej.
Qed.

Lemma cond_same :
  forall check ext X, is_any check = true -> check = X -> cond check ext X X = X.
Proof.
  intros check ext X Hany <-. unfold cond, conditional.
  destruct (is_top ext); [reflexivity|]. rewrite Hany.
  destruct check; try discriminate Hany. reflexivity.
Qed.

Lemma cond_either :
  forall X ext, cond X ext X X = X.
Proof.
  intros X ext. destruct (is_any X) eqn:E; [now apply cond_same|].
  unfold cond, conditional. rewrite E.
  destruct (is_top ext); [reflexivity|]. now destruct (assignable X ext).
Qed.

Lemma DeepMerge_property_of_T :
  forall ps qs k,
    In k (map fst ps) -> has_key k qs = false ->
    index (DeepMerge (TObject ps) (TObject qs)) (TStrLit k)
    = index (TObject ps) (TStrLit k).
Proof.
  intros ps qs k Hin Hk. unfold DeepMerge.
  change (ty_size (TObject ps))
    with (S (list_sum (map (fun kp => ty_size (p_type (snd kp))) ps))).
  cbn [DeepMerge_at]. unfold mapped. rewrite index_literal.
  cbn [index_name].
  rewrite (lookup_mapped
             (fun k0 => prop (cond (TStrLit k0) (keyof (TObject qs))
                                   (index (TObject qs) (TStrLit k0)) _))
             k _ (in_merged_keys_left k ps qs Hin)).
  cbn [prop p_type].
  rewrite (key_not_extends_keyof k qs Hk).
  destruct (key_extends_keyof k ps Hin) as [Hext Htop].
  rewrite (cond_true (TStrLit k) (keyof (TObject ps)) _ _ Htop eq_refl Hext).
  assert (Hnone : lookup k qs = None).
  { unfold has_key in Hk. now destruct (lookup k qs). }
  rewrite (DeepMerge_recursive_branch_dead qs k _ _ Hnone).
  rewrite cond_either. rewrite index_literal. apply mk_union_idem.
Qed.

(** The keys of a union of string literal types, as literal types again,
    are its members. *)
Lemma key_names_members :
  forall K, Forall (fun m => is_strlit m = true) (members K) ->
            map TStrLit (key_names K) = members K.
Proof.
  intros K H. unfold key_names. induction H as [|x l Hx _ IH]; [reflexivity|].
  destruct x; try discriminate Hx. cbn [flat_map app map]. now rewrite IH.
Qed.

Lemma DeepMerge_keys :
  forall ps qs,
    keyof (DeepMerge (TObject ps) (TObject qs))
    = mk_union [keyof (TObject ps); keyof (TObject qs)].
Proof.
  intros ps qs. unfold DeepMerge.
  change (ty_size (TObject ps))
    with (S (list_sum (map (fun kp => ty_size (p_type (snd kp))) ps))).
  cbn [DeepMerge_at]. unfold mapped. cbn [keyof].
  rewrite keys_of_props_names, !map_map.
  set (K := mk_union [keys_of_props ps; keys_of_props qs]).
  change (mk_union (map TStrLit (key_names K)) = K).
  assert (Hlit : Forall (fun m => is_strlit m = true) (members K)).
  { apply Forall_forall. intros x Hx. unfold K in Hx.
    apply members_mk_union in Hx. cbn [flat_map] in Hx. rewrite app_nil_r in Hx.
    apply in_app_or in Hx.
    pose proof (keys_of_props_members ps) as H1.
    pose proof (keys_of_props_members qs) as H2.
    rewrite Forall_forall in H1, H2. destruct Hx; auto. }
  rewrite (key_names_members K Hlit).
  unfold mk_union at 1. rewrite (flat_map_members_atoms _ (members_are_atoms K)).
  unfold K, mk_union. apply of_members_idem, atoms_flat_map_members.
Qed.

Lemma DeepMerge_modifiers :
  forall T U,
    forallb (fun kp => negb (p_readonly (snd kp)) && negb (p_optional (snd kp)))
            (props_of (DeepMerge T U)) = true.
Proof.
  intros T U. unfold DeepMerge. destruct (ty_size T) eqn:E.
  - pose proof (ty_size_pos T). lia.
  - cbn [DeepMerge_at]. unfold mapped. cbn [props_of].
    apply forallb_forall. intros kp Hkp. apply in_map_iff in Hkp as [k [<- _]].
    reflexivity.
Qed.

(** X26.  The mapped aliases that C8 does not list preserve the keys too:
    for every object type [T], [DeepWritable], [DeepNonNullable],
    [DeepOptionalNullable], [DeepNonNullableOrUndefined],
    [DeepRequiredNonNullable] and [MapValues<_, U>] give a type with exactly
    the property keys of [T]. *)
Theorem mapped_aliases_preserve_keys :
  forall ps U,
    preserves_keys DeepWritable (TObject ps)
    /\ preserves_keys DeepNonNullable (TObject ps)
    /\ preserves_keys DeepOptionalNullable (TObject ps)
    /\ preserves_keys DeepNonNullableOrUndefined (TObject ps)
    /\ preserves_keys DeepRequiredNonNullable (TObject ps)
    /\ preserves_keys (fun T => MapValues T U) (TObject ps).
Proof.
  intros ps U. unfold preserves_keys, MapValues, DeepNonNullableOrUndefined,
    DeepRequiredNonNullable.
  change (ty_size (TObject ps))
    with (S (list_sum (map (fun kp => ty_size (p_type (snd kp))) ps))).
  cbn [DeepNonNullableOrUndefined_at DeepRequiredNonNullable_at].
  rewrite DeepNonNullable_unfold.
  change (DeepWritable (TObject ps))
    with (homomorphic Remove Keep DeepWritable (TObject ps)).
  change (DeepOptionalNullable (TObject ps))
    with (homomorphic Keep Add
            (fun TP => mk_union [DeepOptionalNullable TP; TNull]) (TObject ps)).
  repeat split; apply homomorphic_preserves_keys.
Qed.

(** X27.  For a key [K] that the object type [T] has and the object type
    [U] does not have, [DeepMerge<T, U>[K]] is [T[K]]: [U[K]] is then no
    object type, so the branch with the recursive [DeepMerge] is not
    taken.  With C3, the properties of [U] replace those of [T] as a whole
    and the others are those of [T]: nothing is merged below the first
    level. *)
Theorem DeepMerge_keeps_property_of_T :
  forall ps qs k,
    In k (map fst ps) -> has_key k qs = false ->
    index (DeepMerge (TObject ps) (TObject qs)) (TStrLit k)
    = index (TObject ps) (TStrLit k).
Proof. exact DeepMerge_property_of_T. Qed.

Example DeepMerge_keeps_property_of_T_example :
  In "name" (map fst [("name", prop TString);
                      ("details", prop (TObject [("age", prop TNumber)]))])
  /\ has_key "name" [("details", prop (TObject [("gender", prop TString)]))] = false
  /\ index (DeepMerge
              (TObject [("name", prop TString);
                        ("details", prop (TObject [("age", prop TNumber)]))])
              (TObject [("details", prop (TObject [("gender", prop TString)]))]))
           (TStrLit "name")
     = TString.
Proof.
  split; [simpl; auto | split; [reflexivity|]].
  apply (DeepMerge_keeps_property_of_T
           [("name", prop TString);
            ("details", prop (TObject [("age", prop TNumber)]))]
           [("details", prop (TObject [("gender", prop TString)]))] "name");
    [simpl; auto | reflexivity].
Defined.

(** X28.  For object types [T] and [U], the keys of [DeepMerge<T, U>] are
    those of [T] and those of [U], and every property of the result is
    required and writable: the mapped type ranges over
    [keyof T | keyof U], so the [readonly] and [?] modifiers of [T] and
    [U] are not carried over. *)
Theorem DeepMerge_keys_and_modifiers :
  forall ps qs,
    keyof (DeepMerge (TObject ps) (TObject qs))
    = mk_union [keyof (TObject ps); keyof (TObject qs)]
    /\ forallb (fun kp => negb (p_readonly (snd kp)) && negb (p_optional (snd kp)))
               (props_of (DeepMerge (TObject ps) (TObject qs))) = true.
Proof.
  intros ps qs. split; [apply DeepMerge_keys | apply DeepMerge_modifiers].
Qed.
